(** * VFX Forge MCP: plugin bridge, tool gateway and documentation lookups

    A shallow embedding of

    - [bridge/connection.ts]: the WebSocket bridge ([createBridge]) with its
      connection slot, the table of pending requests and the event observers;
    - [tools/index.ts] and the call-tool handler of [index.ts]: the tool
      registry and the dispatch of a tool call;
    - [docs/roblox-docs.ts]: the class, property, method and event lookups
      that fall back on the superclass.

    The bridge is single-threaded and event-driven: every reaction (socket
    open, message, close, timer, request, shutdown) runs to completion.  Each
    reaction is a function on the bridge state.  Calls that leave the process
    (socket sends and closes, timers, promise settlements, observers) are
    recorded, in order, in a trace. *)

From stdpp Require Import gmap strings list fin_maps pretty.
From Stdlib Require Import ZArith Ascii.

(** ** JSON values *)

(** Values produced by [JSON.parse].  Numbers are kept as integers: the code
    modelled here only tests them for truthiness. *)
#[warnings="-register-all"]
Inductive Json :=
  | JNull
  | JBool (b : bool)
  | JNum (n : Z)
  | JStr (s : string)
  | JArr (items : list Json)
  | JObj (fields : gmap string Json).

(** JavaScript truthiness of a parsed value. *)
Definition truthy (v : Json) : bool :=
  match v with
  | JNull => false
  | JBool b => b
  | JNum n => negb (n =? 0)%Z
  | JStr s => negb (String.eqb s EmptyString)
  | JArr _ => true
  | JObj _ => true
  end.

(** [v.k] for a parsed value [v] and a key that no prototype defines:
    [None] is [undefined]. *)
Definition field (k : string) (v : Json) : option Json :=
  match v with
  | JObj o => o !! k
  | _ => None
  end.

(** [x || d] where [x] may be [undefined]. *)
Definition or_default (x : option Json) (d : Json) : Json :=
  match x with
  | Some v => if truthy v then v else d
  | None => d
  end.

(** Whether [needle] occurs in [hay]. *)
Definition mentions (needle hay : string) : bool :=
  match String.index 0 needle hay with
  | Some _ => true
  | None => false
  end.

(** The double-quote character, for messages that quote a name. *)
Definition dquote : string := String "034"%char EmptyString.

(** ** Insertion-ordered maps

    A JavaScript [Map] iterates in insertion order, and the bridge iterates
    over its table of pending requests; the table is therefore an association
    list with unique keys rather than an unordered finite map. *)

Section JsMap.
Context {V : Type}.

Fixpoint jmap_get (k : string) (m : list (string * V)) : option V :=
  match m with
  | [] => None
  | (k', v) :: rest => if decide (k' = k) then Some v else jmap_get k rest
  end.

(** [Map.set]: an existing key keeps its position, a new key goes last. *)
Fixpoint jmap_set (k : string) (v : V) (m : list (string * V))
  : list (string * V) :=
  match m with
  | [] => [(k, v)]
  | (k', v') :: rest =>
      if decide (k' = k) then (k, v) :: rest
      else (k', v') :: jmap_set k v rest
  end.

Fixpoint jmap_delete (k : string) (m : list (string * V))
  : list (string * V) :=
  match m with
  | [] => []
  | (k', v) :: rest =>
      if decide (k' = k) then jmap_delete k rest
      else (k', v) :: jmap_delete k rest
  end.

Definition jmap_size (m : list (string * V)) : nat := length m.
End JsMap.

Module Bridge.

(** ** Data of [bridge/connection.ts] *)

Definition REQUEST_TIMEOUT_MS : Z := 30000.

(** Identity of a [ServerWebSocket] object. *)
Abbreviation Socket := nat.
(** Identity of a promise: its [resolve] and [reject] functions. *)
Abbreviation PromiseId := nat.
(** Handle returned by [setTimeout]. *)
Abbreviation TimerId := nat.
(** Identity of an observer registered with [onEvent]. *)
Abbreviation HandlerId := nat.

Record ErrorInfo := {
  code : string;
  message : string;
  details : option Json;
}.

(** A parsed envelope.  [type] is the wire string: a handshake arrives with a
    [type] outside the three declared kinds.  Fields a kind does not carry
    are [None]. *)
Record BridgeMessage := {
  id : string;
  type : string;
  timestamp : Z;
  method : option string;
  params : option Json;
  result : option Json;
  error : option ErrorInfo;
}.

(** A JavaScript [Error], identified by its message. *)
Inductive Error := mkError (msg : string).

Definition error_message (e : Error) : string :=
  match e with mkError m => m end.

(** [resolve] and [reject] of one entry belong to the same promise. *)
Record PendingRequest := {
  promise : PromiseId;
  timeout : TimerId;
}.

Record PluginConnection := {
  ws : Socket;
  pluginVersion : Json;
  connectedAt : Z;
}.

(** The closure passed to [setTimeout] by [sendRequest]: it captures the
    request id, the method and the promise's [reject]. *)
Record TimeoutCallback := {
  cb_id : string;
  cb_method : string;
  cb_promise : PromiseId;
  cb_delay : Z;
}.

Inductive Settlement :=
  | Resolved (r : BridgeMessage)
  | Rejected (e : Error).

(** What [ws.send] is given, before [JSON.stringify]. *)
Inductive Frame :=
  | Welcome (serverVersion : string) (now : Z)
  | Request (r : BridgeMessage).

Inductive Effect :=
  | WsSend (s : Socket) (f : Frame)
  | WsClose (s : Socket) (close_code : Z) (reason : string)
  | SetTimeout (t : TimerId) (ms : Z)
  | ClearTimeout (t : TimerId)
  | Resolve (p : PromiseId) (r : BridgeMessage)
  | Reject (p : PromiseId) (e : Error)
  | Notify (h : HandlerId) (m : BridgeMessage)
  | ServerStop
  | ToolHandler (name : string) (args : Json).

(** The variables closed over by [createBridge], together with the part of
    the runtime they reach: the armed timers, the settled promises, the
    allocation counters, the ids [crypto.randomUUID] has returned so far and
    the trace of outward calls. *)
Record State := {
  connection : option PluginConnection;
  pendingRequests : list (string * PendingRequest);
  eventHandlers : list HandlerId;
  serverRunning : bool;
  timers : gmap TimerId TimeoutCallback;
  promises : gmap PromiseId Settlement;
  nextTimer : nat;
  nextPromise : nat;
  issuedIds : list string;
  trace : list Effect;
}.

Definition set_connection (c : option PluginConnection) (st : State) : State :=
  {| connection := c; pendingRequests := pendingRequests st;
     eventHandlers := eventHandlers st; serverRunning := serverRunning st;
     timers := timers st; promises := promises st;
     nextTimer := nextTimer st; nextPromise := nextPromise st;
     issuedIds := issuedIds st; trace := trace st |}.

Definition set_pendingRequests (m : list (string * PendingRequest))
  (st : State) : State :=
  {| connection := connection st; pendingRequests := m;
     eventHandlers := eventHandlers st; serverRunning := serverRunning st;
     timers := timers st; promises := promises st;
     nextTimer := nextTimer st; nextPromise := nextPromise st;
     issuedIds := issuedIds st; trace := trace st |}.

Definition set_eventHandlers (hs : list HandlerId) (st : State) : State :=
  {| connection := connection st; pendingRequests := pendingRequests st;
     eventHandlers := hs; serverRunning := serverRunning st;
     timers := timers st; promises := promises st;
     nextTimer := nextTimer st; nextPromise := nextPromise st;
     issuedIds := issuedIds st; trace := trace st |}.

Definition set_serverRunning (b : bool) (st : State) : State :=
  {| connection := connection st; pendingRequests := pendingRequests st;
     eventHandlers := eventHandlers st; serverRunning := b;
     timers := timers st; promises := promises st;
     nextTimer := nextTimer st; nextPromise := nextPromise st;
     issuedIds := issuedIds st; trace := trace st |}.

Definition set_timers (ts : gmap TimerId TimeoutCallback) (st : State)
  : State :=
  {| connection := connection st; pendingRequests := pendingRequests st;
     eventHandlers := eventHandlers st; serverRunning := serverRunning st;
     timers := ts; promises := promises st;
     nextTimer := nextTimer st; nextPromise := nextPromise st;
     issuedIds := issuedIds st; trace := trace st |}.

Definition set_promises (ps : gmap PromiseId Settlement) (st : State)
  : State :=
  {| connection := connection st; pendingRequests := pendingRequests st;
     eventHandlers := eventHandlers st; serverRunning := serverRunning st;
     timers := timers st; promises := ps;
     nextTimer := nextTimer st; nextPromise := nextPromise st;
     issuedIds := issuedIds st; trace := trace st |}.

Definition set_nextTimer (n : nat) (st : State) : State :=
  {| connection := connection st; pendingRequests := pendingRequests st;
     eventHandlers := eventHandlers st; serverRunning := serverRunning st;
     timers := timers st; promises := promises st;
     nextTimer := n; nextPromise := nextPromise st;
     issuedIds := issuedIds st; trace := trace st |}.

Definition set_nextPromise (n : nat) (st : State) : State :=
  {| connection := connection st; pendingRequests := pendingRequests st;
     eventHandlers := eventHandlers st; serverRunning := serverRunning st;
     timers := timers st; promises := promises st;
     nextTimer := nextTimer st; nextPromise := n;
     issuedIds := issuedIds st; trace := trace st |}.

Definition set_issuedIds (ids : list string) (st : State) : State :=
  {| connection := connection st; pendingRequests := pendingRequests st;
     eventHandlers := eventHandlers st; serverRunning := serverRunning st;
     timers := timers st; promises := promises st;
     nextTimer := nextTimer st; nextPromise := nextPromise st;
     issuedIds := ids; trace := trace st |}.

Definition emit (e : Effect) (st : State) : State :=
  {| connection := connection st; pendingRequests := pendingRequests st;
     eventHandlers := eventHandlers st; serverRunning := serverRunning st;
     timers := timers st; promises := promises st;
     nextTimer := nextTimer st; nextPromise := nextPromise st;
     issuedIds := issuedIds st; trace := trace st ++ [e] |}.

(** ** Runtime primitives *)

(** [setTimeout(cb, ms)]: arms a timer under a new handle. *)
Definition setTimeout (cb : TimeoutCallback) (st : State) : TimerId * State :=
  let t := nextTimer st in
  (t, emit (SetTimeout t (cb_delay cb))
        (set_nextTimer (S t) (set_timers (<[t := cb]> (timers st)) st))).

(** [clearTimeout(t)]: the timer will not fire. *)
Definition clearTimeout (t : TimerId) (st : State) : State :=
  emit (ClearTimeout t) (set_timers (delete t (timers st)) st).

(** Settling a promise: the call is recorded; only the first one takes
    effect. *)
Definition settle (p : PromiseId) (s : Settlement) (st : State) : State :=
  match promises st !! p with
  | Some _ => st
  | None => set_promises (<[p := s]> (promises st)) st
  end.

Definition resolve (p : PromiseId) (r : BridgeMessage) (st : State) : State :=
  emit (Resolve p r) (settle p (Resolved r) st).

Definition reject (p : PromiseId) (e : Error) (st : State) : State :=
  emit (Reject p e) (settle p (Rejected e) st).

(** [new Promise(...)]: a new, unsettled promise. *)
Definition newPromise (st : State) : PromiseId * State :=
  let p := nextPromise st in (p, set_nextPromise (S p) st).

(** [pendingRequests.delete(id)] and [pendingRequests.set(id, entry)]. *)
Definition pendingDelete (k : string) (st : State) : State :=
  set_pendingRequests (jmap_delete k (pendingRequests st)) st.

Definition pendingSet (k : string) (e : PendingRequest) (st : State) : State :=
  set_pendingRequests (jmap_set k e (pendingRequests st)) st.

(** ** The bridge *)

(** State right after [createBridge]: the server listens, nothing else. *)
Definition createBridge : State :=
  {| connection := None; pendingRequests := []; eventHandlers := [];
     serverRunning := true; timers := ∅; promises := ∅;
     nextTimer := 0; nextPromise := 0; issuedIds := []; trace := [] |}.

Definition isConnected (st : State) : bool :=
  match connection st with Some _ => true | None => false end.

Record ConnectionInfo := {
  connected : bool;
  info_pluginVersion : option Json;
  info_connectedAt : option Z;
}.

Definition getConnectionInfo (st : State) : ConnectionInfo :=
  {| connected := isConnected st;
     info_pluginVersion := pluginVersion <$> connection st;
     info_connectedAt := connectedAt <$> connection st |}.

Definition onEvent (h : HandlerId) (st : State) : State :=
  set_eventHandlers (eventHandlers st ++ [h]) st.

(** One turn of the loops of [close] and [shutdown]: cancel the timer, reject,
    delete. *)
Definition rejectEntry (why : string) (st : State)
  (e : string * PendingRequest) : State :=
  pendingDelete e.1
    (reject (promise e.2) (mkError why) (clearTimeout (timeout e.2) st)).

(** [for (const [id, pending] of pendingRequests) { ... delete(id) }]: each
    turn deletes the entry it visits, so the loop visits the entries the
    table held when it started, in insertion order. *)
Definition rejectAll (why : string) (st : State) : State :=
  foldl (rejectEntry why) st (pendingRequests st).

(** What the rejection loop does to the outside, for the entries [l]. *)
Definition rejections (why : string) (l : list (string * PendingRequest))
  : list Effect :=
  l ≫= λ e, [ClearTimeout (timeout e.2); Reject (promise e.2) (mkError why)].

(** [websocket.close(ws, code, reason)]. *)
Definition websocket_close (s : Socket) (st : State) : State :=
  match connection st with
  | Some c =>
      if decide (ws c = s)
      then rejectAll "Connection lost" (set_connection None st)
      else st
  | None => st
  end.

(** [ws.close(code, reason)] on a socket of the server: the socket is closed
    and the server's [close] handler runs for it before the call returns,
    with the variables of the bridge as they are at the call. *)
Definition wsClose (s : Socket) (close_code : Z) (reason : string)
  (st : State) : State :=
  websocket_close s (emit (WsClose s close_code reason) st).

(** [websocket.open(ws)]; [now1] and [now2] are the two readings of the
    clock.  The earlier connection is still installed while its socket is
    closed, so the [close] handler empties the slot and rejects the pending
    requests before the new connection is installed. *)
Definition websocket_open (s : Socket) (now1 now2 : Z) (st : State) : State :=
  let st1 :=
    match connection st with
    | Some c => wsClose (ws c) 1000 "New connection established" st
    | None => st
    end in
  let st2 :=
    set_connection
      (Some {| ws := s; pluginVersion := JStr "unknown"; connectedAt := now1 |})
      st1 in
  emit (WsSend s (Welcome "0.1.0" now2)) st2.

(** The loop over the observers; an observer that throws is caught. *)
Definition notifyAll (m : BridgeMessage) (st : State) : State :=
  foldl (fun acc h => emit (Notify h m) acc) st (eventHandlers st).

Definition handleMessage (m : BridgeMessage) (s : Socket) (st : State)
  : State :=
  if decide (type m = "handshake") then
    match connection st, params m with
    | Some c, Some ps =>
        if decide (ws c = s) then
          if truthy ps then
            set_connection
              (Some {| ws := ws c;
                       pluginVersion :=
                         or_default (field "pluginVersion" ps) (JStr "unknown");
                       connectedAt := connectedAt c |})
              st
          else st
        else st
    | _, _ => st
    end
  else if decide (type m = "response") then
    match jmap_get (id m) (pendingRequests st) with
    | Some pending =>
        resolve (promise pending) m
          (pendingDelete (id m) (clearTimeout (timeout pending) st))
    | None => st
    end
  else if decide (type m = "event") then notifyAll m st
  else st.

(** [websocket.message(ws, message)]: [parsed] is [None] when [JSON.parse]
    throws; the failure is logged and the message dropped. *)
Definition websocket_message (s : Socket) (parsed : option BridgeMessage)
  (st : State) : State :=
  match parsed with
  | Some m => handleMessage m s st
  | None => st
  end.

(** [sendRequest(method, params)].  [uuid] is what [crypto.randomUUID] returns
    if it is called, [now] the clock, and [sendError] the exception [ws.send]
    throws, if any.  The result is the promise handed to the caller. *)
Definition sendRequest (mth : string) (ps : Json)
  (uuid : string) (now : Z) (sendError : option Error) (st : State)
  : PromiseId * State :=
  let '(p, st) := newPromise st in
  match connection st with
  | None => (p, reject p (mkError "Plugin not connected") st)
  | Some c =>
      let st := set_issuedIds (issuedIds st ++ [uuid]) st in
      let request :=
        {| id := uuid; type := "request"; timestamp := now;
           method := Some mth; params := Some ps;
           result := None; error := None |} in
      let '(t, st) :=
        setTimeout {| cb_id := uuid; cb_method := mth; cb_promise := p;
                      cb_delay := REQUEST_TIMEOUT_MS |} st in
      let st := pendingSet uuid {| promise := p; timeout := t |} st in
      match sendError with
      | None => (p, emit (WsSend (ws c) (Request request)) st)
      | Some e => (p, reject p e (pendingDelete uuid (clearTimeout t st)))
      end
  end.

(** The runtime fires timer [t]: nothing happens unless it is still armed;
    otherwise the callback of [sendRequest] runs, once. *)
Definition fireTimer (t : TimerId) (st : State) : State :=
  match timers st !! t with
  | None => st
  | Some cb =>
      reject (cb_promise cb) (mkError ("Request timeout: " +:+ cb_method cb))
        (pendingDelete (cb_id cb) (set_timers (delete t (timers st)) st))
  end.

(** [shutdown()].  The [close] handler that runs inside [ws.close] finds
    the table already emptied by the loop. *)
Definition shutdown (st : State) : State :=
  let st := rejectAll "Bridge shutting down" st in
  let st :=
    match connection st with
    | Some c =>
        set_connection None (wsClose (ws c) 1000 "Server shutting down" st)
    | None => st
    end in
  emit ServerStop (set_serverRunning false st).

(** ** Runs of the bridge *)

(** What can happen to a bridge, with what the environment supplies. *)
Inductive Reaction :=
  | Opened (s : Socket) (now1 now2 : Z)
  | Received (s : Socket) (parsed : option BridgeMessage)
  | Closed (s : Socket)
  | Requested (mth : string) (ps : Json) (uuid : string) (now : Z)
      (sendError : option Error)
  | TimerFired (t : TimerId)
  | ShutDown
  | Subscribed (h : HandlerId)
  | HandlerCalled (toolName : string) (args : Json).

Definition react (r : Reaction) (st : State) : State :=
  match r with
  | Opened s now1 now2 => websocket_open s now1 now2 st
  | Received s parsed => websocket_message s parsed st
  | Closed s => websocket_close s st
  | Requested mth ps uuid now sendError =>
      (sendRequest mth ps uuid now sendError st).2
  | TimerFired t => fireTimer t st
  | ShutDown => shutdown st
  | Subscribed h => onEvent h st
  | HandlerCalled toolName args => emit (ToolHandler toolName args) st
  end.

(** [crypto.randomUUID] never returns the same id twice. *)
Definition admissible (r : Reaction) (st : State) : Prop :=
  match r with
  | Requested _ _ uuid _ _ => uuid ∉ issuedIds st
  | _ => True
  end.

Inductive reachable : State → Prop :=
  | reachable_init : reachable createBridge
  | reachable_step st r :
      reachable st → admissible r st → reachable (react r st).

(** The calls of [resolve] and [reject] of promise [p] in a trace. *)
Definition settles (p : PromiseId) (e : Effect) : bool :=
  match e with
  | Resolve q _ => bool_decide (q = p)
  | Reject q _ => bool_decide (q = p)
  | _ => false
  end.

Definition settle_count (p : PromiseId) (tr : list Effect) : nat :=
  length (filter (λ e, settles p e = true) tr).

(** What every run maintains. *)
Record inv (st : State) : Prop := {
  inv_keys : NoDup (pendingRequests st).*1;
  inv_issued : ∀ k, k ∈ (pendingRequests st).*1 → k ∈ issuedIds st;
  inv_entry : ∀ k e, (k, e) ∈ pendingRequests st →
    ∃ cb, timers st !! timeout e = Some cb ∧
          cb_promise cb = promise e ∧ cb_id cb = k;
  inv_timer : ∀ t cb, timers st !! t = Some cb →
    (cb_id cb, {| promise := cb_promise cb; timeout := t |})
      ∈ pendingRequests st;
  inv_entry_unsettled : ∀ k e, (k, e) ∈ pendingRequests st →
    promises st !! promise e = None;
  inv_entry_lt : ∀ k e, (k, e) ∈ pendingRequests st →
    promise e < nextPromise st ∧ timeout e < nextTimer st;
  inv_promise_inj : ∀ k1 e1 k2 e2,
    (k1, e1) ∈ pendingRequests st → (k2, e2) ∈ pendingRequests st →
    promise e1 = promise e2 → k1 = k2;
  inv_promise_lt : ∀ p, is_Some (promises st !! p) → p < nextPromise st;
  inv_unsettled : ∀ p, promises st !! p = None → settle_count p (trace st) = 0;
  inv_once : ∀ p, settle_count p (trace st) ≤ 1;
  inv_delay : ∀ t cb, timers st !! t = Some cb →
    cb_delay cb = REQUEST_TIMEOUT_MS;
}.

(** ** Sample runs *)

Definition get_children_args : Json := JObj {[ "path" := JStr "Workspace" ]}.

(** A plugin has connected on socket 1. *)
Definition run_connected : State := react (Opened 1 100 101) createBridge.

(** ... and one request is outstanding. *)
Definition run_one_pending : State :=
  react (Requested "get_children" get_children_args "id-1" 200 None)
        run_connected.

(** ... and a second one. *)
Definition run_two_pending : State :=
  react (Requested "get_selection" (JObj ∅) "id-2" 300 None) run_one_pending.

Definition sample_response : BridgeMessage :=
  {| id := "id-1"; type := "response"; timestamp := 250;
     method := None; params := None;
     result := Some (JObj {[ "children" := JArr [] ]}); error := None |}.

Definition sample_failure : BridgeMessage :=
  {| id := "id-2"; type := "response"; timestamp := 350;
     method := None; params := None; result := None;
     error := Some {| code := "NOT_FOUND"; message := "No such instance";
                      details := None |} |}.

Definition sample_handshake : BridgeMessage :=
  {| id := "hello"; type := "handshake"; timestamp := 110;
     method := None;
     params := Some (JObj {[ "pluginVersion" := JStr "1.2.3" ]});
     result := None; error := None |}.

End Bridge.

(** ** Documentation lookups of [docs/roblox-docs.ts] *)

Module Docs.

(** The superclass of the top of the hierarchy in the API dump. *)
Definition ROOT : string := "<<<ROOT>>>".

Record TypeRef := {
  Category : string;
  Name : string;
}.

Record DumpParameter := {
  par_Name : string;
  par_Type : TypeRef;
  par_Default : option string;
}.

(** [Security] of a member: a string, or an object with [Read] and [Write]. *)
Inductive SecurityField :=
  | SecurityString (s : string)
  | SecurityObject (Read Write : option string).

Inductive MemberKind := Property | Function | Event | Callback.

Global Instance MemberKind_eq_dec : EqDecision MemberKind.
Proof. solve_decision. Defined.

(** A member of a class of the API dump.  The record carries the fields of
    every kind of member; the lookups read only those of the kind at hand. *)
Record APIDumpMember := {
  MemberType : MemberKind;
  m_Name : string;
  m_Tags : option (list string);
  m_Security : option SecurityField;
  ValueType : TypeRef;
  m_Category : option string;
  Default : option string;
  Parameters : list DumpParameter;
  ReturnType : TypeRef;
}.

Record APIDumpClass := {
  c_Name : string;
  Superclass : string;
  c_Tags : option (list string);
  Members : list APIDumpMember;
}.

Record APIDump := {
  Version : Z;
  Classes : list APIDumpClass;
}.

Record DocParam := {
  dp_name : string;
  documentation : option string;
}.

Record APIDocMember := {
  d_description : option string;
  d_code_sample : option string;
  d_learn_more_link : option string;
  d_params : option (list DocParam);
  d_returns : option (list string);
}.

Record APIDocClass := {
  cls_description : option string;
  cls_properties : option (gmap string APIDocMember);
  cls_functions : option (gmap string APIDocMember);
  cls_events : option (gmap string APIDocMember);
}.

Record APIDocumentation := {
  classes : gmap string APIDocClass;
}.

Record RobloxDocsCache := {
  apiDump : APIDump;
  apiDocs : option APIDocumentation;
}.

Record PropertySecurity := {
  read : string;
  write : string;
}.

Record PropertyDocumentation := {
  p_name : string;
  p_valueType : string;
  p_category : option string;
  p_description : option string;
  p_learn_more_link : option string;
  p_code_sample : option string;
  p_tags : option (list string);
  p_security : PropertySecurity;
  p_default : option string;
}.

Record ParameterDocumentation := {
  a_name : string;
  a_type : string;
  a_default : option string;
  a_description : option string;
}.

Record MethodDocumentation := {
  f_name : string;
  f_description : option string;
  f_learn_more_link : option string;
  f_code_sample : option string;
  f_parameters : list ParameterDocumentation;
  f_returns : option (list string);
  f_returnType : string;
  f_tags : option (list string);
  f_security : option string;
}.

Record EventDocumentation := {
  e_name : string;
  e_description : option string;
  e_learn_more_link : option string;
  e_code_sample : option string;
  e_parameters : list ParameterDocumentation;
  e_tags : option (list string);
  e_security : option string;
}.

Record ClassDocumentation := {
  k_name : string;
  k_superclass : string;
  k_description : option string;
  k_tags : option (list string);
  k_properties : list PropertyDocumentation;
  k_methods : list MethodDocumentation;
  k_events : list EventDocumentation;
}.

(** [s || d] for a string that may be [undefined]. *)
Definition str_or (s : option string) (d : string) : string :=
  match s with
  | Some x => if String.eqb x EmptyString then d else x
  | None => d
  end.

Definition getMemberDoc (apiDocClass : option APIDocClass)
  (memberName : string) (memberType : MemberKind) : option APIDocMember :=
  match apiDocClass with
  | None => None
  | Some c =>
      match memberType with
      | Property => cls_properties c ≫= (λ r, r !! memberName)
      | Function => cls_functions c ≫= (λ r, r !! memberName)
      | Event => cls_events c ≫= (λ r, r !! memberName)
      | Callback => None
      end
  end.

Definition parsePropertySecurity (security : option SecurityField)
  : PropertySecurity :=
  match security with
  | Some (SecurityObject r w) =>
      {| read := str_or r "None"; write := str_or w "None" |}
  | Some (SecurityString s) =>
      {| read := str_or (Some s) "None"; write := str_or (Some s) "None" |}
  | None => {| read := "None"; write := "None" |}
  end.

(** [typeof security === "string" ? security : undefined]. *)
Definition stringSecurity (security : option SecurityField) : option string :=
  match security with
  | Some (SecurityString s) => Some s
  | _ => None
  end.

(** [memberDoc?.params?.[idx]?.documentation]. *)
Definition paramDoc (memberDoc : option APIDocMember) (idx : nat)
  : option string :=
  match memberDoc ≫= d_params with
  | Some ps => (ps : list DocParam) !! idx ≫= documentation
  | None => None
  end.

Definition findClass (cache : RobloxDocsCache) (className : string)
  : option APIDumpClass :=
  List.find (λ c, String.eqb (c_Name c) className) (Classes (apiDump cache)).

Definition findMember (kind : MemberKind) (memberName : string)
  (classData : APIDumpClass) : option APIDumpMember :=
  List.find
    (λ m, bool_decide (MemberType m = kind) && String.eqb (m_Name m) memberName)
    (Members classData).

Definition classDocOf (cache : RobloxDocsCache) (className : string)
  : option APIDocClass :=
  apiDocs cache ≫= (λ d, classes d !! className).

Definition propertyDoc (memberDoc : option APIDocMember) (prop : APIDumpMember)
  : PropertyDocumentation :=
  {| p_name := m_Name prop;
     p_valueType := Name (ValueType prop);
     p_category := m_Category prop;
     p_description := memberDoc ≫= d_description;
     p_learn_more_link := memberDoc ≫= d_learn_more_link;
     p_code_sample := memberDoc ≫= d_code_sample;
     p_tags := m_Tags prop;
     p_security := parsePropertySecurity (m_Security prop);
     p_default := Default prop |}.

Definition methodDoc (memberDoc : option APIDocMember) (func : APIDumpMember)
  : MethodDocumentation :=
  {| f_name := m_Name func;
     f_description := memberDoc ≫= d_description;
     f_learn_more_link := memberDoc ≫= d_learn_more_link;
     f_code_sample := memberDoc ≫= d_code_sample;
     f_parameters :=
       imap (λ idx p,
               {| a_name := par_Name p; a_type := Name (par_Type p);
                  a_default := par_Default p;
                  a_description := paramDoc memberDoc idx |})
            (Parameters func);
     f_returns := memberDoc ≫= d_returns;
     f_returnType := Name (ReturnType func);
     f_tags := m_Tags func;
     f_security := stringSecurity (m_Security func) |}.

Definition eventDoc (memberDoc : option APIDocMember) (event : APIDumpMember)
  : EventDocumentation :=
  {| e_name := m_Name event;
     e_description := memberDoc ≫= d_description;
     e_learn_more_link := memberDoc ≫= d_learn_more_link;
     e_code_sample := memberDoc ≫= d_code_sample;
     e_parameters :=
       imap (λ idx p,
               {| a_name := par_Name p; a_type := Name (par_Type p);
                  a_default := None;
                  a_description := paramDoc memberDoc idx |})
            (Parameters event);
     e_tags := m_Tags event;
     e_security := stringSecurity (m_Security event) |}.

(** [[...(tags || []), "Inherited"]]. *)
Definition inheritedTags (tags : option (list string)) : option (list string) :=
  Some (default [] tags ++ ["Inherited"]).

Definition inheritedProperty (p : PropertyDocumentation)
  : PropertyDocumentation :=
  {| p_name := p_name p; p_valueType := p_valueType p;
     p_category := p_category p; p_description := p_description p;
     p_learn_more_link := p_learn_more_link p;
     p_code_sample := p_code_sample p;
     p_tags := inheritedTags (p_tags p);
     p_security := p_security p; p_default := p_default p |}.

Definition inheritedMethod (m : MethodDocumentation) : MethodDocumentation :=
  {| f_name := f_name m; f_description := f_description m;
     f_learn_more_link := f_learn_more_link m;
     f_code_sample := f_code_sample m; f_parameters := f_parameters m;
     f_returns := f_returns m; f_returnType := f_returnType m;
     f_tags := inheritedTags (f_tags m); f_security := f_security m |}.

Definition inheritedEvent (e : EventDocumentation) : EventDocumentation :=
  {| e_name := e_name e; e_description := e_description e;
     e_learn_more_link := e_learn_more_link e;
     e_code_sample := e_code_sample e; e_parameters := e_parameters e;
     e_tags := inheritedTags (e_tags e); e_security := e_security e |}.

(** [classData.Superclass && classData.Superclass !== "<<<ROOT>>>"]. *)
Definition hasParent (classData : APIDumpClass) : bool :=
  negb (String.eqb (Superclass classData) EmptyString)
  && negb (String.eqb (Superclass classData) ROOT).

(** The members a class declares itself, as the loop of [getClassDocs]
    collects them. *)
Definition ownProperties (apiDocClass : option APIDocClass)
  (classData : APIDumpClass) : list PropertyDocumentation :=
  omap (λ m, match MemberType m with
             | Property =>
                 Some (propertyDoc (getMemberDoc apiDocClass (m_Name m) Property) m)
             | _ => None
             end)
       (Members classData).

Definition ownMethods (apiDocClass : option APIDocClass)
  (classData : APIDumpClass) : list MethodDocumentation :=
  omap (λ m, match MemberType m with
             | Function =>
                 Some (methodDoc (getMemberDoc apiDocClass (m_Name m) Function) m)
             | _ => None
             end)
       (Members classData).

Definition ownEvents (apiDocClass : option APIDocClass)
  (classData : APIDumpClass) : list EventDocumentation :=
  omap (λ m, match MemberType m with
             | Event =>
                 Some (eventDoc (getMemberDoc apiDocClass (m_Name m) Event) m)
             | _ => None
             end)
       (Members classData).

(** The four lookups recurse on the superclass without any bound.  They are
    embedded with a bound on the depth of the recursion: the outer [None]
    means that the bound was reached, [Some r] that the call returned [r]
    ([Some None] for [null]). *)

Fixpoint getClassDocs (fuel : nat) (cache : RobloxDocsCache)
  (className : string) (includeInherited : bool)
  : option (option ClassDocumentation) :=
  match fuel with
  | O => None
  | S fuel =>
      match findClass cache className with
      | None => Some None
      | Some classData =>
          let apiDocClass := classDocOf cache className in
          let properties := ownProperties apiDocClass classData in
          let methods := ownMethods apiDocClass classData in
          let events := ownEvents apiDocClass classData in
          let finish properties methods events :=
            Some (Some {| k_name := c_Name classData;
                          k_superclass := Superclass classData;
                          k_description := apiDocClass ≫= cls_description;
                          k_tags := c_Tags classData;
                          k_properties := properties;
                          k_methods := methods;
                          k_events := events |}) in
          if includeInherited && hasParent classData then
            match getClassDocs fuel cache (Superclass classData) true with
            | None => None
            | Some (Some parentDocs) =>
                finish
                  (properties ++ (inheritedProperty <$> k_properties parentDocs))
                  (methods ++ (inheritedMethod <$> k_methods parentDocs))
                  (events ++ (inheritedEvent <$> k_events parentDocs))
            | Some None => finish properties methods events
            end
          else finish properties methods events
      end
  end.

Fixpoint getPropertyDocs (fuel : nat) (cache : RobloxDocsCache)
  (className propertyName : string) : option (option PropertyDocumentation) :=
  match fuel with
  | O => None
  | S fuel =>
      match findClass cache className with
      | None => Some None
      | Some classData =>
          match findMember Property propertyName classData with
          | None =>
              if hasParent classData
              then getPropertyDocs fuel cache (Superclass classData) propertyName
              else Some None
          | Some propMember =>
              Some (Some (propertyDoc
                            (getMemberDoc (classDocOf cache className)
                                          propertyName Property)
                            propMember))
          end
      end
  end.

Fixpoint getMethodDocs (fuel : nat) (cache : RobloxDocsCache)
  (className methodName : string) : option (option MethodDocumentation) :=
  match fuel with
  | O => None
  | S fuel =>
      match findClass cache className with
      | None => Some None
      | Some classData =>
          match findMember Function methodName classData with
          | None =>
              if hasParent classData
              then getMethodDocs fuel cache (Superclass classData) methodName
              else Some None
          | Some funcMember =>
              Some (Some (methodDoc
                            (getMemberDoc (classDocOf cache className)
                                          methodName Function)
                            funcMember))
          end
      end
  end.

Fixpoint getEventDocs (fuel : nat) (cache : RobloxDocsCache)
  (className eventName : string) : option (option EventDocumentation) :=
  match fuel with
  | O => None
  | S fuel =>
      match findClass cache className with
      | None => Some None
      | Some classData =>
          match findMember Event eventName classData with
          | None =>
              if hasParent classData
              then getEventDocs fuel cache (Superclass classData) eventName
              else Some None
          | Some eventMember =>
              Some (Some (eventDoc
                            (getMemberDoc (classDocOf cache className)
                                          eventName Event)
                            eventMember))
          end
      end
  end.

(** A call returns when some depth suffices, and then every larger depth
    gives the same result. *)
Definition returns {A : Type} (run : nat → option A) (r : A) : Prop :=
  ∃ fuel, ∀ k, fuel ≤ k → run k = Some r.

Definition terminates {A : Type} (run : nat → option A) : Prop :=
  ∃ r, returns run r.

(** The recursion never ends: no depth suffices. *)
Definition diverges {A : Type} (run : nat → option A) : Prop :=
  ∀ fuel, run fuel = None.

(** Following [Superclass] from [className] reaches the root sentinel or a
    name that no class of the dump bears. *)
Inductive Grounded (cache : RobloxDocsCache) : string → Prop :=
  | Grounded_absent className :
      findClass cache className = None → Grounded cache className
  | Grounded_root className classData :
      findClass cache className = Some classData →
      Superclass classData = ROOT →
      Grounded cache className
  | Grounded_step className classData :
      findClass cache className = Some classData →
      Grounded cache (Superclass classData) →
      Grounded cache className.

(** An acyclic hierarchy: every class name is grounded. *)
Definition Acyclic (cache : RobloxDocsCache) : Prop :=
  ∀ className, Grounded cache className.

(** A check of [Grounded] that runs: follow at most [n] links. *)
Fixpoint groundedb (n : nat) (cache : RobloxDocsCache) (className : string)
  : bool :=
  match findClass cache className with
  | None => true
  | Some classData =>
      String.eqb (Superclass classData) ROOT
      || match n with
         | O => false
         | S n => groundedb n cache (Superclass classData)
         end
  end.

Definition acyclicb (cache : RobloxDocsCache) : bool :=
  forallb (λ c, groundedb (length (Classes (apiDump cache))) cache (c_Name c))
          (Classes (apiDump cache)).

(** ** Sample dumps *)

Definition sampleProperty (name type : string) : APIDumpMember :=
  {| MemberType := Property; m_Name := name; m_Tags := None;
     m_Security := Some (SecurityObject (Some "None") (Some "None"));
     ValueType := {| Category := "Primitive"; Name := type |};
     m_Category := Some "Data"; Default := None;
     Parameters := []; ReturnType := {| Category := EmptyString; Name := EmptyString |} |}.

Definition sampleFunction (name ret : string) : APIDumpMember :=
  {| MemberType := Function; m_Name := name; m_Tags := None;
     m_Security := Some (SecurityString "None");
     ValueType := {| Category := EmptyString; Name := EmptyString |};
     m_Category := None; Default := None;
     Parameters := []; ReturnType := {| Category := "Class"; Name := ret |} |}.

Definition sampleEvent (name : string) : APIDumpMember :=
  {| MemberType := Event; m_Name := name; m_Tags := None;
     m_Security := Some (SecurityString "None");
     ValueType := {| Category := EmptyString; Name := EmptyString |};
     m_Category := None; Default := None;
     Parameters := []; ReturnType := {| Category := EmptyString; Name := EmptyString |} |}.

(** Part < BasePart < Instance < root. *)
Definition sample_cache : RobloxDocsCache :=
  {| apiDump :=
       {| Version := 1;
          Classes :=
            [ {| c_Name := "Instance"; Superclass := ROOT; c_Tags := None;
                 Members := [sampleProperty "Name" "string";
                             sampleFunction "Clone" "Instance";
                             sampleEvent "Changed"] |};
              {| c_Name := "BasePart"; Superclass := "Instance";
                 c_Tags := None;
                 Members := [sampleProperty "Anchored" "bool"] |};
              {| c_Name := "Part"; Superclass := "BasePart"; c_Tags := None;
                 Members := [sampleProperty "Shape" "PartType"] |} ] |};
     apiDocs := None |}.

(** A malformed dump: two classes that name each other as superclass. *)
Definition cyclic_cache : RobloxDocsCache :=
  {| apiDump :=
       {| Version := 1;
          Classes :=
            [ {| c_Name := "A"; Superclass := "B"; c_Tags := None;
                 Members := [] |};
              {| c_Name := "B"; Superclass := "A"; c_Tags := None;
                 Members := [] |} ] |};
     apiDocs := None |}.

End Docs.

(** ** Tool registry and dispatch: [tools/index.ts] and [index.ts] *)

Module Tools.
Import Bridge.

Record Tool := {
  name : string;
  description : string;
  inputSchema : Json;
}.

Record ServerContext := {
  bridge : State;
  docs : option Docs.RobloxDocsCache;
}.

(** How an [async] function ends: it returns a value ([None] is
    [undefined]) or throws. *)
Inductive Outcome :=
  | Returned (v : option Json)
  | Thrown (e : Error).

(** The handler of a tool.  [definePluginTool] builds the same closure for
    every remote tool, a parameter of which is the tool's name; the handlers
    given to [defineLocalTool] read the context and leave the bridge alone. *)
Inductive Handler :=
  | PluginHandler (toolName : string)
  | LocalHandler (run : ServerContext → Json → Outcome).

Record ToolDefinition := {
  tool : Tool;
  handler : Handler;
  requiresPlugin : bool;
}.

(** The module-level [tools] map; dispatch only reads it with [get]. *)
Abbreviation Registry := (gmap string ToolDefinition).

Definition definePluginTool (name description : string) (inputSchema : Json)
  (tools : Registry) : Registry :=
  <[name := {| tool := {| name := name; description := description;
                          inputSchema := inputSchema |};
               handler := PluginHandler name;
               requiresPlugin := true |}]> tools.

Definition defineLocalTool (name description : string) (inputSchema : Json)
  (run : ServerContext → Json → Outcome) (tools : Registry) : Registry :=
  <[name := {| tool := {| name := name; description := description;
                          inputSchema := inputSchema |};
               handler := LocalHandler run;
               requiresPlugin := false |}]> tools.

(** [tools.get(name)?.requiresPlugin ?? false]. *)
Definition isPluginTool (tools : Registry) (name : string) : bool :=
  match tools !! name with
  | Some toolDef => requiresPlugin toolDef
  | None => false
  end.

(** What the runtime supplies to a call of [sendRequest]: the id that
    [crypto.randomUUID] returns, the clock and the exception of [ws.send],
    if any. *)
Record Env := {
  env_uuid : string;
  env_now : Z;
  env_sendError : option Error;
}.

(** The promise an [async] call returns: already settled, or waiting for a
    promise of the bridge and then running the code after the [await]. *)
Inductive Async (A : Type) :=
  | Done (a : A)
  | Awaiting (p : PromiseId) (k : Settlement → A).
Arguments Done {A} a.
Arguments Awaiting {A} p k.

(** The code after [await context.bridge.sendRequest(name, args)] in the
    handler of a remote tool. *)
Definition pluginContinuation (s : Settlement) : Outcome :=
  match s with
  | Resolved response =>
      match error response with
      | Some e => Thrown (mkError (code e +:+ ": " +:+ message e))
      | None => Returned (result response)
      end
  | Rejected e => Thrown e
  end.

(** Calling a handler; the call is recorded in the trace. *)
Definition callHandler (env : Env) (toolName : string) (h : Handler)
  (context : ServerContext) (args : Json) : State * Async Outcome :=
  let st := emit (ToolHandler toolName args) (bridge context) in
  match h with
  | PluginHandler remoteName =>
      let '(p, st) :=
        sendRequest remoteName args (env_uuid env) (env_now env)
                    (env_sendError env) st in
      (st, Awaiting p pluginContinuation)
  | LocalHandler run =>
      (st, Done (run {| bridge := st; docs := docs context |} args))
  end.

Definition handleToolCall (tools : Registry) (env : Env)
  (context : ServerContext) (toolName : string) (args : Json)
  : State * Async Outcome :=
  match tools !! toolName with
  | None =>
      (bridge context, Done (Thrown (mkError ("Unknown tool: " +:+ toolName))))
  | Some toolDef =>
      if requiresPlugin toolDef && negb (isConnected (bridge context)) then
        (bridge context,
         Done (Thrown (mkError
           ("Tool " +:+ dquote +:+ toolName +:+ dquote
            +:+ " requires plugin connection. Plugin is not connected."))))
      else callHandler env toolName (handler toolDef) context args
  end.

(** The reply to a call-tool request: the result as content, or an error
    payload [{success: false, error: {code, message}}]. *)
Inductive Reply :=
  | Content (v : option Json)
  | ErrorReply (error_code : string) (error_text : string).

Definition replyOf (o : Outcome) : Reply :=
  match o with
  | Returned v => Content v
  | Thrown e => ErrorReply "OPERATION_FAILED" (error_message e)
  end.

(** The handler [index.ts] installs for call-tool requests; [args] is
    [None] when the request carries no arguments. *)
Definition callTool (tools : Registry) (env : Env) (context : ServerContext)
  (name : string) (args : option Json) : State * Async Reply :=
  if isPluginTool tools name && negb (isConnected (bridge context)) then
    (bridge context,
     Done (ErrorReply "CONNECTION_LOST"
       "VFX Forge plugin is not connected. Please ensure the plugin is running in Roblox Studio."))
  else
    let '(st, a) :=
      handleToolCall tools env context name (default (JObj ∅) args) in
    (st,
     match a with
     | Done o => Done (replyOf o)
     | Awaiting p k => Awaiting p (λ s, replyOf (k s))
     end).

(** ** A sample registry *)

Definition get_children_schema : Json :=
  JObj {[ "type" := JStr "object";
          "properties" :=
            JObj {[ "path" :=
                      JObj {[ "type" := JStr "string";
                              "description" := JStr "Instance path" ]};
                    "class_filter" :=
                      JObj {[ "type" := JStr "string";
                              "description" :=
                                JStr "Optional class name filter" ]} ]};
          "required" := JArr [JStr "path"] ]}.

(** The handler of [get_connection_status], with the clock it reads. *)
Definition connectionStatus (now : Z) (context : ServerContext) (_ : Json)
  : Outcome :=
  let info := getConnectionInfo (bridge context) in
  Returned (Some (JObj (
    <["connected" := JBool (connected info)]>
      (<["uptime_ms" :=
           JNum (match info_connectedAt info with
                 | Some t => if (t =? 0)%Z then 0 else now - t
                 | None => 0
                 end)%Z]>
         (match info_pluginVersion info with
          | Some v => {[ "plugin_version" := v ]}
          | None => ∅
          end))))).

Definition sample_tools : Registry :=
  defineLocalTool "get_connection_status"
    "Get plugin bridge connection status."
    (JObj {[ "type" := JStr "object"; "properties" := JObj ∅ ]})
    (connectionStatus 1000)
    (definePluginTool "get_children" "Get immediate children of an instance."
       get_children_schema ∅).

Definition sample_env : Env :=
  {| env_uuid := "id-1"; env_now := 200; env_sendError := None |}.

Definition disconnected_context : ServerContext :=
  {| bridge := createBridge; docs := None |}.

Definition connected_context : ServerContext :=
  {| bridge := run_connected; docs := None |}.

End Tools.

(** ** Enums and searches of [docs/roblox-docs.ts] *)

Module Search.
Import Docs.

Record APIDumpEnumItem := {
  i_Name : string;
  Value : Z;
}.

Record APIDumpEnum := {
  en_Name : string;
  Items : list APIDumpEnumItem;
}.

Record APIDocEnumItem := {
  it_description : option string;
  it_learn_more_link : option string;
  it_code_sample : option string;
}.

Record APIDocEnum := {
  ed_description : option string;
  ed_learn_more_link : option string;
  ed_code_sample : option string;
  ed_items : option (gmap string APIDocEnumItem);
}.

(** The cache with the parts that the class lookups do not read: the enums
    of the dump and the [enums] of the documentation (which exist only when
    the documentation does). *)
Record EnumCache := {
  base : RobloxDocsCache;
  Enums : list APIDumpEnum;
  doc_enums : option (gmap string APIDocEnum);
}.

Record EnumItemDocumentation := {
  ei_name : string;
  ei_value : Z;
  ei_description : option string;
  ei_learn_more_link : option string;
  ei_code_sample : option string;
}.

Record EnumDocumentation := {
  eo_name : string;
  eo_description : option string;
  eo_learn_more_link : option string;
  eo_code_sample : option string;
  eo_items : list EnumItemDocumentation;
}.

(** [cache.apiDocs?.enums?.[enumName]]. *)
Definition enumDocOf (cache : EnumCache) (enumName : string)
  : option APIDocEnum :=
  match apiDocs (base cache) with
  | Some _ => doc_enums cache ≫= (λ r, r !! enumName)
  | None => None
  end.

Definition findEnum (cache : EnumCache) (enumName : string)
  : option APIDumpEnum :=
  List.find (λ e, String.eqb (en_Name e) enumName) (Enums cache).

Definition enumItemDoc (itemDoc : option APIDocEnumItem)
  (item : APIDumpEnumItem) : EnumItemDocumentation :=
  {| ei_name := i_Name item;
     ei_value := Value item;
     ei_description := itemDoc ≫= it_description;
     ei_learn_more_link := itemDoc ≫= it_learn_more_link;
     ei_code_sample := itemDoc ≫= it_code_sample |}.

(** [apiDocEnum?.items?.[itemName]]. *)
Definition itemDocOf (apiDocEnum : option APIDocEnum) (itemName : string)
  : option APIDocEnumItem :=
  match apiDocEnum ≫= ed_items with
  | Some r => r !! itemName
  | None => None
  end.

Definition getEnumDocs (cache : EnumCache) (enumName : string)
  : option EnumDocumentation :=
  match findEnum cache enumName with
  | None => None
  | Some enumData =>
      let apiDocEnum := enumDocOf cache enumName in
      Some {| eo_name := en_Name enumData;
              eo_description := apiDocEnum ≫= ed_description;
              eo_learn_more_link := apiDocEnum ≫= ed_learn_more_link;
              eo_code_sample := apiDocEnum ≫= ed_code_sample;
              eo_items :=
                (λ item, enumItemDoc (itemDocOf apiDocEnum (i_Name item)) item)
                  <$> Items enumData |}
  end.

Definition getEnumItemDocs (cache : EnumCache) (enumName itemName : string)
  : option EnumItemDocumentation :=
  match findEnum cache enumName with
  | None => None
  | Some enumData =>
      match List.find (λ i, String.eqb (i_Name i) itemName) (Items enumData) with
      | None => None
      | Some itemData =>
          Some (enumItemDoc (itemDocOf (enumDocOf cache enumName) itemName)
                            itemData)
      end
  end.

(** [result.security?.write === "None"], the test by which the tools of
    [tools/index.ts] call a property writable. *)
Definition writable (d : PropertyDocumentation) : bool :=
  String.eqb (write (p_security d)) "None".

(** An entry of the result of [searchProperties]. *)
Record PropertyHit := {
  h_class : string;
  h_property : string;
  h_type : string;
}.

(** [Array.prototype.slice(0, limit)] for an integer [limit]. *)
Definition slice0 {A : Type} (limit : Z) (l : list A) : list A :=
  let len := Z.of_nat (length l) in
  let final := if (limit <? 0)%Z then Z.max (len + limit) 0
               else Z.min limit len in
  take (Z.to_nat final) l.

Section WithRuntime.
(** Two functions of the JavaScript runtime are parameters:
    [String.prototype.toLowerCase] and [Array.prototype.sort] without a
    comparison function, on arrays of strings. *)
Variable toLowerCase : string → string.
Variable sort : list string → list string.

(** [name.toLowerCase().includes(lowerQuery)]. *)
Definition matches (lowerQuery name : string) : bool :=
  mentions lowerQuery (toLowerCase name).

Definition searchClasses (cache : EnumCache) (query : string) (limit : Z)
  : list string :=
  let lowerQuery := toLowerCase query in
  slice0 limit
    (sort (c_Name <$>
             List.filter (λ c, matches lowerQuery (c_Name c))
                         (Classes (apiDump (base cache))))).

Definition searchEnums (cache : EnumCache) (query : string) (limit : Z)
  : list string :=
  let lowerQuery := toLowerCase query in
  slice0 limit
    (sort (en_Name <$>
             List.filter (λ e, matches lowerQuery (en_Name e)) (Enums cache))).

(** The inner loop of [searchProperties] over the members of one class:
    [inl] when the function has returned from inside the loop, [inr] with
    the results so far when the loop has run to its end. *)
Fixpoint scanMembers (lowerQuery className : string) (limit : Z)
  (members : list APIDumpMember) (results : list PropertyHit)
  : list PropertyHit + list PropertyHit :=
  match members with
  | [] => inr results
  | member :: rest =>
      match MemberType member with
      | Property =>
          if matches lowerQuery (m_Name member) then
            let results :=
              results ++ [{| h_class := className;
                             h_property := m_Name member;
                             h_type := Name (ValueType member) |}] in
            if (Z.of_nat (length results) >=? limit)%Z then inl results
            else scanMembers lowerQuery className limit rest results
          else scanMembers lowerQuery className limit rest results
      | _ => scanMembers lowerQuery className limit rest results
      end
  end.

(** The outer loop, over the classes. *)
Fixpoint scanClasses (lowerQuery : string) (limit : Z)
  (classes : list APIDumpClass) (results : list PropertyHit)
  : list PropertyHit :=
  match classes with
  | [] => results
  | classData :: rest =>
      match scanMembers lowerQuery (c_Name classData) limit
                        (Members classData) results with
      | inl returned => returned
      | inr results => scanClasses lowerQuery limit rest results
      end
  end.

Definition searchProperties (cache : EnumCache) (query : string) (limit : Z)
  : list PropertyHit :=
  scanClasses (toLowerCase query) limit (Classes (apiDump (base cache))) [].

Record SearchResult := {
  r_classes : list string;
  r_enums : list string;
  r_properties : list PropertyHit;
}.

Definition searchAll (cache : EnumCache) (query : string) (limit : Z)
  : SearchResult :=
  {| r_classes := searchClasses cache query limit;
     r_enums := searchEnums cache query limit;
     r_properties := searchProperties cache query limit |}.

(** The properties among [members] that match, in their order. *)
Definition memberMatches (lowerQuery className : string)
  (members : list APIDumpMember) : list PropertyHit :=
  omap (λ member,
          match MemberType member with
          | Property =>
              if matches lowerQuery (m_Name member)
              then Some {| h_class := className;
                           h_property := m_Name member;
                           h_type := Name (ValueType member) |}
              else None
          | _ => None
          end)
       members.

(** Every property of the dump that matches, in the order of the dump. *)
Definition propertyMatches (lowerQuery : string) (classes : list APIDumpClass)
  : list PropertyHit :=
  classData ← classes;
  memberMatches lowerQuery (c_Name classData) (Members classData).

End WithRuntime.

(** Lower case of the letters A to Z, the other characters as they are; it
    agrees with the runtime's function on strings without other letters. *)
Fixpoint asciiLower (s : string) : string :=
  match s with
  | EmptyString => EmptyString
  | String ch rest =>
      let n := Ascii.nat_of_ascii ch in
      String (if (65 <=? n)%nat && (n <=? 90)%nat
              then Ascii.ascii_of_nat (n + 32) else ch)
             (asciiLower rest)
  end.

(** Strings in the order of their bytes: the order of [sort] on names
    made of ASCII characters. *)
Fixpoint insertSorted (x : string) (l : list string) : list string :=
  match l with
  | [] => [x]
  | y :: rest =>
      if String.leb x y then x :: l else y :: insertSorted x rest
  end.

Definition byteSort (l : list string) : list string :=
  foldr insertSorted [] l.

Definition sample_enums : EnumCache :=
  {| base := sample_cache;
     Enums :=
       [ {| en_Name := "Material";
            Items := [ {| i_Name := "Plastic"; Value := 256 |};
                       {| i_Name := "Neon"; Value := 288 |} ] |};
         {| en_Name := "PartType";
            Items := [ {| i_Name := "Ball"; Value := 0 |};
                       {| i_Name := "Block"; Value := 1 |} ] |} ];
     doc_enums := None |}.

End Search.

(** ** Registries and replies *)

Module Dispatch.
Import Bridge Tools.

(** The registries that [registerTools] can build: [tools] starts empty and
    is only written by [definePluginTool] and [defineLocalTool]. *)
Inductive Registered : Registry → Prop :=
  | Registered_empty : Registered ∅
  | Registered_plugin tools name description inputSchema :
      Registered tools →
      Registered (definePluginTool name description inputSchema tools)
  | Registered_local tools name description inputSchema run :
      Registered tools →
      Registered (defineLocalTool name description inputSchema run tools).

(** What the caller of an [async] function has received once the bridge is
    in state [st]: nothing yet ([None]) while the awaited promise is not
    settled. *)
Definition received {A : Type} (a : Async A) (st : State) : option A :=
  match a with
  | Done x => Some x
  | Awaiting p k => k <$> promises st !! p
  end.

End Dispatch.

(** ** Further sample data *)

Module Samples.
Import Bridge.

Definition sample_event : BridgeMessage :=
  {| id := "e1"; type := "event"; timestamp := 120;
     method := Some "selection_changed"; params := None;
     result := None; error := None |}.

(** A handshake whose parameters do not carry a version. *)
Definition versionless_handshake : BridgeMessage :=
  {| id := "hello"; type := "handshake"; timestamp := 130;
     method := None; params := Some (JObj {[ "build" := JNum 7 ]});
     result := None; error := None |}.

(** Two observers have subscribed during the sample run. *)
Definition run_observed : State := onEvent 8 (onEvent 7 run_one_pending).

End Samples.

(** ** Facts about insertion-ordered maps *)

Section JsMapFacts.
Context {V : Type}.
Implicit Types (m : list (string * V)) (k : string) (v : V).

Lemma jmap_get_None m k : jmap_get k m = None ↔ k ∉ m.*1.
Proof.
  induction m as [|[k' v'] m IH]; simpl.
  - split; [intros _; apply not_elem_of_nil | done].
  - rewrite not_elem_of_cons. destruct (decide (k' = k)) as [->|Hne].
    + split; [done | intros [? _]; done].
    + rewrite IH. split; [intros ?; split; [congruence | done] | tauto].
Qed.

Lemma jmap_get_Some_elem m k v : jmap_get k m = Some v → (k, v) ∈ m.
Proof.
  induction m as [|[k' v'] m IH]; simpl; [done|].
  destruct (decide (k' = k)) as [->|Hne].
  - intros [= ->]. apply list_elem_of_here.
  - intros H. apply list_elem_of_further, IH, H.
Qed.

Lemma jmap_elem_get m k v : NoDup m.*1 → (k, v) ∈ m → jmap_get k m = Some v.
Proof.
  induction m as [|[k' v'] m IH]; simpl; intros Hnd Hin.
  - by apply elem_of_nil in Hin.
  - apply NoDup_cons in Hnd as [Hk Hnd].
    apply elem_of_cons in Hin as [[= -> ->]|Hin].
    + by rewrite decide_True.
    + destruct (decide (k' = k)) as [->|Hne]; [|by apply IH].
      exfalso. apply Hk. apply list_elem_of_fmap. by exists (k, v).
Qed.

Lemma elem_of_jmap_delete m k k' v :
  (k', v) ∈ jmap_delete k m ↔ (k', v) ∈ m ∧ k' ≠ k.
Proof.
  induction m as [|[k0 v0] m IH]; simpl.
  - split; [intros H; by apply elem_of_nil in H | intros [H _]; done].
  - destruct (decide (k0 = k)) as [->|Hne].
    + rewrite IH, elem_of_cons. split; [tauto|].
      intros [[[= -> ->]|H] Hk]; [done | tauto].
    + rewrite !elem_of_cons, IH. split.
      * intros [[= -> ->]|[H Hk]]; [split; [by left | done] | tauto].
      * intros [[[= -> ->]|H] Hk]; [by left | right; tauto].
Qed.

Lemma jmap_delete_keys_sublist m k : (jmap_delete k m).*1 `sublist_of` m.*1.
Proof.
  induction m as [|[k0 v0] m IH]; simpl; [done|].
  destruct (decide (k0 = k)); simpl.
  - by apply sublist_cons.
  - by apply sublist_skip.
Qed.

Lemma jmap_delete_NoDup m k : NoDup m.*1 → NoDup (jmap_delete k m).*1.
Proof. intros H. eapply sublist_NoDup; [done | apply jmap_delete_keys_sublist]. Qed.

Lemma jmap_delete_fresh m k : k ∉ m.*1 → jmap_delete k m = m.
Proof.
  induction m as [|[k0 v0] m IH]; simpl; [done|].
  rewrite not_elem_of_cons. intros [Hne Hk].
  rewrite decide_False by congruence. by rewrite IH.
Qed.

Lemma jmap_set_fresh m k v : k ∉ m.*1 → jmap_set k v m = m ++ [(k, v)].
Proof.
  induction m as [|[k0 v0] m IH]; simpl; [done|].
  rewrite not_elem_of_cons. intros [Hne Hk].
  rewrite decide_False by congruence. by rewrite IH.
Qed.

Lemma jmap_delete_app m1 m2 k :
  jmap_delete k (m1 ++ m2) = jmap_delete k m1 ++ jmap_delete k m2.
Proof.
  induction m1 as [|[k0 v0] m1 IH]; simpl; [done|].
  destruct (decide (k0 = k)); simpl; by rewrite IH.
Qed.

(** Setting a new key and deleting it again gives the table back. *)
Lemma jmap_delete_set_fresh m k v :
  k ∉ m.*1 → jmap_delete k (jmap_set k v m) = m.
Proof.
  intros Hk. rewrite jmap_set_fresh, jmap_delete_app by done. simpl.
  rewrite decide_True by done. rewrite jmap_delete_fresh by done.
  apply app_nil_r.
Qed.

Lemma jmap_delete_get_eq m k : jmap_get k (jmap_delete k m) = None.
Proof.
  apply jmap_get_None. intros Hin.
  apply list_elem_of_fmap in Hin as [[k' v] [Hk Hin]]. simpl in Hk. subst k'.
  apply elem_of_jmap_delete in Hin as [_ Hne]. done.
Qed.

Lemma jmap_delete_get_ne m k k' :
  k ≠ k' → jmap_get k' (jmap_delete k m) = jmap_get k' m.
Proof.
  intros Hne. induction m as [|[k0 v0] m IH]; simpl; [done|].
  destruct (decide (k0 = k)) as [->|Hk0]; simpl.
  - rewrite decide_False by done. apply IH.
  - destruct (decide (k0 = k')); [done | apply IH].
Qed.

End JsMapFacts.

(** ** The invariant of the bridge *)

Section BridgeInvariant.
Import Bridge.

Lemma jmap_entry_unique {V} (m : list (string * V)) k v1 v2 :
  NoDup m.*1 → (k, v1) ∈ m → (k, v2) ∈ m → v1 = v2.
Proof.
  intros Hnd H1 H2.
  apply (jmap_elem_get _ _ _ Hnd) in H1, H2. congruence.
Qed.

Lemma settle_count_app p tr1 tr2 :
  settle_count p (tr1 ++ tr2) = settle_count p tr1 + settle_count p tr2.
Proof. unfold settle_count. by rewrite filter_app, length_app. Qed.

Lemma settle_count_nil p : settle_count p [] = 0.
Proof. done. Qed.

Lemma settle_count_cons p e tr :
  settle_count p (e :: tr) =
  (if settles p e then 1 else 0) + settle_count p tr.
Proof.
  unfold settle_count. rewrite filter_cons.
  destruct (settles p e); case_decide; simpl; congruence.
Qed.

Lemma reject_unsettled p e st :
  promises st !! p = None →
  reject p e st =
  emit (Reject p e) (set_promises (<[p := Rejected e]> (promises st)) st).
Proof. intros H. unfold reject, settle. by rewrite H. Qed.

Lemma resolve_unsettled p r st :
  promises st !! p = None →
  resolve p r st =
  emit (Resolve p r) (set_promises (<[p := Resolved r]> (promises st)) st).
Proof. intros H. unfold resolve, settle. by rewrite H. Qed.

(** An entry leaves the table, its timer is disarmed and its promise
    settled, once. *)
Lemma inv_finish st st' k e s tr :
  inv st → (k, e) ∈ pendingRequests st →
  pendingRequests st' = jmap_delete k (pendingRequests st) →
  timers st' = delete (timeout e) (timers st) →
  promises st' = <[promise e := s]> (promises st) →
  nextTimer st' = nextTimer st → nextPromise st' = nextPromise st →
  issuedIds st' = issuedIds st →
  trace st' = trace st ++ tr →
  (∀ q, settle_count q tr = if decide (q = promise e) then 1 else 0) →
  inv st'.
Proof.
  intros [Hkeys Hiss Hentry Htimer Huns Hlt Hinj Hplt Hzero Honce Hdelay]
    Hin Etab Etim Epro EnT EnP Eiss Etr Hcount.
  assert (∀ k' e', (k', e') ∈ pendingRequests st' →
            (k', e') ∈ pendingRequests st ∧ k' ≠ k) as Hsub.
  { intros k' e'. rewrite Etab. apply elem_of_jmap_delete. }
  split.
  - rewrite Etab. by apply jmap_delete_NoDup.
  - intros k' Hk'. rewrite Eiss. apply Hiss.
    rewrite Etab in Hk'.
    eapply elem_of_sublist; [done | apply jmap_delete_keys_sublist].
  - intros k' e' [Hin' Hne]%Hsub.
    destruct (Hentry _ _ Hin') as (cb & Hcb & Hp & Hk).
    exists cb. split; [|done]. rewrite Etim.
    rewrite lookup_delete_ne; [done|]. intros Heq.
    destruct (Hentry _ _ Hin) as (cb0 & Hcb0 & _ & Hk0).
    rewrite Heq in Hcb0. congruence.
  - intros t cb. rewrite Etim, Etab. intros Hl.
    apply lookup_delete_Some in Hl as [Hne Hl].
    apply elem_of_jmap_delete. split; [by apply Htimer|].
    intros Hk. apply Htimer in Hl. rewrite Hk in Hl.
    pose proof (jmap_entry_unique _ _ _ _ Hkeys Hin Hl) as ->. done.
  - intros k' e' [Hin' Hne]%Hsub. rewrite Epro.
    rewrite lookup_insert_ne; [by eapply Huns|].
    intros Heq. apply Hne. symmetry. by eapply Hinj.
  - intros k' e' [Hin' Hne]%Hsub. rewrite EnT, EnP. by eapply Hlt.
  - intros k1 e1 k2 e2 [H1 _]%Hsub [H2 _]%Hsub. by eapply Hinj.
  - intros p. rewrite Epro, EnP. intros Hs.
    destruct (decide (promise e = p)) as [<-|Hne].
    + by eapply Hlt.
    + rewrite lookup_insert_ne in Hs by done. by apply Hplt.
  - intros p. rewrite Epro, Etr, settle_count_app, Hcount. intros Hs.
    apply lookup_insert_None in Hs as [Hs Hne].
    rewrite decide_False by done. rewrite Hzero by done. done.
  - intros p. rewrite Etr, settle_count_app, Hcount.
    destruct (decide (p = promise e)) as [->|Hne].
    + rewrite Hzero; [done|]. by eapply Huns.
    + specialize (Honce p). lia.
  - intros t cb. rewrite Etim. intros [_ Hl]%lookup_delete_Some.
    by eapply Hdelay.
Qed.

(** Changes outside the table, the timers and the promises. *)
Lemma inv_frame st st' tr :
  inv st →
  pendingRequests st' = pendingRequests st →
  timers st' = timers st → promises st' = promises st →
  nextTimer st' = nextTimer st → nextPromise st' = nextPromise st →
  issuedIds st' = issuedIds st →
  trace st' = trace st ++ tr →
  (∀ q, settle_count q tr = 0) →
  inv st'.
Proof.
  intros [Hkeys Hiss Hentry Htimer Huns Hlt Hinj Hplt Hzero Honce Hdelay]
    Etab Etim Epro EnT EnP Eiss Etr Hcount.
  split; rewrite ?Etab, ?Etim, ?Epro, ?EnT, ?EnP, ?Eiss; try done.
  - intros p Hp. rewrite Etr, settle_count_app, Hcount, Hzero; done.
  - intros p. rewrite Etr, settle_count_app, Hcount.
    specialize (Honce p). lia.
Qed.

(** A promise is created and settled within one call. *)
Lemma inv_fresh_settle st st' s tr nT :
  inv st →
  pendingRequests st' = pendingRequests st →
  timers st' = timers st →
  promises st' = <[nextPromise st := s]> (promises st) →
  nextTimer st' = nT → nextTimer st ≤ nT →
  nextPromise st' = S (nextPromise st) →
  (∀ k, k ∈ issuedIds st → k ∈ issuedIds st') →
  trace st' = trace st ++ tr →
  (∀ q, settle_count q tr = if decide (q = nextPromise st) then 1 else 0) →
  inv st'.
Proof.
  intros [Hkeys Hiss Hentry Htimer Huns Hlt Hinj Hplt Hzero Honce Hdelay]
    Etab Etim Epro EnT HnT EnP Eiss Etr Hcount.
  assert (promises st !! nextPromise st = None) as Hfresh.
  { destruct (promises st !! nextPromise st) eqn:E; [|done].
    assert (nextPromise st < nextPromise st) by (apply Hplt; eauto). lia. }
  split; rewrite ?Etab, ?Etim; try done.
  - intros k Hk. by apply Eiss, Hiss.
  - intros k e Hin. rewrite Epro. rewrite lookup_insert_ne; [by eapply Huns|].
    destruct (Hlt _ _ Hin). lia.
  - intros k e Hin. rewrite EnT, EnP. destruct (Hlt _ _ Hin). lia.
  - intros p. rewrite Epro, EnP. intros Hs.
    destruct (decide (nextPromise st = p)) as [<-|Hne]; [lia|].
    rewrite lookup_insert_ne in Hs by done. apply Hplt in Hs. lia.
  - intros p. rewrite Epro, Etr, settle_count_app, Hcount. intros Hs.
    apply lookup_insert_None in Hs as [Hs Hne].
    rewrite decide_False by done. rewrite Hzero by done. done.
  - intros p. rewrite Etr, settle_count_app, Hcount.
    destruct (decide (p = nextPromise st)) as [->|Hne].
    + rewrite Hzero; done.
    + specialize (Honce p). lia.
Qed.

(** A request is recorded: a new entry with a new promise and a new timer. *)
Lemma inv_send_ok st st' uuid cb tr :
  inv st → uuid ∉ issuedIds st →
  cb_id cb = uuid → cb_promise cb = nextPromise st →
  cb_delay cb = REQUEST_TIMEOUT_MS →
  pendingRequests st' =
    pendingRequests st ++
      [(uuid, {| promise := nextPromise st; timeout := nextTimer st |})] →
  timers st' = <[nextTimer st := cb]> (timers st) →
  promises st' = promises st →
  nextTimer st' = S (nextTimer st) → nextPromise st' = S (nextPromise st) →
  issuedIds st' = issuedIds st ++ [uuid] →
  trace st' = trace st ++ tr →
  (∀ q, settle_count q tr = 0) →
  inv st'.
Proof.
  intros [Hkeys Hiss Hentry Htimer Huns Hlt Hinj Hplt Hzero Honce Hdelay]
    Hfresh Hcbid Hcbp Hcbd Etab Etim Epro EnT EnP Eiss Etr Hcount.
  assert (promises st !! nextPromise st = None) as Hnone.
  { destruct (promises st !! nextPromise st) eqn:E; [|done].
    assert (nextPromise st < nextPromise st) by (apply Hplt; eauto). lia. }
  assert (uuid ∉ (pendingRequests st).*1) as Hnk by (intros ?; by apply Hfresh, Hiss).
  split; rewrite ?Etab, ?Etim, ?Epro, ?EnT, ?EnP, ?Eiss.
  - rewrite fmap_app. apply NoDup_app. split; [done|]. split.
    + intros k Hk Hk'. simpl in Hk'. apply list_elem_of_singleton in Hk'.
      by subst.
    + simpl. apply NoDup_singleton.
  - intros k. rewrite fmap_app, !elem_of_app. simpl.
    intros [Hk|Hk]; [left; by apply Hiss | by right].
  - intros k e [Hin|Hin]%elem_of_app.
    + destruct (Hentry _ _ Hin) as (cb' & Hcb' & Hp & Hk).
      exists cb'. split; [|done]. rewrite lookup_insert_ne; [done|].
      destruct (Hlt _ _ Hin). lia.
    + apply list_elem_of_singleton in Hin as [= -> ->]. simpl.
      exists cb. by rewrite lookup_insert_eq.
  - intros t cb'. rewrite lookup_insert_Some.
    intros [[<- <-]|[Hne Hl]]; apply elem_of_app.
    + right. rewrite Hcbid, Hcbp. apply list_elem_of_here.
    + left. by apply Htimer.
  - intros k e [Hin|Hin]%elem_of_app; [by eapply Huns|].
    by apply list_elem_of_singleton in Hin as [= -> ->].
  - intros k e [Hin|Hin]%elem_of_app.
    + destruct (Hlt _ _ Hin). lia.
    + apply list_elem_of_singleton in Hin as [= -> ->]. simpl. lia.
  - intros k1 e1 k2 e2 [H1|H1]%elem_of_app [H2|H2]%elem_of_app Hp.
    + by eapply Hinj.
    + apply list_elem_of_singleton in H2 as [= -> ->]. simpl in Hp.
      destruct (Hlt _ _ H1). lia.
    + apply list_elem_of_singleton in H1 as [= -> ->]. simpl in Hp.
      destruct (Hlt _ _ H2). lia.
    + apply list_elem_of_singleton in H1 as [= -> ->].
      by apply list_elem_of_singleton in H2 as [= -> ->].
  - intros p Hp. apply Hplt in Hp. lia.
  - intros p Hp. rewrite Etr, settle_count_app, Hcount, Hzero; done.
  - intros p. rewrite Etr, settle_count_app, Hcount.
    specialize (Honce p). lia.
  - intros t cb'. rewrite lookup_insert_Some.
    intros [[_ <-]|[_ Hl]]; [done | by eapply Hdelay].
Qed.

Lemma inv_createBridge : inv createBridge.
Proof.
  split; simpl; try apply NoDup_nil_2; intros;
    repeat match goal with
      | H : _ ∈ [] |- _ => apply elem_of_nil in H; destruct H
      | H : is_Some (∅ !! _) |- _ => destruct H as [? H]
      | H : ∅ !! _ = Some _ |- _ => rewrite lookup_empty in H; discriminate
      end; try done.
  rewrite settle_count_nil. lia.
Qed.

(** One turn of the rejection loop, on an entry of the table. *)
Lemma rejectEntry_fields why st k e :
  inv st → (k, e) ∈ pendingRequests st →
  let st' := rejectEntry why st (k, e) in
  connection st' = connection st ∧
  eventHandlers st' = eventHandlers st ∧
  serverRunning st' = serverRunning st ∧
  pendingRequests st' = jmap_delete k (pendingRequests st) ∧
  timers st' = delete (timeout e) (timers st) ∧
  promises st' = <[promise e := Rejected (mkError why)]> (promises st) ∧
  nextTimer st' = nextTimer st ∧ nextPromise st' = nextPromise st ∧
  issuedIds st' = issuedIds st ∧
  trace st' =
    trace st ++ [ClearTimeout (timeout e); Reject (promise e) (mkError why)].
Proof.
  intros Hinv Hin. unfold rejectEntry. cbn [fst snd].
  rewrite reject_unsettled by (simpl; by eapply inv_entry_unsettled).
  simpl. rewrite <- app_assoc. done.
Qed.

Lemma settle_count_clear_reject q t p e :
  settle_count q [ClearTimeout t; Reject p e] =
  if decide (q = p) then 1 else 0.
Proof.
  rewrite !settle_count_cons, settle_count_nil. simpl.
  destruct (decide (q = p)) as [->|Hne].
  - by rewrite bool_decide_eq_true_2.
  - rewrite bool_decide_eq_false_2; [done | congruence].
Qed.

Lemma inv_rejectEntry why st k e :
  inv st → (k, e) ∈ pendingRequests st → inv (rejectEntry why st (k, e)).
Proof.
  intros Hinv Hin.
  destruct (rejectEntry_fields why st k e Hinv Hin)
    as (_ & _ & _ & Etab & Etim & Epro & EnT & EnP & Eiss & Etr).
  eapply inv_finish; eauto using settle_count_clear_reject.
Qed.

(** The rejection loop, started on a table [l]. *)
Lemma rejectLoop_spec why l : ∀ st,
  inv st → pendingRequests st = l →
  let st' := foldl (rejectEntry why) st l in
  inv st' ∧
  pendingRequests st' = [] ∧
  connection st' = connection st ∧
  eventHandlers st' = eventHandlers st ∧
  serverRunning st' = serverRunning st ∧
  nextTimer st' = nextTimer st ∧ nextPromise st' = nextPromise st ∧
  issuedIds st' = issuedIds st ∧
  trace st' = trace st ++ rejections why l ∧
  (∀ t, timers st !! t = None → timers st' !! t = None) ∧
  (∀ p s, promises st !! p = Some s → promises st' !! p = Some s) ∧
  (∀ k e, (k, e) ∈ l →
     timers st' !! timeout e = None ∧
     promises st' !! promise e = Some (Rejected (mkError why))).
Proof.
  induction l as [|[k e] l IH]; intros st Hinv Etab; simpl.
  - rewrite app_nil_r. split_and!; try done.
    intros k e H. by apply elem_of_nil in H.
  - assert ((k, e) ∈ pendingRequests st) as Hin
      by (rewrite Etab; apply list_elem_of_here).
    destruct (rejectEntry_fields why st k e Hinv Hin)
      as (Ec & Eh & Es & Etab' & Etim & Epro & EnT & EnP & Eiss & Etr).
    pose proof (inv_rejectEntry why st k e Hinv Hin) as Hinv'.
    pose proof (inv_keys _ Hinv) as Hnd. rewrite Etab in Hnd. simpl in Hnd.
    apply NoDup_cons in Hnd as [Hk Hnd].
    assert (pendingRequests (rejectEntry why st (k, e)) = l) as Etab''.
    { rewrite Etab', Etab. simpl. rewrite decide_True by done.
      by apply jmap_delete_fresh. }
    destruct (IH _ Hinv' Etab'')
      as (Hi & Ht & Hc & Hh & Hs & HnT & HnP & Hiss & Htr & Htm & Hpm & Hall).
    split; [done|]. split; [done|].
    rewrite Hc, Hh, Hs, HnT, HnP, Hiss, Htr, Etr, Ec, Eh, Es, EnT, EnP, Eiss.
    rewrite <- app_assoc. split_and!; try done.
    + intros t Hnone. apply Htm. rewrite Etim.
      by apply lookup_delete_None; right.
    + intros p s Hsome. apply Hpm. rewrite Epro.
      rewrite lookup_insert_ne; [done|]. intros <-.
      rewrite (inv_entry_unsettled _ Hinv _ _ Hin) in Hsome. done.
    + intros k' e' H.
      apply elem_of_cons in H as [[= -> ->]|H]; [|by apply (Hall _ _ H)].
      split.
      * apply Htm. rewrite Etim. apply lookup_delete_eq.
      * apply Hpm. rewrite Epro. apply lookup_insert_eq.
Qed.

Lemma rejectAll_spec why st :
  inv st →
  let st' := rejectAll why st in
  inv st' ∧
  pendingRequests st' = [] ∧
  connection st' = connection st ∧
  eventHandlers st' = eventHandlers st ∧
  serverRunning st' = serverRunning st ∧
  nextTimer st' = nextTimer st ∧ nextPromise st' = nextPromise st ∧
  issuedIds st' = issuedIds st ∧
  trace st' = trace st ++ rejections why (pendingRequests st) ∧
  (∀ t, timers st !! t = None → timers st' !! t = None) ∧
  (∀ p s, promises st !! p = Some s → promises st' !! p = Some s) ∧
  (∀ k e, (k, e) ∈ pendingRequests st →
     timers st' !! timeout e = None ∧
     promises st' !! promise e = Some (Rejected (mkError why))).
Proof. intros Hinv. by apply rejectLoop_spec. Qed.

Lemma notifyLoop_fields m hs : ∀ st,
  let st' := foldl (λ acc h, emit (Notify h m) acc) st hs in
  connection st' = connection st ∧
  pendingRequests st' = pendingRequests st ∧
  eventHandlers st' = eventHandlers st ∧
  serverRunning st' = serverRunning st ∧
  timers st' = timers st ∧ promises st' = promises st ∧
  nextTimer st' = nextTimer st ∧ nextPromise st' = nextPromise st ∧
  issuedIds st' = issuedIds st ∧
  trace st' = trace st ++ ((λ h, Notify h m) <$> hs).
Proof.
  induction hs as [|h hs IH]; intros st; simpl.
  - by rewrite app_nil_r.
  - destruct (IH (emit (Notify h m) st))
      as (-> & -> & -> & -> & -> & -> & -> & -> & -> & ->).
    simpl. by rewrite <- app_assoc.
Qed.

Lemma settle_count_notify q m hs :
  settle_count q ((λ h, Notify h m) <$> hs) = 0.
Proof.
  induction hs as [|h hs IH]; [done|].
  by rewrite fmap_cons, settle_count_cons, IH.
Qed.

Lemma settle_count_reject q p e :
  settle_count q [Reject p e] = if decide (q = p) then 1 else 0.
Proof.
  rewrite settle_count_cons, settle_count_nil. simpl.
  destruct (decide (q = p)) as [->|Hne].
  - by rewrite bool_decide_eq_true_2.
  - rewrite bool_decide_eq_false_2; [done | congruence].
Qed.

Lemma settle_count_clear_resolve q t p r :
  settle_count q [ClearTimeout t; Resolve p r] =
  if decide (q = p) then 1 else 0.
Proof.
  rewrite !settle_count_cons, settle_count_nil. simpl.
  destruct (decide (q = p)) as [->|Hne].
  - by rewrite bool_decide_eq_true_2.
  - rewrite bool_decide_eq_false_2; [done | congruence].
Qed.

Lemma settle_count_set_clear_reject q t ms p e :
  settle_count q [SetTimeout t ms; ClearTimeout t; Reject p e] =
  if decide (q = p) then 1 else 0.
Proof. rewrite settle_count_cons. apply settle_count_clear_reject. Qed.

Lemma nextPromise_unsettled st : inv st → promises st !! nextPromise st = None.
Proof.
  intros Hinv. destruct (promises st !! nextPromise st) eqn:E; [|done].
  assert (nextPromise st < nextPromise st)
    by (eapply inv_promise_lt; eauto). lia.
Qed.

Lemma inv_set_connection c st : inv st → inv (set_connection c st).
Proof.
  intros Hinv. eapply (inv_frame st _ []); try done.
  simpl. by rewrite app_nil_r.
Qed.

(** A response that matches an entry. *)
Lemma response_fields m st pending :
  inv st → jmap_get (id m) (pendingRequests st) = Some pending →
  let st' := resolve (promise pending) m
               (pendingDelete (id m) (clearTimeout (timeout pending) st)) in
  connection st' = connection st ∧
  eventHandlers st' = eventHandlers st ∧
  serverRunning st' = serverRunning st ∧
  pendingRequests st' = jmap_delete (id m) (pendingRequests st) ∧
  timers st' = delete (timeout pending) (timers st) ∧
  promises st' = <[promise pending := Resolved m]> (promises st) ∧
  nextTimer st' = nextTimer st ∧ nextPromise st' = nextPromise st ∧
  issuedIds st' = issuedIds st ∧
  trace st' =
    trace st ++ [ClearTimeout (timeout pending); Resolve (promise pending) m].
Proof.
  intros Hinv Hget. apply jmap_get_Some_elem in Hget.
  rewrite resolve_unsettled by (simpl; by eapply inv_entry_unsettled).
  simpl. rewrite <- app_assoc. done.
Qed.

Lemma inv_handleMessage m s st : inv st → inv (handleMessage m s st).
Proof.
  intros Hinv. unfold handleMessage.
  destruct (decide (type m = "handshake")).
  { destruct (connection st) as [c|], (params m) as [ps|]; try done.
    destruct (decide (ws c = s)); [|done].
    destruct (truthy ps); [|done]. by apply inv_set_connection. }
  destruct (decide (type m = "response")).
  { destruct (jmap_get (id m) (pendingRequests st)) as [pending|] eqn:Hget;
      [|done].
    destruct (response_fields m st pending Hinv Hget)
      as (_ & _ & _ & Etab & Etim & Epro & EnT & EnP & Eiss & Etr).
    eapply inv_finish; eauto using settle_count_clear_resolve.
    by apply jmap_get_Some_elem. }
  destruct (decide (type m = "event")); [|done].
  unfold notifyAll.
  destruct (notifyLoop_fields m (eventHandlers st) st)
    as (_ & Etab & _ & _ & Etim & Epro & EnT & EnP & Eiss & Etr).
  eapply inv_frame; eauto using settle_count_notify.
Qed.

Lemma inv_websocket_close s st : inv st → inv (websocket_close s st).
Proof.
  intros Hinv. unfold websocket_close.
  destruct (connection st) as [c|]; [|done].
  destruct (decide (ws c = s)); [|done].
  by apply rejectAll_spec, inv_set_connection.
Qed.

(** [ws.close] on the socket of the installed connection: the [close]
    handler empties the slot and rejects what is pending. *)
Lemma wsClose_fields close_code reason st c :
  inv st → connection st = Some c →
  let st' := wsClose (ws c) close_code reason st in
  inv st' ∧
  pendingRequests st' = [] ∧
  connection st' = None ∧
  eventHandlers st' = eventHandlers st ∧
  serverRunning st' = serverRunning st ∧
  nextTimer st' = nextTimer st ∧ nextPromise st' = nextPromise st ∧
  issuedIds st' = issuedIds st ∧
  trace st' =
    trace st ++ WsClose (ws c) close_code reason
      :: rejections "Connection lost" (pendingRequests st) ∧
  (∀ t, timers st !! t = None → timers st' !! t = None) ∧
  (∀ p x, promises st !! p = Some x → promises st' !! p = Some x) ∧
  (∀ k e, (k, e) ∈ pendingRequests st →
     timers st' !! timeout e = None ∧
     promises st' !! promise e = Some (Rejected (mkError "Connection lost"))).
Proof.
  intros Hinv Hc. unfold wsClose, websocket_close. cbn [connection emit].
  rewrite Hc, decide_True by done.
  set (st0 := set_connection None (emit (WsClose (ws c) close_code reason) st)).
  assert (inv st0) as Hinv0
    by (by eapply (inv_frame st _ [WsClose (ws c) close_code reason])).
  destruct (rejectAll_spec "Connection lost" st0 Hinv0)
    as (Hi & Etab & Ec & Eh & Es & EnT & EnP & Eiss & Etr & Htm & Hpm & Hall).
  rewrite Etr. simpl. rewrite <- app_assoc. split_and!; done.
Qed.

(** With nothing pending, that handler only empties the slot. *)
Lemma wsClose_nothing_pending close_code reason st c :
  connection st = Some c → pendingRequests st = [] →
  wsClose (ws c) close_code reason st
  = set_connection None (emit (WsClose (ws c) close_code reason) st).
Proof.
  intros Hc Etab. unfold wsClose, websocket_close. cbn [connection emit].
  rewrite Hc, decide_True by done. unfold rejectAll. simpl. by rewrite Etab.
Qed.

(** [websocket.open]: what it leaves as it is, and what it does when no
    connection or a connection is installed. *)
Lemma websocket_open_fields s now1 now2 st :
  inv st →
  let st' := websocket_open s now1 now2 st in
  inv st' ∧
  connection st' =
    Some {| ws := s; pluginVersion := JStr "unknown"; connectedAt := now1 |} ∧
  eventHandlers st' = eventHandlers st ∧
  serverRunning st' = serverRunning st ∧
  nextTimer st' = nextTimer st ∧ nextPromise st' = nextPromise st ∧
  issuedIds st' = issuedIds st ∧
  (∀ t, timers st !! t = None → timers st' !! t = None) ∧
  (∀ p x, promises st !! p = Some x → promises st' !! p = Some x) ∧
  match connection st with
  | None =>
      pendingRequests st' = pendingRequests st ∧
      timers st' = timers st ∧ promises st' = promises st ∧
      trace st' = trace st ++ [WsSend s (Welcome "0.1.0" now2)]
  | Some c =>
      pendingRequests st' = [] ∧
      trace st' =
        trace st ++ WsClose (ws c) 1000 "New connection established"
          :: rejections "Connection lost" (pendingRequests st)
          ++ [WsSend s (Welcome "0.1.0" now2)] ∧
      (∀ k e, (k, e) ∈ pendingRequests st →
         timers st' !! timeout e = None ∧
         promises st' !! promise e
           = Some (Rejected (mkError "Connection lost")))
  end.
Proof.
  intros Hinv. unfold websocket_open. destruct (connection st) as [c|] eqn:Hc.
  - destruct (wsClose_fields 1000 "New connection established" st c Hinv Hc)
      as (Hi & Etab & Ec & Eh & Es & EnT & EnP & Eiss & Etr & Htm & Hpm & Hall).
    set (st1 := wsClose (ws c) 1000 "New connection established" st) in *.
    cbv zeta. simpl. rewrite Etab, Eh, Es, EnT, EnP, Eiss, Etr.
    rewrite <- app_assoc. split_and!; try done.
    eapply (inv_frame st1 _ [WsSend s (Welcome "0.1.0" now2)]); done.
  - cbv zeta. simpl. split_and!; try done.
    eapply (inv_frame st _ [WsSend s (Welcome "0.1.0" now2)]); done.
Qed.

Lemma inv_websocket_open s now1 now2 st :
  inv st → inv (websocket_open s now1 now2 st).
Proof. intros Hinv. by destruct (websocket_open_fields s now1 now2 st Hinv). Qed.

(** A timer that fires while armed. *)
Lemma fireTimer_fields t cb st :
  inv st → timers st !! t = Some cb →
  let st' := fireTimer t st in
  connection st' = connection st ∧
  eventHandlers st' = eventHandlers st ∧
  serverRunning st' = serverRunning st ∧
  pendingRequests st' = jmap_delete (cb_id cb) (pendingRequests st) ∧
  timers st' = delete t (timers st) ∧
  promises st' =
    <[cb_promise cb :=
        Rejected (mkError ("Request timeout: " +:+ cb_method cb))]>
      (promises st) ∧
  nextTimer st' = nextTimer st ∧ nextPromise st' = nextPromise st ∧
  issuedIds st' = issuedIds st ∧
  trace st' =
    trace st ++
      [Reject (cb_promise cb)
         (mkError ("Request timeout: " +:+ cb_method cb))].
Proof.
  intros Hinv Hcb. unfold fireTimer. rewrite Hcb.
  rewrite reject_unsettled; [done|]. simpl.
  apply (inv_entry_unsettled _ Hinv _ _ (inv_timer _ Hinv _ _ Hcb)).
Qed.

Lemma inv_fireTimer t st : inv st → inv (fireTimer t st).
Proof.
  intros Hinv. destruct (timers st !! t) as [cb|] eqn:Hcb.
  - destruct (fireTimer_fields t cb st Hinv Hcb)
      as (_ & _ & _ & Etab & Etim & Epro & EnT & EnP & Eiss & Etr).
    eapply (inv_finish st _ (cb_id cb)
              {| promise := cb_promise cb; timeout := t |});
      eauto using settle_count_reject.
    by apply inv_timer.
  - unfold fireTimer. by rewrite Hcb.
Qed.

(** [shutdown] without the [close] handler, which has nothing left to do. *)
Lemma shutdown_unfold st :
  inv st →
  shutdown st =
  let st := rejectAll "Bridge shutting down" st in
  let st :=
    match connection st with
    | Some c =>
        set_connection None
          (emit (WsClose (ws c) 1000 "Server shutting down") st)
    | None => st
    end in
  emit ServerStop (set_serverRunning false st).
Proof.
  intros Hinv. unfold shutdown. cbv zeta.
  destruct (rejectAll_spec "Bridge shutting down" st Hinv) as (_ & Etab & _).
  destruct (connection (rejectAll "Bridge shutting down" st)) as [c|] eqn:Hc;
    [|done].
  by rewrite (wsClose_nothing_pending _ _ _ c Hc Etab).
Qed.

Lemma inv_shutdown st : inv st → inv (shutdown st).
Proof.
  intros Hinv. rewrite shutdown_unfold by done. cbv zeta.
  destruct (rejectAll_spec "Bridge shutting down" st Hinv) as (Hinv' & _).
  set (st1 := rejectAll "Bridge shutting down" st) in *.
  destruct (connection st1) as [c|].
  - eapply (inv_frame st1 _ [WsClose (ws c) 1000 "Server shutting down";
                             ServerStop]); try done.
    simpl. by rewrite <- app_assoc.
  - eapply (inv_frame st1 _ [ServerStop]); done.
Qed.

Lemma timer_unarmed_next st : inv st → timers st !! nextTimer st = None.
Proof.
  intros Hinv. destruct (timers st !! nextTimer st) as [cb|] eqn:E; [|done].
  destruct (inv_entry_lt _ Hinv _ _ (inv_timer _ Hinv _ _ E)).
  simpl in *. lia.
Qed.

(** [sendRequest] without a connection. *)
Lemma sendRequest_disconnected_fields mth ps uuid now sendError st :
  inv st → connection st = None →
  let r := sendRequest mth ps uuid now sendError st in
  r.1 = nextPromise st ∧
  connection r.2 = None ∧
  eventHandlers r.2 = eventHandlers st ∧
  serverRunning r.2 = serverRunning st ∧
  pendingRequests r.2 = pendingRequests st ∧
  timers r.2 = timers st ∧
  promises r.2 =
    <[nextPromise st := Rejected (mkError "Plugin not connected")]>
      (promises st) ∧
  nextTimer r.2 = nextTimer st ∧ nextPromise r.2 = S (nextPromise st) ∧
  issuedIds r.2 = issuedIds st ∧
  trace r.2 =
    trace st ++ [Reject (nextPromise st) (mkError "Plugin not connected")].
Proof.
  intros Hinv Hc. unfold sendRequest, newPromise. simpl. rewrite Hc.
  rewrite reject_unsettled by (simpl; by apply nextPromise_unsettled). done.
Qed.

(** [sendRequest] on a connection whose [send] throws [e]. *)
Lemma sendRequest_failed_fields mth ps uuid now e c st :
  inv st → uuid ∉ issuedIds st → connection st = Some c →
  let r := sendRequest mth ps uuid now (Some e) st in
  r.1 = nextPromise st ∧
  connection r.2 = Some c ∧
  eventHandlers r.2 = eventHandlers st ∧
  serverRunning r.2 = serverRunning st ∧
  pendingRequests r.2 = pendingRequests st ∧
  timers r.2 = timers st ∧
  promises r.2 = <[nextPromise st := Rejected e]> (promises st) ∧
  nextTimer r.2 = S (nextTimer st) ∧ nextPromise r.2 = S (nextPromise st) ∧
  issuedIds r.2 = issuedIds st ++ [uuid] ∧
  trace r.2 =
    trace st ++ [SetTimeout (nextTimer st) REQUEST_TIMEOUT_MS;
                 ClearTimeout (nextTimer st);
                 Reject (nextPromise st) e].
Proof.
  intros Hinv Hfresh Hc. unfold sendRequest, newPromise. simpl. rewrite Hc.
  cbn [fst snd].
  rewrite reject_unsettled by (simpl; by apply nextPromise_unsettled). simpl.
  assert (uuid ∉ (pendingRequests st).*1) as Hnk
    by (intros ?; by eapply Hfresh, inv_issued).
  rewrite jmap_delete_set_fresh by done.
  rewrite delete_insert_eq, delete_id by (by apply timer_unarmed_next).
  rewrite <- !app_assoc. done.
Qed.

(** [sendRequest] on a connection whose [send] succeeds. *)
Lemma sendRequest_sent_fields mth ps uuid now c st :
  inv st → uuid ∉ issuedIds st → connection st = Some c →
  let r := sendRequest mth ps uuid now None st in
  let cb := {| cb_id := uuid; cb_method := mth;
               cb_promise := nextPromise st;
               cb_delay := REQUEST_TIMEOUT_MS |} in
  let request := {| id := uuid; type := "request"; timestamp := now;
                    method := Some mth; params := Some ps;
                    result := None; error := None |} in
  r.1 = nextPromise st ∧
  connection r.2 = Some c ∧
  eventHandlers r.2 = eventHandlers st ∧
  serverRunning r.2 = serverRunning st ∧
  pendingRequests r.2 =
    pendingRequests st ++
      [(uuid, {| promise := nextPromise st; timeout := nextTimer st |})] ∧
  timers r.2 = <[nextTimer st := cb]> (timers st) ∧
  promises r.2 = promises st ∧
  nextTimer r.2 = S (nextTimer st) ∧ nextPromise r.2 = S (nextPromise st) ∧
  issuedIds r.2 = issuedIds st ++ [uuid] ∧
  trace r.2 =
    trace st ++ [SetTimeout (nextTimer st) REQUEST_TIMEOUT_MS;
                 WsSend (ws c) (Request request)].
Proof.
  intros Hinv Hfresh Hc. unfold sendRequest, newPromise. simpl. rewrite Hc.
  simpl.
  assert (uuid ∉ (pendingRequests st).*1) as Hnk
    by (intros ?; by eapply Hfresh, inv_issued).
  rewrite jmap_set_fresh by done.
  rewrite <- !app_assoc. done.
Qed.

Lemma inv_sendRequest mth ps uuid now sendError st :
  inv st → uuid ∉ issuedIds st →
  inv (sendRequest mth ps uuid now sendError st).2.
Proof.
  intros Hinv Hfresh. destruct (connection st) as [c|] eqn:Hc.
  - destruct sendError as [e|].
    + destruct (sendRequest_failed_fields mth ps uuid now e c st Hinv Hfresh Hc)
        as (_ & _ & _ & _ & Etab & Etim & Epro & EnT & EnP & Eiss & Etr).
      eapply inv_fresh_settle;
        eauto using settle_count_set_clear_reject.
      intros k Hk. rewrite Eiss. apply elem_of_app. by left.
    + destruct (sendRequest_sent_fields mth ps uuid now c st Hinv Hfresh Hc)
        as (_ & _ & _ & _ & Etab & Etim & Epro & EnT & EnP & Eiss & Etr).
      eapply inv_send_ok; eauto; done.
  - destruct (sendRequest_disconnected_fields mth ps uuid now sendError st
                Hinv Hc)
      as (_ & _ & _ & _ & Etab & Etim & Epro & EnT & EnP & Eiss & Etr).
    eapply inv_fresh_settle; eauto using settle_count_reject.
    intros k Hk. by rewrite Eiss.
Qed.

Lemma inv_react r st : inv st → admissible r st → inv (react r st).
Proof.
  intros Hinv Hadm. destruct r; simpl.
  - by apply inv_websocket_open.
  - destruct parsed; [by apply inv_handleMessage | done].
  - by apply inv_websocket_close.
  - by apply inv_sendRequest.
  - by apply inv_fireTimer.
  - by apply inv_shutdown.
  - eapply (inv_frame st _ []); try done. simpl. by rewrite app_nil_r.
  - eapply (inv_frame st _ [ToolHandler toolName args]); done.
Qed.

Lemma reachable_inv st : reachable st → inv st.
Proof.
  induction 1 as [|st r _ IH Hadm]; [apply inv_createBridge|].
  by apply inv_react.
Qed.

End BridgeInvariant.

(** ** Properties of the bridge *)

Section BridgeClaims.
Import Bridge.

Lemma run_connected_reachable : reachable run_connected.
Proof. apply reachable_step; [apply reachable_init | exact I]. Qed.

Lemma run_one_pending_reachable : reachable run_one_pending.
Proof.
  apply reachable_step; [apply run_connected_reachable|].
  simpl. apply not_elem_of_nil.
Qed.

Lemma run_two_pending_reachable : reachable run_two_pending.
Proof.
  apply reachable_step; [apply run_one_pending_reachable|].
  simpl. intros H. apply list_elem_of_singleton in H. discriminate.
Qed.

(** C2.  An inbound response whose id matches an entry of the table: the
    entry's timer is cancelled, the entry is removed, and then its promise
    is resolved with the envelope; the remote tool handler awaiting that
    promise returns the envelope's result when the envelope has no error,
    and throws an error made of the envelope's error code and message when
    it has one. *)
Theorem matching_response_settles_caller st s m pending :
  reachable st →
  type m = "response" →
  jmap_get (id m) (pendingRequests st) = Some pending →
  let st' := websocket_message s (Some m) st in
  st' = resolve (promise pending) m
          (pendingDelete (id m) (clearTimeout (timeout pending) st)) ∧
  timers st' !! timeout pending = None ∧
  jmap_get (id m) (pendingRequests st') = None ∧
  pendingRequests st' = jmap_delete (id m) (pendingRequests st) ∧
  trace st' =
    trace st ++ [ClearTimeout (timeout pending); Resolve (promise pending) m] ∧
  promises st' !! promise pending = Some (Resolved m) ∧
  (error m = None →
     Tools.pluginContinuation <$> promises st' !! promise pending
     = Some (Tools.Returned (result m))) ∧
  (∀ e, error m = Some e →
     Tools.pluginContinuation <$> promises st' !! promise pending
     = Some (Tools.Thrown (mkError (code e +:+ ": " +:+ message e)))).
Proof.
  intros Hreach Hty Hget. apply reachable_inv in Hreach as Hinv.
  simpl. unfold handleMessage.
  rewrite decide_False by (rewrite Hty; discriminate).
  rewrite decide_True by done. rewrite Hget.
  destruct (response_fields m st pending Hinv Hget)
    as (_ & _ & _ & Etab & Etim & Epro & _ & _ & _ & Etr).
  rewrite Etab, Etim, Epro, Etr, lookup_delete_eq, lookup_insert_eq.
  rewrite jmap_delete_get_eq. split_and!; try done.
  - intros He. simpl. by rewrite He.
  - intros e He. simpl. by rewrite He.
Qed.

Lemma matching_response_settles_caller_witness :
  Tools.pluginContinuation <$>
    promises (websocket_message 1 (Some sample_response) run_two_pending) !! 0
  = Some (Tools.Returned (result sample_response)) ∧
  Tools.pluginContinuation <$>
    promises (websocket_message 1 (Some sample_failure) run_two_pending) !! 1
  = Some (Tools.Thrown (mkError "NOT_FOUND: No such instance")).
Proof.
  split.
  - apply (matching_response_settles_caller run_two_pending 1 sample_response
             {| promise := 0; timeout := 0 |}
             run_two_pending_reachable eq_refl eq_refl).
    reflexivity.
  - destruct (matching_response_settles_caller run_two_pending 1
                sample_failure {| promise := 1; timeout := 1 |}
                run_two_pending_reachable eq_refl eq_refl)
      as (_ & _ & _ & _ & _ & _ & _ & H).
    apply (H _ eq_refl).
Defined.

Lemma shutdown_fields st :
  inv st →
  let st' := shutdown st in
  connection st' = None ∧
  pendingRequests st' = [] ∧
  eventHandlers st' = eventHandlers st ∧
  serverRunning st' = false ∧
  trace st' =
    trace st ++ rejections "Bridge shutting down" (pendingRequests st)
      ++ match connection st with
         | Some c => [WsClose (ws c) 1000 "Server shutting down"]
         | None => []
         end
      ++ [ServerStop] ∧
  (∀ k e, (k, e) ∈ pendingRequests st →
     timers st' !! timeout e = None ∧
     promises st' !! promise e =
       Some (Rejected (mkError "Bridge shutting down"))).
Proof.
  intros Hinv. rewrite shutdown_unfold by done. cbv zeta.
  destruct (rejectAll_spec "Bridge shutting down" st Hinv)
    as (_ & Etab & Ec & Eh & _ & _ & _ & _ & Etr & _ & _ & Hall).
  set (st1 := rejectAll "Bridge shutting down" st) in *.
  rewrite <- Ec. destruct (connection st1) as [c|] eqn:Hc1; simpl;
    rewrite ?Hc1, Etab, Eh, Etr, <- ?app_assoc; split_and!; done.
Qed.

(** C3.  When the active connection is lost, by a close event on the active
    socket or by shutdown, every entry of the table has its timer cancelled
    and its promise rejected, with "Connection lost" or "Bridge shutting
    down", whatever the time since the request, and the table is left
    empty; shutdown also closes the connection, clears the slot and stops
    the server. *)
Theorem connection_loss_rejects_all_pending st :
  reachable st →
  (∀ c, connection st = Some c →
     let st' := websocket_close (ws c) st in
     connection st' = None ∧
     pendingRequests st' = [] ∧
     trace st' =
       trace st ++ rejections "Connection lost" (pendingRequests st) ∧
     ∀ k e, (k, e) ∈ pendingRequests st →
       timers st' !! timeout e = None ∧
       promises st' !! promise e = Some (Rejected (mkError "Connection lost")))
  ∧
  (let st' := shutdown st in
   connection st' = None ∧
   pendingRequests st' = [] ∧
   serverRunning st' = false ∧
   trace st' =
     trace st ++ rejections "Bridge shutting down" (pendingRequests st)
       ++ match connection st with
          | Some c => [WsClose (ws c) 1000 "Server shutting down"]
          | None => []
          end
       ++ [ServerStop] ∧
   ∀ k e, (k, e) ∈ pendingRequests st →
     timers st' !! timeout e = None ∧
     promises st' !! promise e =
       Some (Rejected (mkError "Bridge shutting down"))).
Proof.
  intros Hinv%reachable_inv. split.
  - intros c Hc. unfold websocket_close. rewrite Hc.
    rewrite decide_True by done.
    destruct (rejectAll_spec "Connection lost" (set_connection None st)
                (inv_set_connection None st Hinv))
      as (_ & Etab & Ec & _ & _ & _ & _ & _ & Etr & _ & _ & Hall).
    done.
  - destruct (shutdown_fields st Hinv) as (Ec & Etab & _ & Es & Etr & Hall).
    done.
Qed.

Lemma connection_loss_rejects_all_pending_witness :
  pendingRequests (websocket_close 1 run_two_pending) = [] ∧
  promises (websocket_close 1 run_two_pending) !! 1
    = Some (Rejected (mkError "Connection lost")) ∧
  promises (shutdown run_two_pending) !! 0
    = Some (Rejected (mkError "Bridge shutting down")) ∧
  serverRunning (shutdown run_two_pending) = false.
Proof.
  destruct (connection_loss_rejects_all_pending run_two_pending
              run_two_pending_reachable) as [Hclose Hshut].
  destruct (Hclose {| ws := 1; pluginVersion := JStr "unknown";
                      connectedAt := 100 |} eq_refl)
    as (_ & Etab & _ & Hall).
  destruct Hshut as (_ & _ & Hstop & _ & Hall').
  split_and!.
  - exact Etab.
  - apply (Hall "id-2" {| promise := 1; timeout := 1 |}).
    apply list_elem_of_further, list_elem_of_here.
  - apply (Hall' "id-1" {| promise := 0; timeout := 0 |}).
    apply list_elem_of_here.
  - exact Hstop.
Defined.

Lemma jmap_get_app_fresh {V} (m : list (string * V)) k k' v :
  k ≠ k' → jmap_get k (m ++ [(k', v)]) = jmap_get k m.
Proof.
  intros Hne. induction m as [|[k0 v0] m IH]; simpl.
  - by rewrite decide_False.
  - destruct (decide (k0 = k)); [done | apply IH].
Qed.

(** An id that was issued and has left the table stays out of it. *)
Lemma react_keeps_removed r st k :
  inv st → admissible r st →
  k ∈ issuedIds st → jmap_get k (pendingRequests st) = None →
  jmap_get k (pendingRequests (react r st)) = None.
Proof.
  intros Hinv Hadm Hk Hget.
  assert (∀ k', jmap_get k (jmap_delete k' (pendingRequests st)) = None) as Hdel.
  { intros k'. destruct (decide (k' = k)) as [->|Hne].
    - apply jmap_delete_get_eq.
    - by rewrite jmap_delete_get_ne. }
  destruct r; cbn [react].
  - destruct (websocket_open_fields s now1 now2 st Hinv)
      as (_ & _ & _ & _ & _ & _ & _ & _ & _ & Hcase).
    destruct (connection st) as [c|].
    + by destruct Hcase as (-> & _).
    + by destruct Hcase as (-> & _).
  - destruct parsed as [m|]; [|done]. unfold websocket_message, handleMessage.
    destruct (decide (type m = "handshake")).
    { destruct (connection st) as [c|], (params m) as [ps|]; try done.
      destruct (decide (ws c = s)); [|done]. by destruct (truthy ps). }
    destruct (decide (type m = "response")).
    { destruct (jmap_get (id m) (pendingRequests st)) as [pending|] eqn:Hg;
        [|done].
      destruct (response_fields m st pending Hinv Hg)
        as (_ & _ & _ & -> & _). done. }
    destruct (decide (type m = "event")); [|done].
    unfold notifyAll.
    destruct (notifyLoop_fields m (eventHandlers st) st) as (_ & -> & _). done.
  - unfold websocket_close. destruct (connection st) as [c|]; [|done].
    destruct (decide (ws c = s)); [|done].
    destruct (rejectAll_spec "Connection lost" (set_connection None st)
                (inv_set_connection None st Hinv)) as (_ & -> & _). done.
  - simpl in Hadm. destruct (connection st) as [c|] eqn:Hc.
    + destruct sendError as [e|].
      * destruct (sendRequest_failed_fields mth ps uuid now e c st Hinv Hadm Hc)
          as (_ & _ & _ & _ & -> & _). done.
      * destruct (sendRequest_sent_fields mth ps uuid now c st Hinv Hadm Hc)
          as (_ & _ & _ & _ & -> & _).
        rewrite jmap_get_app_fresh; [done|]. intros ->. done.
    + destruct (sendRequest_disconnected_fields mth ps uuid now sendError st
                  Hinv Hc) as (_ & _ & _ & _ & -> & _). done.
  - destruct (timers st !! t) as [cb|] eqn:Hcb.
    + destruct (fireTimer_fields t cb st Hinv Hcb) as (_ & _ & _ & -> & _).
      done.
    + unfold fireTimer. by rewrite Hcb.
  - by destruct (shutdown_fields st Hinv) as (_ & -> & _).
  - by simpl.
  - by simpl.
Qed.

(** C4.  A response whose id is not in the table is dropped: the bridge is
    exactly as before, so the table, the other entries and the observers are
    untouched and nothing is settled.  In every run each promise is resolved
    or rejected at most once, the promises of the entries still in the table
    not at all; and an id that has left the table never comes back, so an
    entry is removed at most once. *)
Theorem unmatched_response_dropped_settled_once :
  (∀ st s m,
     type m = "response" → jmap_get (id m) (pendingRequests st) = None →
     websocket_message s (Some m) st = st) ∧
  (∀ st, reachable st →
     (∀ p, settle_count p (trace st) ≤ 1) ∧
     (∀ k e, (k, e) ∈ pendingRequests st →
        settle_count (promise e) (trace st) = 0)) ∧
  (∀ st r k,
     reachable st → admissible r st →
     k ∈ issuedIds st → jmap_get k (pendingRequests st) = None →
     jmap_get k (pendingRequests (react r st)) = None).
Proof.
  split_and!.
  - intros st s m Hty Hget. simpl. unfold handleMessage.
    rewrite decide_False by (rewrite Hty; discriminate).
    rewrite decide_True by done. by rewrite Hget.
  - intros st Hinv%reachable_inv. split; [apply (inv_once _ Hinv)|].
    intros k e Hin. apply (inv_unsettled _ Hinv).
    by eapply inv_entry_unsettled.
  - intros st r k Hinv%reachable_inv. by apply react_keeps_removed.
Qed.

Lemma unmatched_response_dropped_settled_once_witness :
  let st := websocket_message 1 (Some sample_response) run_two_pending in
  websocket_message 1 (Some sample_response) st = st ∧
  settle_count 0 (trace st) ≤ 1 ∧
  jmap_get "id-1"
    (pendingRequests
       (react (Requested "get_tags" (JObj ∅) "id-3" 400 None) st)) = None.
Proof.
  assert (reachable (websocket_message 1 (Some sample_response) run_two_pending))
    as Hreach.
  { apply (reachable_step run_two_pending (Received 1 (Some sample_response))
             run_two_pending_reachable I). }
  destruct unmatched_response_dropped_settled_once as (Hdrop & Honce & Hgone).
  split_and!.
  - apply Hdrop; reflexivity.
  - apply (Honce _ Hreach).
  - apply (Hgone _ _ _ Hreach).
    + simpl. intros H. apply elem_of_cons in H as [H|H]; [discriminate|].
      apply list_elem_of_singleton in H. discriminate.
    + apply list_elem_of_here.
    + reflexivity.
Defined.

(** C5, as the code has it.  A request that is sent arms a timer of
    [REQUEST_TIMEOUT_MS] whose callback holds the request's id, method and
    promise; when an armed timer fires, the entry of its request is removed
    from the table and the promise is rejected with the error
    "Request timeout: " followed by the method.  The error names the method;
    it does not carry the duration of the window. *)
Theorem timeout_rejects_naming_method :
  (∀ st c mth ps uuid now,
     reachable st → connection st = Some c → uuid ∉ issuedIds st →
     let r := sendRequest mth ps uuid now None st in
     jmap_get uuid (pendingRequests r.2)
       = Some {| promise := r.1; timeout := nextTimer st |} ∧
     timers r.2 !! nextTimer st
       = Some {| cb_id := uuid; cb_method := mth; cb_promise := r.1;
                 cb_delay := REQUEST_TIMEOUT_MS |}) ∧
  (∀ st t cb,
     reachable st → timers st !! t = Some cb →
     let st' := fireTimer t st in
     cb_delay cb = REQUEST_TIMEOUT_MS ∧
     jmap_get (cb_id cb) (pendingRequests st')  = None ∧
     timers st' !! t = None ∧
     promises st' !! cb_promise cb
       = Some (Rejected (mkError ("Request timeout: " +:+ cb_method cb))) ∧
     trace st' =
       trace st ++
         [Reject (cb_promise cb)
            (mkError ("Request timeout: " +:+ cb_method cb))]).
Proof.
  split.
  - intros st c mth ps uuid now Hinv%reachable_inv Hc Hfresh. cbv zeta.
    destruct (sendRequest_sent_fields mth ps uuid now c st Hinv Hfresh Hc)
      as (-> & _ & _ & _ & -> & -> & _).
    split; [|by rewrite lookup_insert_eq].
    apply jmap_elem_get; [|apply elem_of_app; right; apply list_elem_of_here].
    rewrite fmap_app. apply NoDup_app. split; [by apply inv_keys|]. split.
    + intros k Hk Hk'. apply list_elem_of_singleton in Hk'. subst k.
      by eapply Hfresh, inv_issued.
    + apply NoDup_singleton.
  - intros st t cb Hinv%reachable_inv Hcb. cbv zeta.
    destruct (fireTimer_fields t cb st Hinv Hcb)
      as (_ & _ & _ & -> & -> & -> & _ & _ & _ & ->).
    rewrite jmap_delete_get_eq, lookup_delete_eq, lookup_insert_eq.
    split_and!; try done. by eapply inv_delay.
Qed.

Lemma timeout_rejects_naming_method_witness :
  promises (fireTimer 0 run_one_pending) !! 0
    = Some (Rejected (mkError "Request timeout: get_children")) ∧
  jmap_get "id-1" (pendingRequests (fireTimer 0 run_one_pending)) = None.
Proof.
  destruct timeout_rejects_naming_method as [_ Hfire].
  destruct (Hfire run_one_pending 0
              {| cb_id := "id-1"; cb_method := "get_children";
                 cb_promise := 0; cb_delay := REQUEST_TIMEOUT_MS |}
              run_one_pending_reachable eq_refl)
    as (_ & Hgone & _ & Hrej & _).
  split; [exact Hrej | exact Hgone].
Defined.

(** C5, counterexample.  The request [get_children] of the sample run times
    out: the error mentions the method, and neither the 30000 milliseconds
    of the window nor its 30 seconds. *)
Lemma timeout_error_omits_window :
  promises (fireTimer 0 run_one_pending) !! 0
    = Some (Rejected (mkError "Request timeout: get_children")) ∧
  mentions "get_children" "Request timeout: get_children" = true ∧
  mentions (pretty REQUEST_TIMEOUT_MS) "Request timeout: get_children" = false ∧
  mentions (pretty (REQUEST_TIMEOUT_MS `div` 1000)%Z)
           "Request timeout: get_children" = false.
Proof. split_and!; reflexivity. Qed.

(** C6, as the code has it.  When a connection is opened while another is
    installed, the earlier socket is closed with code 1000 and the reason
    "New connection established" while the earlier connection is still
    installed; its [close] handler empties the slot, cancels the timer of
    every pending request and rejects it with "Connection lost"; then the new
    connection is installed and the welcome is sent on the new socket.
    Afterwards the slot holds the new connection only, with version
    "unknown" and the time of the opening; the table is empty and no timer
    is armed. *)
Theorem second_connection_replaces_first st c s now1 now2 :
  reachable st → connection st = Some c →
  let st' := websocket_open s now1 now2 st in
  st' =
    emit (WsSend s (Welcome "0.1.0" now2))
      (set_connection
         (Some {| ws := s; pluginVersion := JStr "unknown";
                  connectedAt := now1 |})
         (websocket_close (ws c)
            (emit (WsClose (ws c) 1000 "New connection established") st))) ∧
  trace st' =
    trace st ++ WsClose (ws c) 1000 "New connection established"
      :: rejections "Connection lost" (pendingRequests st)
      ++ [WsSend s (Welcome "0.1.0" now2)] ∧
  connection st' =
    Some {| ws := s; pluginVersion := JStr "unknown"; connectedAt := now1 |} ∧
  isConnected st' = true ∧
  getConnectionInfo st' =
    {| connected := true; info_pluginVersion := Some (JStr "unknown");
       info_connectedAt := Some now1 |} ∧
  pendingRequests st' = [] ∧
  timers st' = ∅ ∧
  (∀ k e, (k, e) ∈ pendingRequests st →
     promises st' !! promise e = Some (Rejected (mkError "Connection lost"))) ∧
  (∀ p x, promises st !! p = Some x → promises st' !! p = Some x) ∧
  eventHandlers st' = eventHandlers st.
Proof.
  intros Hinv%reachable_inv Hc. cbv zeta.
  destruct (websocket_open_fields s now1 now2 st Hinv)
    as (Hinv' & Ec & Eh & _ & _ & _ & _ & _ & Hkeep & Hcase).
  rewrite Hc in Hcase. destruct Hcase as (Etab & Etr & Hall).
  split_and!; try done.
  - unfold websocket_open. by rewrite Hc.
  - apply map_eq. intros t. rewrite lookup_empty.
    destruct (timers (websocket_open s now1 now2 st) !! t) as [cb|] eqn:Hcb;
      [|done].
    apply (inv_timer _ Hinv') in Hcb. rewrite Etab in Hcb.
    by apply elem_of_nil in Hcb.
  - intros k e Hin. by destruct (Hall k e Hin).
Qed.

Lemma second_connection_replaces_first_witness :
  connection (websocket_open 2 500 501 run_one_pending) =
    Some {| ws := 2; pluginVersion := JStr "unknown"; connectedAt := 500 |} ∧
  isConnected (websocket_open 2 500 501 run_one_pending) = true ∧
  pendingRequests (websocket_open 2 500 501 run_one_pending) = [] ∧
  promises (websocket_open 2 500 501 run_one_pending) !! 0
    = Some (Rejected (mkError "Connection lost")).
Proof.
  destruct (second_connection_replaces_first run_one_pending
              {| ws := 1; pluginVersion := JStr "unknown"; connectedAt := 100 |}
              2 500 501 run_one_pending_reachable eq_refl)
    as (_ & _ & Hc & Hi & _ & Etab & _ & Hall & _).
  split_and!; [exact Hc | exact Hi | exact Etab |].
  apply (Hall "id-1" {| promise := 0; timeout := 0 |}).
  apply list_elem_of_here.
Defined.

(** C6, counterexample.  In the sample run, a second connection closes the
    first socket with the reason "New connection established"; no socket is
    closed with the reason "superseded". *)
Lemma second_connection_reason_not_superseded :
  trace (websocket_open 2 500 501 run_connected) =
    [WsSend 1 (Welcome "0.1.0" 101);
     WsClose 1 1000 "New connection established";
     WsSend 2 (Welcome "0.1.0" 501)] ∧
  WsClose 1 1000 "superseded" ∉ trace (websocket_open 2 500 501 run_connected).
Proof.
  split; [reflexivity|]. simpl. intros H.
  repeat (apply elem_of_cons in H as [H|H]; [discriminate|]).
  by apply elem_of_nil in H.
Qed.

(** C7.  When a connection is installed and [ws.send] throws, the timer just
    started is cancelled, the entry just inserted is removed and the promise
    is rejected at once with the error that [send] threw: the table and the
    armed timers are as before the call, and the timeout of this request can
    no longer fire. *)
Theorem failed_send_restores_table st c mth ps uuid now e :
  reachable st → connection st = Some c → uuid ∉ issuedIds st →
  let r := sendRequest mth ps uuid now (Some e) st in
  pendingRequests r.2 = pendingRequests st ∧
  jmap_size (pendingRequests r.2) = jmap_size (pendingRequests st) ∧
  timers r.2 = timers st ∧
  timers r.2 !! nextTimer st = None ∧
  trace r.2 =
    trace st ++ [SetTimeout (nextTimer st) REQUEST_TIMEOUT_MS;
                 ClearTimeout (nextTimer st);
                 Reject r.1 e] ∧
  promises r.2 !! r.1 = Some (Rejected e) ∧
  fireTimer (nextTimer st) r.2 = r.2.
Proof.
  intros Hinv%reachable_inv Hc Hfresh.
  destruct (sendRequest_failed_fields mth ps uuid now e c st Hinv Hfresh Hc)
    as (E1 & _ & _ & _ & Etab & Etim & Epro & _ & _ & _ & Etr).
  cbv zeta. unfold fireTimer.
  rewrite E1, Etab, Etim, Epro, Etr, lookup_insert_eq.
  rewrite !(timer_unarmed_next st Hinv). done.
Qed.

Lemma failed_send_restores_table_witness :
  pendingRequests
    (sendRequest "get_tags" (JObj ∅) "id-3" 400
       (Some (mkError "socket closed")) run_two_pending).2
  = pendingRequests run_two_pending.
Proof.
  apply (failed_send_restores_table run_two_pending
           {| ws := 1; pluginVersion := JStr "unknown"; connectedAt := 100 |}
           "get_tags" (JObj ∅) "id-3" 400 (mkError "socket closed")
           run_two_pending_reachable eq_refl).
  simpl. intros H. apply elem_of_cons in H as [H|H]; [discriminate|].
  apply list_elem_of_singleton in H. discriminate.
Defined.

(** C8.  A handshake never creates or replaces the connection and is never
    answered.  Without a connection, or on another socket than the
    installed one, nothing changes at all.  On the installed connection's
    socket only the version of the connection can change: socket,
    establishment time, table, observers, timers, promises and trace stay
    as they are. *)
Theorem handshake_updates_only_version st s m :
  type m = "handshake" →
  let st' := websocket_message s (Some m) st in
  (connection st = None → st' = st) ∧
  (∀ c, connection st = Some c → ws c ≠ s → st' = st) ∧
  (∀ c, connection st = Some c → ws c = s →
     st' =
       set_connection
         (Some {| ws := ws c;
                  pluginVersion :=
                    match params m with
                    | Some ps =>
                        if truthy ps
                        then or_default (field "pluginVersion" ps)
                                        (JStr "unknown")
                        else pluginVersion c
                    | None => pluginVersion c
                    end;
                  connectedAt := connectedAt c |})
         st) ∧
  isConnected st' = isConnected st ∧
  ws <$> connection st' = ws <$> connection st ∧
  connectedAt <$> connection st' = connectedAt <$> connection st ∧
  pendingRequests st' = pendingRequests st ∧
  eventHandlers st' = eventHandlers st ∧
  timers st' = timers st ∧
  promises st' = promises st ∧
  trace st' = trace st.
Proof.
  intros Hty. simpl. unfold handleMessage. rewrite decide_True by done.
  destruct st as [conn tab hs run tms prs nT nP ids tr]. simpl.
  destruct conn as [[w v a]|]; simpl.
  - destruct (params m) as [ps|]; simpl.
    + destruct (decide (w = s)) as [->|Hne]; simpl.
      * destruct (truthy ps); simpl; split_and!; try done;
          intros c [= <-]; done.
      * split_and!; try done. intros c [= <-]. done.
    + split_and!; try done. intros c [= <-]. done.
  - destruct (params m); split_and!; done.
Qed.

Lemma handshake_updates_only_version_witness :
  connection (websocket_message 1 (Some sample_handshake) run_one_pending) =
    Some {| ws := 1; pluginVersion := JStr "1.2.3"; connectedAt := 100 |} ∧
  pendingRequests (websocket_message 1 (Some sample_handshake) run_one_pending)
    = pendingRequests run_one_pending.
Proof.
  destruct (handshake_updates_only_version run_one_pending 1 sample_handshake
              eq_refl) as (_ & _ & Hc & _ & _ & _ & Htab & _).
  split; [|exact Htab].
  rewrite (Hc {| ws := 1; pluginVersion := JStr "unknown"; connectedAt := 100 |}
              eq_refl eq_refl).
  reflexivity.
Defined.

End BridgeClaims.

(** ** Properties of the dispatch *)

Section ToolsClaims.
Import Bridge Tools.

(** C1.  A tool registered with [requiresPlugin = true], called while the
    bridge is disconnected: the reply is the error payload with code
    [CONNECTION_LOST], and the bridge is as before, so no handler ran, no id
    was generated, no timer was armed and the table kept its size.
    [handleToolCall], called on its own, refuses the call as well before
    reaching the handler. *)
Theorem plugin_tool_refused_when_disconnected
  (tools : Registry) env context name args toolDef :
  tools !! name = Some toolDef →
  requiresPlugin toolDef = true →
  isConnected (bridge context) = false →
  let r := callTool tools env context name args in
  r.2 = Done (ErrorReply "CONNECTION_LOST"
    "VFX Forge plugin is not connected. Please ensure the plugin is running in Roblox Studio.") ∧
  r.1 = bridge context ∧
  trace r.1 = trace (bridge context) ∧
  issuedIds r.1 = issuedIds (bridge context) ∧
  timers r.1 = timers (bridge context) ∧
  nextTimer r.1 = nextTimer (bridge context) ∧
  jmap_size (pendingRequests r.1) = jmap_size (pendingRequests (bridge context)) ∧
  handleToolCall tools env context name (default (JObj ∅) args) =
    (bridge context,
     Done (Thrown (mkError
       ("Tool " +:+ dquote +:+ name +:+ dquote
        +:+ " requires plugin connection. Plugin is not connected.")))).
Proof.
  intros Hdef Hreq Hdis. unfold callTool, isPluginTool, handleToolCall.
  rewrite Hdef, Hreq, Hdis. simpl. done.
Qed.

Lemma plugin_tool_refused_when_disconnected_witness :
  callTool sample_tools sample_env disconnected_context "get_children"
    (Some Bridge.get_children_args) =
  (createBridge,
   Done (ErrorReply "CONNECTION_LOST"
     "VFX Forge plugin is not connected. Please ensure the plugin is running in Roblox Studio.")).
Proof.
  destruct (plugin_tool_refused_when_disconnected sample_tools sample_env
              disconnected_context "get_children"
              (Some Bridge.get_children_args)
              {| tool := {| name := "get_children";
                            description :=
                              "Get immediate children of an instance.";
                            inputSchema := get_children_schema |};
                 handler := PluginHandler "get_children";
                 requiresPlugin := true |})
    as (Hreply & Hst & _).
  - vm_compute. reflexivity.
  - reflexivity.
  - reflexivity.
  - rewrite (surjective_pairing (callTool _ _ _ _ _)).
    by rewrite Hreply, Hst.
Defined.

(** C9.  A name that is not in the registry is not a plugin tool, so the
    disconnected check does not apply to it: connected or not, dispatch fails
    with "Unknown tool: " and the name, reported under [OPERATION_FAILED],
    and the bridge is as before, so no handler ran. *)
Theorem unknown_tool_rejected (tools : Registry) env context name args :
  tools !! name = None →
  isPluginTool tools name = false ∧
  handleToolCall tools env context name (default (JObj ∅) args) =
    (bridge context, Done (Thrown (mkError ("Unknown tool: " +:+ name)))) ∧
  callTool tools env context name args =
    (bridge context,
     Done (ErrorReply "OPERATION_FAILED" ("Unknown tool: " +:+ name))) ∧
  trace (callTool tools env context name args).1 = trace (bridge context).
Proof.
  intros Hnone. unfold callTool, isPluginTool, handleToolCall.
  rewrite Hnone. simpl. done.
Qed.

Lemma unknown_tool_rejected_witness :
  callTool sample_tools sample_env disconnected_context "no_such_tool" None =
    (createBridge,
     Done (ErrorReply "OPERATION_FAILED" "Unknown tool: no_such_tool")) ∧
  callTool sample_tools sample_env connected_context "no_such_tool" None =
    (run_connected,
     Done (ErrorReply "OPERATION_FAILED" "Unknown tool: no_such_tool")).
Proof.
  split.
  - apply (unknown_tool_rejected sample_tools sample_env disconnected_context
             "no_such_tool" None).
    vm_compute. reflexivity.
  - apply (unknown_tool_rejected sample_tools sample_env connected_context
             "no_such_tool" None).
    vm_compute. reflexivity.
Defined.

End ToolsClaims.

(** ** Termination of the documentation lookups *)

Section DocsClaims.
Import Docs.

Lemma groundedb_sound n cache className :
  groundedb n cache className = true → Grounded cache className.
Proof.
  revert className. induction n as [|n IH]; intros className; simpl;
    destruct (findClass cache className) as [classData|] eqn:Hf;
    try (intros _; by apply Grounded_absent).
  - rewrite orb_false_r. intros Hroot%String.eqb_eq.
    by eapply Grounded_root.
  - intros [Hroot%String.eqb_eq|Hrec]%orb_true_iff.
    + by eapply Grounded_root.
    + eapply Grounded_step; [done | by apply IH].
Qed.

Lemma findClass_Some cache className classData :
  findClass cache className = Some classData →
  In classData (Classes (apiDump cache)) ∧ c_Name classData = className.
Proof.
  unfold findClass. intros [Hin Heq]%List.find_some.
  split; [done | by apply String.eqb_eq].
Qed.

Lemma acyclicb_sound cache : acyclicb cache = true → Acyclic cache.
Proof.
  unfold acyclicb. rewrite forallb_forall. intros Hall className.
  destruct (findClass cache className) as [classData|] eqn:Hf;
    [|by apply Grounded_absent].
  destruct (findClass_Some _ _ _ Hf) as [Hin <-].
  eapply groundedb_sound, Hall, Hin.
Qed.

Lemma hasParent_root classData :
  Superclass classData = ROOT → hasParent classData = false.
Proof. unfold hasParent. intros ->. done. Qed.

(** The three member lookups have the same shape: look in the class, else
    in its superclass. *)
Ltac member_lookup_terminates kind memberName :=
  let enough_fuel n :=
    (eexists _, n; intros [|?] ?; [lia|]; simpl) in
  induction 1 as [cls Hf | cls c Hf Hroot | cls c Hf _ (r & f & Hr)];
  [ enough_fuel 1; by rewrite Hf
  | apply hasParent_root in Hroot;
    destruct (findMember kind memberName c) eqn:Hm;
    enough_fuel 1; by rewrite Hf, Hm, ?Hroot
  | destruct (findMember kind memberName c) eqn:Hm;
    [ enough_fuel 1; by rewrite Hf, Hm
    | destruct (hasParent c) eqn:Hp;
      [ enough_fuel (S f); rewrite Hf, Hm, Hp; apply Hr; lia
      | enough_fuel 1; by rewrite Hf, Hm, Hp ] ] ].

Lemma getPropertyDocs_terminates cache className propertyName :
  Grounded cache className →
  terminates (λ fuel, getPropertyDocs fuel cache className propertyName).
Proof. member_lookup_terminates Property propertyName. Qed.

Lemma getMethodDocs_terminates cache className methodName :
  Grounded cache className →
  terminates (λ fuel, getMethodDocs fuel cache className methodName).
Proof. member_lookup_terminates Function methodName. Qed.

Lemma getEventDocs_terminates cache className eventName :
  Grounded cache className →
  terminates (λ fuel, getEventDocs fuel cache className eventName).
Proof. member_lookup_terminates Event eventName. Qed.

Lemma getClassDocs_terminates cache className includeInherited :
  Grounded cache className →
  terminates (λ fuel, getClassDocs fuel cache className includeInherited).
Proof.
  intros H. revert includeInherited.
  induction H as [cls Hf | cls c Hf Hroot | cls c Hf _ IH];
    intros includeInherited.
  - exists None, 1. intros [|k] Hk; [lia|]. simpl. by rewrite Hf.
  - apply hasParent_root in Hroot.
    eexists _, 1. intros [|k] Hk; [lia|]. simpl.
    by rewrite Hf, Hroot, andb_false_r.
  - destruct (includeInherited && hasParent c) eqn:Hp.
    + destruct (IH true) as ([parentDocs|] & f & Hr).
      * eexists _, (S f). intros [|k] Hk; [lia|]. simpl.
        rewrite Hf, Hp, Hr by lia. done.
      * eexists _, (S f). intros [|k] Hk; [lia|]. simpl.
        rewrite Hf, Hp, Hr by lia. done.
    + eexists _, 1. intros [|k] Hk; [lia|]. simpl. by rewrite Hf, Hp.
Qed.

Lemma cyclic_getPropertyDocs className propertyName :
  className = "A" ∨ className = "B" →
  diverges (λ fuel, getPropertyDocs fuel cyclic_cache className propertyName).
Proof.
  intros Hc fuel. revert className Hc.
  induction fuel as [|fuel IH]; intros className [-> | ->]; simpl; try done;
    apply IH; auto.
Qed.

Lemma cyclic_getMethodDocs className methodName :
  className = "A" ∨ className = "B" →
  diverges (λ fuel, getMethodDocs fuel cyclic_cache className methodName).
Proof.
  intros Hc fuel. revert className Hc.
  induction fuel as [|fuel IH]; intros className [-> | ->]; simpl; try done;
    apply IH; auto.
Qed.

Lemma cyclic_getEventDocs className eventName :
  className = "A" ∨ className = "B" →
  diverges (λ fuel, getEventDocs fuel cyclic_cache className eventName).
Proof.
  intros Hc fuel. revert className Hc.
  induction fuel as [|fuel IH]; intros className [-> | ->]; simpl; try done;
    apply IH; auto.
Qed.

Lemma cyclic_getClassDocs className :
  className = "A" ∨ className = "B" →
  diverges (λ fuel, getClassDocs fuel cyclic_cache className true).
Proof.
  intros Hc fuel. revert className Hc.
  induction fuel as [|fuel IH]; intros className [-> | ->]; simpl; try done.
  - rewrite (IH "B") by auto. done.
  - rewrite (IH "A") by auto. done.
Qed.

Lemma diverges_not_terminates {A} (run : nat → option A) :
  diverges run → ¬ terminates run.
Proof.
  intros Hd (r & f & Hr). specialize (Hr f (le_n f)).
  rewrite Hd in Hr. discriminate.
Qed.

(** When no class has an empty [Superclass], a class lookup with inherited
    members that returns has followed a grounded chain. *)
Lemma getClassDocs_returns_grounded cache :
  (∀ c, In c (Classes (apiDump cache)) → Superclass c ≠ EmptyString) →
  ∀ fuel className r,
    getClassDocs fuel cache className true = Some r → Grounded cache className.
Proof.
  intros Hne. induction fuel as [|fuel IH]; intros className r; simpl; [done|].
  destruct (findClass cache className) as [c|] eqn:Hf;
    [|intros _; by apply Grounded_absent].
  destruct (hasParent c) eqn:Hp.
  - destruct (getClassDocs fuel cache (Superclass c) true) as [r'|] eqn:Hr;
      [|done].
    intros _. eapply Grounded_step; [done|]. by eapply IH.
  - intros _. unfold hasParent in Hp.
    apply andb_false_iff in Hp as [Hp|Hp];
      apply negb_false_iff, String.eqb_eq in Hp.
    + destruct (findClass_Some _ _ _ Hf) as [Hin _]. by destruct (Hne c Hin).
    + by eapply Grounded_root.
Qed.

(** C10.  In a dump where following [Superclass] from every class name
    reaches the root sentinel or a name without a class, the lookups of a
    property, a method, an event and a class with its inherited members all
    return.  Nothing bounds the recursion: in the dump where [A] and [B] name
    each other as superclass, which is not acyclic, none of the four
    returns; and in a dump whose classes all have a non-empty [Superclass],
    the class lookup with inherited members returns for every name only if
    the dump is acyclic. *)
Theorem inherited_lookups_terminate_when_acyclic :
  (∀ cache, Acyclic cache → ∀ className memberName,
     terminates (λ fuel, getPropertyDocs fuel cache className memberName) ∧
     terminates (λ fuel, getMethodDocs fuel cache className memberName) ∧
     terminates (λ fuel, getEventDocs fuel cache className memberName) ∧
     terminates (λ fuel, getClassDocs fuel cache className true)) ∧
  (¬ Acyclic cyclic_cache ∧
   ∀ memberName,
     diverges (λ fuel, getPropertyDocs fuel cyclic_cache "A" memberName) ∧
     diverges (λ fuel, getMethodDocs fuel cyclic_cache "A" memberName) ∧
     diverges (λ fuel, getEventDocs fuel cyclic_cache "A" memberName) ∧
     diverges (λ fuel, getClassDocs fuel cyclic_cache "A" true)) ∧
  (∀ cache,
     (∀ c, In c (Classes (apiDump cache)) → Superclass c ≠ EmptyString) →
     (∀ className,
        terminates (λ fuel, getClassDocs fuel cache className true)) →
     Acyclic cache).
Proof.
  split_and!.
  - intros cache Hac className memberName. specialize (Hac className).
    split_and!.
    + by apply getPropertyDocs_terminates.
    + by apply getMethodDocs_terminates.
    + by apply getEventDocs_terminates.
    + by apply getClassDocs_terminates.
  - intros Hac.
    eapply (diverges_not_terminates
              (λ fuel, getClassDocs fuel cyclic_cache "A" true)).
    + apply cyclic_getClassDocs. by left.
    + apply getClassDocs_terminates, Hac.
  - intros memberName. split_and!.
    + apply cyclic_getPropertyDocs. by left.
    + apply cyclic_getMethodDocs. by left.
    + apply cyclic_getEventDocs. by left.
    + apply cyclic_getClassDocs. by left.
  - intros cache Hne Hterm className.
    destruct (Hterm className) as (r & fuel & Hr).
    eapply (getClassDocs_returns_grounded cache Hne fuel), Hr. done.
Qed.

Lemma inherited_lookups_terminate_when_acyclic_witness :
  Acyclic sample_cache ∧
  terminates (λ fuel, getPropertyDocs fuel sample_cache "Part" "Name") ∧
  terminates (λ fuel, getClassDocs fuel sample_cache "Part" true).
Proof.
  assert (Acyclic sample_cache) as Hac
    by (apply acyclicb_sound; vm_compute; reflexivity).
  split; [exact Hac|].
  destruct inherited_lookups_terminate_when_acyclic as (Hterm & _ & _).
  destruct (Hterm sample_cache Hac "Part" "Name") as (Hp & _ & _ & Hc).
  split; [exact Hp | exact Hc].
Defined.

End DocsClaims.

(** ** The embedding at work *)

Section Examples.
Import Bridge Tools Docs.

Example run_two_pending_table :
  pendingRequests run_two_pending =
    [("id-1", {| promise := 0; timeout := 0 |});
     ("id-2", {| promise := 1; timeout := 1 |})].
Proof. reflexivity. Qed.

Example run_one_pending_trace :
  trace run_one_pending =
    [WsSend 1 (Welcome "0.1.0" 101);
     SetTimeout 0 30000;
     WsSend 1 (Request {| id := "id-1"; type := "request"; timestamp := 200;
                          method := Some "get_children";
                          params := Some get_children_args;
                          result := None; error := None |})].
Proof. reflexivity. Qed.

Example request_without_connection :
  let r := sendRequest "get_children" get_children_args "id-1" 200 None
             createBridge in
  promises r.2 !! r.1 = Some (Rejected (mkError "Plugin not connected")) ∧
  pendingRequests r.2 = [] ∧ issuedIds r.2 = [] ∧ nextTimer r.2 = 0.
Proof. split_and!; reflexivity. Qed.

Example handshake_without_version :
  connection
    (websocket_message 1
       (Some {| id := "hello"; type := "handshake"; timestamp := 110;
                method := None;
                params := Some (JObj {[ "pluginVersion" := JStr EmptyString ]});
                result := None; error := None |})
       run_connected) =
  Some {| ws := 1; pluginVersion := JStr "unknown"; connectedAt := 100 |}.
Proof. reflexivity. Qed.

Example event_reaches_observers :
  trace (websocket_message 1
           (Some {| id := "e1"; type := "event"; timestamp := 120;
                    method := Some "selection_changed";
                    params := Some (JObj ∅); result := None; error := None |})
           (onEvent 8 (onEvent 7 createBridge))) =
  [Notify 7 {| id := "e1"; type := "event"; timestamp := 120;
               method := Some "selection_changed";
               params := Some (JObj ∅); result := None; error := None |};
   Notify 8 {| id := "e1"; type := "event"; timestamp := 120;
               method := Some "selection_changed";
               params := Some (JObj ∅); result := None; error := None |}].
Proof. reflexivity. Qed.

Example stale_close_keeps_requests :
  websocket_close 9 run_two_pending = run_two_pending.
Proof. reflexivity. Qed.

Example replacement_ends_pending_request :
  let st := websocket_open 2 500 501 run_one_pending in
  trace st =
    trace run_one_pending ++
      [WsClose 1 1000 "New connection established";
       ClearTimeout 0; Reject 0 (mkError "Connection lost");
       WsSend 2 (Welcome "0.1.0" 501)] ∧
  pendingRequests st = [] ∧ timers st = ∅ ∧
  (ws <$> connection st) = Some 2.
Proof. split_and!; reflexivity. Qed.

Example remote_call_when_connected :
  let r := callTool sample_tools sample_env connected_context "get_children"
             (Some get_children_args) in
  pendingRequests r.1 = [("id-1", {| promise := 0; timeout := 0 |})] ∧
  trace r.1 =
    [WsSend 1 (Welcome "0.1.0" 101);
     ToolHandler "get_children" get_children_args;
     SetTimeout 0 30000;
     WsSend 1 (Request {| id := "id-1"; type := "request"; timestamp := 200;
                          method := Some "get_children";
                          params := Some get_children_args;
                          result := None; error := None |})].
Proof. split; vm_compute; reflexivity. Qed.

Example local_call_when_disconnected :
  callTool sample_tools sample_env disconnected_context
    "get_connection_status" None =
  (emit (ToolHandler "get_connection_status" (JObj ∅)) createBridge,
   Done (Content (Some (JObj {[ "connected" := JBool false;
                                "uptime_ms" := JNum 0 ]})))).
Proof. vm_compute. reflexivity. Qed.

Example inherited_property_found :
  getPropertyDocs 3 sample_cache "Part" "Name" =
    Some (Some (propertyDoc None (sampleProperty "Name" "string"))) ∧
  getPropertyDocs 2 sample_cache "Part" "Name" = None ∧
  getPropertyDocs 3 sample_cache "Part" "Missing" = Some None.
Proof. split_and!; reflexivity. Qed.

Example class_with_inherited_members :
  (λ k, (p_name <$> k_properties k, p_tags <$> k_properties k)) <$>
    default None (getClassDocs 3 sample_cache "Part" true) =
  Some (["Shape"; "Anchored"; "Name"],
        [None; Some ["Inherited"]; Some ["Inherited"; "Inherited"]]).
Proof. reflexivity. Qed.

End Examples.

(** ** Further properties of the bridge *)

Section BridgeRequests.
Import Bridge.

(** X1.  [sendRequest] without a connection rejects its promise at once with
    "Plugin not connected": no id is drawn, no timer is armed, nothing is
    sent and the table is untouched; this is the first and only settlement
    of the promise. *)
Theorem request_without_connection_rejected st mth ps uuid now sendError :
  reachable st → connection st = None →
  let r := sendRequest mth ps uuid now sendError st in
  promises r.2 !! r.1 = Some (Rejected (mkError "Plugin not connected")) ∧
  trace r.2 = trace st ++ [Reject r.1 (mkError "Plugin not connected")] ∧
  settle_count r.1 (trace r.2) = 1 ∧
  pendingRequests r.2 = pendingRequests st ∧
  timers r.2 = timers st ∧
  nextTimer r.2 = nextTimer st ∧
  issuedIds r.2 = issuedIds st ∧
  connection r.2 = connection st.
Proof.
  intros Hinv%reachable_inv Hc. cbv zeta.
  destruct (sendRequest_disconnected_fields mth ps uuid now sendError st
              Hinv Hc)
    as (-> & -> & _ & _ & -> & -> & -> & -> & _ & -> & ->).
  rewrite lookup_insert_eq, settle_count_app, settle_count_reject.
  rewrite decide_True by done.
  rewrite (inv_unsettled _ Hinv) by (by apply nextPromise_unsettled). done.
Qed.

Lemma request_without_connection_rejected_witness :
  let r := sendRequest "get_children" get_children_args "id-1" 200 None
             createBridge in
  promises r.2 !! r.1 = Some (Rejected (mkError "Plugin not connected")) ∧
  pendingRequests r.2 = [].
Proof.
  destruct (request_without_connection_rejected createBridge "get_children"
              get_children_args "id-1" 200 None reachable_init eq_refl)
    as (Hp & _ & _ & Ht & _).
  split; [exact Hp | exact Ht].
Defined.

(** X2.  [sendRequest] on a connection whose [send] succeeds adds exactly one
    entry, under the new id, and leaves every other key as it was; it arms
    one timer, sends one request frame on the socket of the installed
    connection, carrying the id, the method, the parameters and the time,
    and hands back a promise that is not settled. *)
Theorem request_sent_is_recorded st c mth ps uuid now :
  reachable st → connection st = Some c → uuid ∉ issuedIds st →
  let r := sendRequest mth ps uuid now None st in
  jmap_size (pendingRequests r.2) = S (jmap_size (pendingRequests st)) ∧
  jmap_get uuid (pendingRequests st) = None ∧
  jmap_get uuid (pendingRequests r.2)
    = Some {| promise := r.1; timeout := nextTimer st |} ∧
  (∀ k, k ≠ uuid →
     jmap_get k (pendingRequests r.2) = jmap_get k (pendingRequests st)) ∧
  promises r.2 !! r.1 = None ∧
  settle_count r.1 (trace r.2) = 0 ∧
  trace r.2 =
    trace st ++
      [SetTimeout (nextTimer st) REQUEST_TIMEOUT_MS;
       WsSend (ws c)
         (Request {| id := uuid; type := "request"; timestamp := now;
                     method := Some mth; params := Some ps;
                     result := None; error := None |})] ∧
  connection r.2 = Some c.
Proof.
  intros Hreach Hc Hfresh. pose proof (reachable_inv _ Hreach) as Hinv.
  assert (inv (sendRequest mth ps uuid now None st).2) as Hinv'
    by (by apply inv_sendRequest).
  assert (uuid ∉ (pendingRequests st).*1) as Hnk
    by (intros ?; by eapply Hfresh, inv_issued).
  cbv zeta.
  destruct (sendRequest_sent_fields mth ps uuid now c st Hinv Hfresh Hc)
    as (E1 & Ec & _ & _ & Etab & _ & Epro & _ & _ & _ & Etr).
  assert (promises (sendRequest mth ps uuid now None st).2
            !! (sendRequest mth ps uuid now None st).1 = None) as Hnone
    by (rewrite E1, Epro; by apply nextPromise_unsettled).
  split_and!; try done.
  - rewrite Etab. unfold jmap_size. rewrite length_app. simpl. lia.
  - by apply jmap_get_None.
  - rewrite E1. apply jmap_elem_get; [apply (inv_keys _ Hinv')|].
    rewrite Etab. apply elem_of_app. right. apply list_elem_of_here.
  - intros k Hk. rewrite Etab. by apply jmap_get_app_fresh.
  - by apply (inv_unsettled _ Hinv').
Qed.

Lemma request_sent_is_recorded_witness :
  jmap_size (pendingRequests run_two_pending)
    = S (jmap_size (pendingRequests run_one_pending)) ∧
  jmap_get "id-1" (pendingRequests run_two_pending)
    = jmap_get "id-1" (pendingRequests run_one_pending).
Proof.
  assert ("id-2" ∉ issuedIds run_one_pending) as Hfresh.
  { simpl. intros H. apply list_elem_of_singleton in H. discriminate. }
  destruct (request_sent_is_recorded run_one_pending
              {| ws := 1; pluginVersion := JStr "unknown"; connectedAt := 100 |}
              "get_selection" (JObj ∅) "id-2" 300
              run_one_pending_reachable eq_refl Hfresh)
    as (Hsize & _ & _ & Hother & _).
  split; [exact Hsize|]. apply Hother. discriminate.
Defined.

(** X3.  A request followed by its response: the table and the armed timers
    are again those before the request, the promise of the request is
    resolved with the response, and no other promise changes. *)
Theorem request_then_response_round_trip st c mth ps uuid now s m :
  reachable st → connection st = Some c → uuid ∉ issuedIds st →
  type m = "response" → id m = uuid →
  let r := sendRequest mth ps uuid now None st in
  let st' := websocket_message s (Some m) r.2 in
  pendingRequests st' = pendingRequests st ∧
  timers st' = timers st ∧
  promises st' !! r.1 = Some (Resolved m) ∧
  (∀ p, p ≠ r.1 → promises st' !! p = promises st !! p).
Proof.
  intros Hreach Hc Hfresh Hty Hid.
  pose proof (reachable_inv _ Hreach) as Hinv.
  assert (inv (sendRequest mth ps uuid now None st).2) as Hinv'
    by (by apply inv_sendRequest).
  assert (uuid ∉ (pendingRequests st).*1) as Hnk
    by (intros ?; by eapply Hfresh, inv_issued).
  cbv zeta.
  destruct (sendRequest_sent_fields mth ps uuid now c st Hinv Hfresh Hc)
    as (E1 & _ & _ & _ & Etab & Etim & Epro & _).
  assert (jmap_get (id m) (pendingRequests (sendRequest mth ps uuid now None st).2)
          = Some {| promise := nextPromise st; timeout := nextTimer st |})
    as Hget.
  { rewrite Hid. apply jmap_elem_get; [apply (inv_keys _ Hinv')|].
    rewrite Etab. apply elem_of_app. right. apply list_elem_of_here. }
  unfold websocket_message, handleMessage.
  rewrite decide_False by (rewrite Hty; discriminate).
  rewrite decide_True by done. rewrite Hget.
  destruct (response_fields m _ _ Hinv' Hget)
    as (_ & _ & _ & -> & -> & -> & _).
  rewrite E1, Etab, Etim, Epro, Hid. simpl. split_and!.
  - rewrite jmap_delete_app, jmap_delete_fresh by done. simpl.
    rewrite decide_True by done. apply app_nil_r.
  - rewrite delete_insert_eq. apply delete_id. by apply timer_unarmed_next.
  - apply lookup_insert_eq.
  - intros p Hp. by rewrite lookup_insert_ne.
Qed.

Lemma request_then_response_round_trip_witness :
  pendingRequests (websocket_message 1 (Some sample_response) run_one_pending)
    = pendingRequests run_connected.
Proof.
  apply (request_then_response_round_trip run_connected
           {| ws := 1; pluginVersion := JStr "unknown"; connectedAt := 100 |}
           "get_children" get_children_args "id-1" 200 1 sample_response
           run_connected_reachable eq_refl).
  - simpl. apply not_elem_of_nil.
  - reflexivity.
  - reflexivity.
Defined.

Lemma handleMessage_response m s st :
  type m = "response" →
  handleMessage m s st =
  match jmap_get (id m) (pendingRequests st) with
  | Some pending =>
      resolve (promise pending) m
        (pendingDelete (id m) (clearTimeout (timeout pending) st))
  | None => st
  end.
Proof.
  intros Hty. unfold handleMessage.
  rewrite decide_False by (rewrite Hty; discriminate).
  by rewrite decide_True.
Qed.

(** X4.  Handling a response twice is handling it once: the duplicate finds
    no entry and changes nothing, whatever the state and the sockets. *)
Theorem duplicate_response_is_dropped st s s' m :
  type m = "response" →
  websocket_message s' (Some m) (websocket_message s (Some m) st)
  = websocket_message s (Some m) st.
Proof.
  intros Hty. unfold websocket_message.
  rewrite (handleMessage_response m s st Hty).
  destruct (jmap_get (id m) (pendingRequests st)) as [pending|] eqn:Hget;
    rewrite handleMessage_response by done.
  - assert (pendingRequests
              (resolve (promise pending) m
                 (pendingDelete (id m) (clearTimeout (timeout pending) st)))
            = jmap_delete (id m) (pendingRequests st)) as ->.
    { unfold resolve, settle. simpl.
      by destruct (promises st !! promise pending). }
    by rewrite jmap_delete_get_eq.
  - by rewrite Hget.
Qed.

Lemma duplicate_response_is_dropped_witness :
  websocket_message 2 (Some sample_response)
    (websocket_message 1 (Some sample_response) run_two_pending)
  = websocket_message 1 (Some sample_response) run_two_pending.
Proof. apply duplicate_response_is_dropped. reflexivity. Defined.

(** X5.  A response that arrives after the timeout of its request changes
    nothing: the promise stays rejected with the timeout error. *)
Theorem late_response_after_timeout st t cb s m :
  reachable st → timers st !! t = Some cb →
  type m = "response" → id m = cb_id cb →
  let st' := websocket_message s (Some m) (fireTimer t st) in
  st' = fireTimer t st ∧
  promises st' !! cb_promise cb
    = Some (Rejected (mkError ("Request timeout: " +:+ cb_method cb))).
Proof.
  intros Hinv%reachable_inv Hcb Hty Hid. cbv zeta.
  destruct (fireTimer_fields t cb st Hinv Hcb)
    as (_ & _ & _ & Etab & _ & Epro & _).
  assert (websocket_message s (Some m) (fireTimer t st) = fireTimer t st)
    as ->.
  { unfold websocket_message, handleMessage.
    rewrite decide_False by (rewrite Hty; discriminate).
    rewrite decide_True by done.
    by rewrite Etab, Hid, jmap_delete_get_eq. }
  split; [done|]. rewrite Epro. apply lookup_insert_eq.
Qed.

Lemma late_response_after_timeout_witness :
  websocket_message 1 (Some sample_response) (fireTimer 0 run_one_pending)
  = fireTimer 0 run_one_pending.
Proof.
  apply (late_response_after_timeout run_one_pending 0
           {| cb_id := "id-1"; cb_method := "get_children"; cb_promise := 0;
              cb_delay := REQUEST_TIMEOUT_MS |} 1 sample_response
           run_one_pending_reachable eq_refl eq_refl eq_refl).
Defined.

End BridgeRequests.

Section BridgeObservers.
Import Bridge.

(** X6.  An event is handed to every registered observer, once each and in
    the order of registration, on whatever socket it arrives; the
    connection, the table, the observers, the timers and the promises are
    untouched, and nothing is settled. *)
Theorem event_notifies_every_observer st s m :
  type m = "event" →
  let st' := websocket_message s (Some m) st in
  trace st' = trace st ++ ((λ h, Notify h m) <$> eventHandlers st) ∧
  (∀ p, settle_count p (trace st') = settle_count p (trace st)) ∧
  connection st' = connection st ∧
  pendingRequests st' = pendingRequests st ∧
  eventHandlers st' = eventHandlers st ∧
  timers st' = timers st ∧
  promises st' = promises st.
Proof.
  intros Hty. simpl. unfold handleMessage, notifyAll.
  rewrite !decide_False by (rewrite Hty; discriminate).
  rewrite decide_True by done.
  destruct (notifyLoop_fields m (eventHandlers st) st)
    as (-> & -> & -> & _ & -> & -> & _ & _ & _ & ->).
  split_and!; try done.
  intros p. rewrite settle_count_app, settle_count_notify. lia.
Qed.

Lemma event_notifies_every_observer_witness :
  trace (websocket_message 1 (Some Samples.sample_event) Samples.run_observed)
  = trace run_one_pending ++
    [Notify 7 Samples.sample_event; Notify 8 Samples.sample_event].
Proof.
  apply (event_notifies_every_observer Samples.run_observed 1
           Samples.sample_event eq_refl).
Defined.

(** X7.  No reaction of the bridge removes or reorders an observer: the
    observers before a reaction are a prefix of those after it, and only
    [onEvent] adds one. *)
Theorem observers_are_never_removed st r :
  reachable st → admissible r st →
  eventHandlers (react r st) =
    eventHandlers st ++
      match r with
      | Subscribed h => [h]
      | _ => []
      end.
Proof.
  intros Hinv%reachable_inv Hadm.
  destruct r; cbn [react]; rewrite ?app_nil_r.
  - by destruct (websocket_open_fields s now1 now2 st Hinv) as (_ & _ & -> & _).
  - destruct parsed as [m|]; [|done]. unfold websocket_message, handleMessage.
    destruct (decide (type m = "handshake")).
    { destruct (connection st) as [c|], (params m) as [ps|]; try done.
      destruct (decide (ws c = s)); [|done]. by destruct (truthy ps). }
    destruct (decide (type m = "response")).
    { destruct (jmap_get (id m) (pendingRequests st)) as [pending|] eqn:Hg;
        [|done].
      by destruct (response_fields m st pending Hinv Hg) as (_ & -> & _). }
    destruct (decide (type m = "event")); [|done].
    unfold notifyAll.
    by destruct (notifyLoop_fields m (eventHandlers st) st) as (_ & _ & -> & _).
  - unfold websocket_close. destruct (connection st) as [c|]; [|done].
    destruct (decide (ws c = s)); [|done].
    by destruct (rejectAll_spec "Connection lost" (set_connection None st)
                   (inv_set_connection None st Hinv)) as (_ & _ & _ & -> & _).
  - simpl in Hadm. destruct (connection st) as [c|] eqn:Hc.
    + destruct sendError as [e|].
      * by destruct (sendRequest_failed_fields mth ps uuid now e c st
                       Hinv Hadm Hc) as (_ & _ & -> & _).
      * by destruct (sendRequest_sent_fields mth ps uuid now c st
                       Hinv Hadm Hc) as (_ & _ & -> & _).
    + by destruct (sendRequest_disconnected_fields mth ps uuid now sendError
                     st Hinv Hc) as (_ & _ & -> & _).
  - destruct (timers st !! t) as [cb|] eqn:Hcb.
    + by destruct (fireTimer_fields t cb st Hinv Hcb) as (_ & -> & _).
    + unfold fireTimer. by rewrite Hcb.
  - by destruct (shutdown_fields st Hinv) as (_ & _ & -> & _).
  - done.
  - done.
Qed.

Lemma observers_are_never_removed_witness :
  eventHandlers (react ShutDown (onEvent 7 run_two_pending)) = [7].
Proof.
  apply (observers_are_never_removed (onEvent 7 run_two_pending) ShutDown).
  - apply (reachable_step run_two_pending (Subscribed 7)
             run_two_pending_reachable I).
  - exact I.
Defined.

End BridgeObservers.

Section BridgeSockets.
Import Bridge.

(** X8.  A close event on a socket that is not the installed one changes
    nothing.  In particular, once a new connection has replaced an old one,
    a close event that still arrives for the old socket does nothing: the
    new connection stays installed. *)
Theorem close_of_other_socket_ignored st s :
  ((∀ c, connection st = Some c → ws c ≠ s) → websocket_close s st = st) ∧
  (∀ c now1 now2,
     connection st = Some c → ws c ≠ s →
     let st' := websocket_close (ws c) (websocket_open s now1 now2 st) in
     st' = websocket_open s now1 now2 st ∧
     (ws <$> connection st') = Some s).
Proof.
  split.
  - intros Hother. unfold websocket_close.
    destruct (connection st) as [c|]; [|done].
    by rewrite decide_False by (by apply Hother).
  - intros c now1 now2 Hc Hne. cbv zeta.
    assert (connection (websocket_open s now1 now2 st) =
              Some {| ws := s; pluginVersion := JStr "unknown";
                      connectedAt := now1 |}) as Ec by done.
    unfold websocket_close at 1 2. rewrite Ec. simpl.
    by rewrite decide_False by done.
Qed.

Lemma close_of_other_socket_ignored_witness :
  websocket_close 1 (websocket_open 2 500 501 run_two_pending)
  = websocket_open 2 500 501 run_two_pending.
Proof.
  destruct (close_of_other_socket_ignored run_two_pending 2) as [_ H].
  destruct (H {| ws := 1; pluginVersion := JStr "unknown"; connectedAt := 100 |}
              500%Z 501%Z eq_refl) as (Heq & _).
  - discriminate.
  - exact Heq.
Defined.

(** X9.  Replacing the connection ends the requests sent on the old one: a
    response that arrives afterwards for a request that was pending at the
    replacement, on the old socket or any other, finds no entry and is
    dropped; the promise of the request stays rejected with "Connection
    lost". *)
Theorem response_after_replacement_is_dropped
  st c s s' now1 now2 m pending :
  reachable st → connection st = Some c →
  type m = "response" →
  jmap_get (id m) (pendingRequests st) = Some pending →
  let st1 := websocket_open s now1 now2 st in
  let st' := websocket_message s' (Some m) st1 in
  st' = st1 ∧
  promises st' !! promise pending
    = Some (Rejected (mkError "Connection lost")) ∧
  timers st' !! timeout pending = None ∧
  jmap_get (id m) (pendingRequests st') = None ∧
  (ws <$> connection st') = Some s.
Proof.
  intros Hinv%reachable_inv Hc Hty Hget. cbv zeta.
  destruct (websocket_open_fields s now1 now2 st Hinv)
    as (_ & Ec & _ & _ & _ & _ & _ & _ & _ & Hcase).
  rewrite Hc in Hcase. destruct Hcase as (Etab & _ & Hall).
  assert (websocket_message s' (Some m) (websocket_open s now1 now2 st)
          = websocket_open s now1 now2 st) as ->.
  { unfold websocket_message. rewrite handleMessage_response by done.
    by rewrite Etab. }
  destruct (Hall (id m) pending (jmap_get_Some_elem _ _ _ Hget)) as [Ht Hp].
  rewrite Etab, Ec. done.
Qed.

Lemma response_after_replacement_is_dropped_witness :
  promises (websocket_message 1 (Some sample_response)
              (websocket_open 2 500 501 run_two_pending)) !! 0
  = Some (Rejected (mkError "Connection lost")).
Proof.
  apply (response_after_replacement_is_dropped run_two_pending
           {| ws := 1; pluginVersion := JStr "unknown"; connectedAt := 100 |}
           2 1 500 501 sample_response {| promise := 0; timeout := 0 |}
           run_two_pending_reachable eq_refl eq_refl eq_refl).
Defined.

End BridgeSockets.

Section BridgeTracking.
Import Bridge.

Lemma tracked_after_rejectAll why st p :
  inv st →
  (∀ p, p < nextPromise st → promises st !! p = None →
        ∃ k e, (k, e) ∈ pendingRequests st ∧ promise e = p) →
  p < nextPromise (rejectAll why st) →
  is_Some (promises (rejectAll why st) !! p).
Proof.
  intros Hinv Htr.
  destruct (rejectAll_spec why st Hinv)
    as (_ & _ & _ & _ & _ & _ & -> & _ & _ & _ & Hkeep & Hall).
  intros Hlt. destruct (promises st !! p) as [x|] eqn:Hp.
  - exists x. by apply Hkeep.
  - destruct (Htr p Hlt Hp) as (k & e & Hin & <-).
    destruct (Hall k e Hin) as [_ ->]. eauto.
Qed.

(** The promises handed out and not yet settled are those of the entries of
    the table; every reaction keeps it so. *)
Lemma react_keeps_tracked r st :
  inv st → admissible r st →
  (∀ p, p < nextPromise st → promises st !! p = None →
        ∃ k e, (k, e) ∈ pendingRequests st ∧ promise e = p) →
  ∀ p, p < nextPromise (react r st) → promises (react r st) !! p = None →
       ∃ k e, (k, e) ∈ pendingRequests (react r st) ∧ promise e = p.
Proof.
  intros Hinv Hadm Htr.
  assert (∀ st' k e s,
    (k, e) ∈ pendingRequests st →
    pendingRequests st' = jmap_delete k (pendingRequests st) →
    promises st' = <[promise e := s]> (promises st) →
    nextPromise st' = nextPromise st →
    ∀ p, p < nextPromise st' → promises st' !! p = None →
         ∃ k e, (k, e) ∈ pendingRequests st' ∧ promise e = p) as Hfinish.
  { intros st' k e s Hin Etab Epro EnP p. rewrite Etab, Epro, EnP.
    intros Hlt [Hnone Hne]%lookup_insert_None.
    destruct (Htr p Hlt Hnone) as (k0 & e0 & Hin0 & Hp0).
    exists k0, e0. split; [|done]. apply elem_of_jmap_delete. split; [done|].
    intros ->. apply Hne.
    by rewrite (jmap_entry_unique _ _ _ _ (inv_keys _ Hinv) Hin Hin0). }
  assert (∀ st' s,
    pendingRequests st' = pendingRequests st →
    promises st' = <[nextPromise st := s]> (promises st) →
    nextPromise st' = S (nextPromise st) →
    ∀ p, p < nextPromise st' → promises st' !! p = None →
         ∃ k e, (k, e) ∈ pendingRequests st' ∧ promise e = p) as Hfresh.
  { intros st' s Etab Epro EnP p. rewrite Etab, Epro, EnP.
    intros Hlt [Hnone Hne]%lookup_insert_None. apply Htr; [lia | done]. }
  destruct r; cbn [react].
  - destruct (websocket_open_fields s now1 now2 st Hinv)
      as (_ & _ & _ & _ & _ & EnP & _ & _ & Hkeep & Hcase).
    rewrite EnP. intros p Hlt Hnone.
    destruct (connection st) as [c|].
    + destruct Hcase as (_ & _ & Hall). exfalso.
      destruct (promises st !! p) as [x|] eqn:Hp.
      * rewrite (Hkeep p x Hp) in Hnone. done.
      * destruct (Htr p Hlt Hp) as (k & e & Hin & <-).
        destruct (Hall k e Hin) as [_ Hrej]. congruence.
    + destruct Hcase as (Etab & _ & Epro & _). rewrite Etab.
      rewrite Epro in Hnone. by apply Htr.
  - destruct parsed as [m|]; [|done]. unfold websocket_message, handleMessage.
    destruct (decide (type m = "handshake")).
    { destruct (connection st) as [c|], (params m) as [ps|]; try done.
      destruct (decide (ws c = s)); [|done]. by destruct (truthy ps). }
    destruct (decide (type m = "response")).
    { destruct (jmap_get (id m) (pendingRequests st)) as [pending|] eqn:Hg;
        [|done].
      destruct (response_fields m st pending Hinv Hg)
        as (_ & _ & _ & Etab & _ & Epro & _ & EnP & _).
      eapply Hfinish; eauto. by apply jmap_get_Some_elem. }
    destruct (decide (type m = "event")); [|done].
    unfold notifyAll.
    by destruct (notifyLoop_fields m (eventHandlers st) st)
      as (_ & -> & _ & _ & _ & -> & _ & -> & _).
  - unfold websocket_close. destruct (connection st) as [c|]; [|done].
    destruct (decide (ws c = s)); [|done].
    intros p Hlt Hnone.
    destruct (tracked_after_rejectAll "Connection lost"
                (set_connection None st) p (inv_set_connection None st Hinv)
                Htr Hlt) as [x Hx].
    congruence.
  - simpl in Hadm. destruct (connection st) as [c|] eqn:Hc.
    + destruct sendError as [e|].
      * destruct (sendRequest_failed_fields mth ps uuid now e c st
                    Hinv Hadm Hc)
          as (_ & _ & _ & _ & Etab & _ & Epro & _ & EnP & _).
        eapply Hfresh; eauto.
      * destruct (sendRequest_sent_fields mth ps uuid now c st Hinv Hadm Hc)
          as (_ & _ & _ & _ & -> & _ & -> & _ & -> & _).
        intros p Hlt Hnone.
        destruct (decide (p = nextPromise st)) as [->|Hne].
        -- exists uuid, {| promise := nextPromise st; timeout := nextTimer st |}.
           split; [|done]. apply elem_of_app. right. apply list_elem_of_here.
        -- destruct (Htr p) as (k & e & Hin & Hp); [lia | done |].
           exists k, e. split; [|done]. apply elem_of_app. by left.
    + destruct (sendRequest_disconnected_fields mth ps uuid now sendError st
                  Hinv Hc)
        as (_ & _ & _ & _ & Etab & _ & Epro & _ & EnP & _).
      eapply Hfresh; eauto.
  - destruct (timers st !! t) as [cb|] eqn:Hcb.
    + destruct (fireTimer_fields t cb st Hinv Hcb)
        as (_ & _ & _ & Etab & _ & Epro & _ & EnP & _).
      eapply (Hfinish _ (cb_id cb)
                {| promise := cb_promise cb; timeout := t |}); eauto.
      by apply inv_timer.
    + unfold fireTimer. by rewrite Hcb.
  - rewrite shutdown_unfold by done. cbv zeta. intros p Hlt Hnone. exfalso.
    destruct (tracked_after_rejectAll "Bridge shutting down" st p Hinv Htr)
      as [x Hx].
    + revert Hlt. by destruct (connection (rejectAll _ st)).
    + revert Hnone. destruct (connection (rejectAll _ st)); simpl; congruence.
  - done.
  - done.
Qed.

Lemma reachable_tracked st :
  reachable st →
  ∀ p, p < nextPromise st → promises st !! p = None →
       ∃ k e, (k, e) ∈ pendingRequests st ∧ promise e = p.
Proof.
  induction 1 as [|st r Hreach IH Hadm].
  - simpl. intros p Hp. lia.
  - apply react_keeps_tracked; [by apply reachable_inv | done | done].
Qed.

(** X10.  No request is left hanging: in every run, each promise that
    [sendRequest] has handed out and that is not settled yet has its entry in
    the table, with an armed timer of [REQUEST_TIMEOUT_MS] whose callback
    rejects that very promise.  The timeout is therefore the latest moment
    at which a request ends. *)
Theorem unsettled_request_has_armed_timer st :
  reachable st →
  ∀ p, p < nextPromise st → promises st !! p = None →
  ∃ k e cb,
    jmap_get k (pendingRequests st) = Some e ∧ promise e = p ∧
    timers st !! timeout e = Some cb ∧
    cb_id cb = k ∧ cb_promise cb = p ∧ cb_delay cb = REQUEST_TIMEOUT_MS ∧
    promises (fireTimer (timeout e) st) !! p
      = Some (Rejected (mkError ("Request timeout: " +:+ cb_method cb))).
Proof.
  intros Hreach. pose proof (reachable_inv _ Hreach) as Hinv.
  intros p Hlt Hnone.
  destruct (reachable_tracked st Hreach p Hlt Hnone) as (k & e & Hin & Hp).
  destruct (inv_entry _ Hinv _ _ Hin) as (cb & Hcb & Hcbp & Hcbk).
  exists k, e, cb. split_and!; try done.
  - by apply jmap_elem_get; [apply inv_keys|].
  - congruence.
  - by eapply inv_delay.
  - destruct (fireTimer_fields _ cb st Hinv Hcb)
      as (_ & _ & _ & _ & _ & -> & _).
    rewrite <- Hp, <- Hcbp. apply lookup_insert_eq.
Qed.

Lemma unsettled_request_has_armed_timer_witness :
  ∃ k e cb,
    jmap_get k (pendingRequests run_two_pending) = Some e ∧ promise e = 1 ∧
    timers run_two_pending !! timeout e = Some cb ∧
    cb_id cb = k ∧ cb_promise cb = 1 ∧ cb_delay cb = REQUEST_TIMEOUT_MS ∧
    promises (fireTimer (timeout e) run_two_pending) !! 1
      = Some (Rejected (mkError ("Request timeout: " +:+ cb_method cb))).
Proof.
  apply (unsettled_request_has_armed_timer run_two_pending
           run_two_pending_reachable 1).
  - simpl. lia.
  - reflexivity.
Defined.

(** X11.  Once the connection is lost, by a close event on the installed
    socket or by shutdown, nothing is left behind: no timer is armed, every
    promise handed out so far is settled, and none of them was settled
    twice. *)
Theorem nothing_pending_after_connection_loss st :
  reachable st →
  (∀ c, connection st = Some c →
     let st' := websocket_close (ws c) st in
     timers st' = ∅ ∧
     (∀ p, p < nextPromise st' → is_Some (promises st' !! p)) ∧
     (∀ p, p < nextPromise st' → settle_count p (trace st') ≤ 1)) ∧
  (let st' := shutdown st in
   timers st' = ∅ ∧
   (∀ p, p < nextPromise st' → is_Some (promises st' !! p)) ∧
   (∀ p, p < nextPromise st' → settle_count p (trace st') ≤ 1)).
Proof.
  intros Hreach.
  assert (∀ r, admissible r st → pendingRequests (react r st) = [] →
    timers (react r st) = ∅ ∧
    (∀ p, p < nextPromise (react r st) → is_Some (promises (react r st) !! p)) ∧
    (∀ p, p < nextPromise (react r st) →
          settle_count p (trace (react r st)) ≤ 1)) as Hempty.
  { intros r Hadm Hnil.
    assert (reachable (react r st)) as Hreach' by (by apply reachable_step).
    pose proof (reachable_inv _ Hreach') as Hinv'. split_and!.
    - apply map_eq. intros t. rewrite lookup_empty.
      destruct (timers (react r st) !! t) as [cb|] eqn:Hcb; [|done].
      apply (inv_timer _ Hinv') in Hcb. rewrite Hnil in Hcb.
      by apply elem_of_nil in Hcb.
    - intros p Hlt.
      destruct (promises (react r st) !! p) as [x|] eqn:Hp; [eauto|].
      destruct (reachable_tracked (react r st) Hreach' p Hlt Hp)
        as (k & e & Hin & _).
      rewrite Hnil in Hin. by apply elem_of_nil in Hin.
    - intros p _. apply (inv_once _ Hinv'). }
  pose proof (reachable_inv _ Hreach) as Hinv. split.
  - intros c Hc. apply (Hempty (Closed (ws c)) I). cbn [react].
    unfold websocket_close. rewrite Hc, decide_True by done.
    by destruct (rejectAll_spec "Connection lost" (set_connection None st)
                   (inv_set_connection None st Hinv)) as (_ & -> & _).
  - apply (Hempty ShutDown I). cbn [react].
    by destruct (shutdown_fields st Hinv) as (_ & -> & _).
Qed.

Lemma nothing_pending_after_connection_loss_witness :
  timers (websocket_close 1 run_two_pending) = ∅ ∧
  is_Some (promises (shutdown run_two_pending) !! 1).
Proof.
  destruct (nothing_pending_after_connection_loss run_two_pending
              run_two_pending_reachable) as [Hclose (_ & Hshut & _)].
  split.
  - apply (Hclose {| ws := 1; pluginVersion := JStr "unknown";
                     connectedAt := 100 |} eq_refl).
  - apply Hshut. vm_compute. lia.
Defined.

End BridgeTracking.

Section BridgeVersion.
Import Bridge.

Lemma or_default_truthy x d : truthy d = true → truthy (or_default x d) = true.
Proof.
  intros Hd. unfold or_default. destruct x as [v|]; [|done].
  by destruct (truthy v) eqn:Hv.
Qed.

Lemma react_connection r st c' :
  inv st → admissible r st →
  connection (react r st) = Some c' →
  connection st = Some c' ∨ truthy (pluginVersion c') = true.
Proof.
  intros Hinv Hadm. destruct r; cbn [react].
  - destruct (websocket_open_fields s now1 now2 st Hinv) as (_ & -> & _).
    intros [= <-]. by right.
  - destruct parsed as [m|]; [|by left].
    unfold websocket_message, handleMessage.
    destruct (decide (type m = "handshake")).
    { destruct (connection st) as [c|] eqn:Hc; [|by rewrite Hc; left].
      destruct (params m) as [ps|]; [|by rewrite Hc; left].
      destruct (decide (ws c = s)); [|by rewrite Hc; left].
      destruct (truthy ps); [|by rewrite Hc; left].
      simpl. intros [= <-]. right. simpl. by apply or_default_truthy. }
    destruct (decide (type m = "response")).
    { destruct (jmap_get (id m) (pendingRequests st)) as [pending|] eqn:Hg;
        [|by left].
      destruct (response_fields m st pending Hinv Hg) as (-> & _). by left. }
    destruct (decide (type m = "event")); [|by left].
    unfold notifyAll.
    destruct (notifyLoop_fields m (eventHandlers st) st) as (-> & _). by left.
  - unfold websocket_close. destruct (connection st) as [c|] eqn:Hc;
      [|by rewrite Hc; left].
    destruct (decide (ws c = s)); [|by rewrite Hc; left].
    destruct (rejectAll_spec "Connection lost" (set_connection None st)
                (inv_set_connection None st Hinv)) as (_ & _ & -> & _).
    done.
  - simpl in Hadm. destruct (connection st) as [c|] eqn:Hc.
    + destruct sendError as [e|].
      * destruct (sendRequest_failed_fields mth ps uuid now e c st
                    Hinv Hadm Hc) as (_ & -> & _). by left.
      * destruct (sendRequest_sent_fields mth ps uuid now c st Hinv Hadm Hc)
          as (_ & -> & _). by left.
    + destruct (sendRequest_disconnected_fields mth ps uuid now sendError st
                  Hinv Hc) as (_ & -> & _). done.
  - destruct (timers st !! t) as [cb|] eqn:Hcb.
    + destruct (fireTimer_fields t cb st Hinv Hcb) as (-> & _). by left.
    + unfold fireTimer. rewrite Hcb. by left.
  - destruct (shutdown_fields st Hinv) as (-> & _). done.
  - by left.
  - by left.
Qed.

(** X12.  The version of the installed connection is never empty, null,
    false or zero.  A handshake on the installed socket whose parameters
    carry no usable version sets the version to "unknown", also when a
    version was known before. *)
Theorem plugin_version_is_never_blank st c :
  reachable st → connection st = Some c →
  truthy (pluginVersion c) = true ∧
  ∀ m ps,
    type m = "handshake" → params m = Some ps → truthy ps = true →
    (∀ v, field "pluginVersion" ps = Some v → truthy v = false) →
    connection (websocket_message (ws c) (Some m) st) =
      Some {| ws := ws c; pluginVersion := JStr "unknown";
              connectedAt := connectedAt c |}.
Proof.
  intros Hreach Hc. split.
  - revert c Hc. induction Hreach as [|st r Hreach IH Hadm]; [done|].
    intros c Hc.
    destruct (react_connection r st c (reachable_inv _ Hreach) Hadm Hc)
      as [Hc'|Ht]; [by apply IH | done].
  - intros m ps Hty Hps Htruthy Hv. unfold websocket_message, handleMessage.
    rewrite decide_True by done. rewrite Hc, Hps.
    rewrite decide_True by done. rewrite Htruthy. simpl.
    unfold or_default. destruct (field "pluginVersion" ps) as [v|]; [|done].
    by rewrite (Hv v).
Qed.

Lemma plugin_version_is_never_blank_witness :
  truthy (JStr "1.2.3") = true ∧
  connection
    (websocket_message 1 (Some Samples.versionless_handshake)
       (websocket_message 1 (Some sample_handshake) run_one_pending)) =
  Some {| ws := 1; pluginVersion := JStr "unknown"; connectedAt := 100 |}.
Proof.
  destruct (plugin_version_is_never_blank
              (websocket_message 1 (Some sample_handshake) run_one_pending)
              {| ws := 1; pluginVersion := JStr "1.2.3"; connectedAt := 100 |})
    as [Ht Hreset].
  - apply (reachable_step run_one_pending (Received 1 (Some sample_handshake))
             run_one_pending_reachable I).
  - reflexivity.
  - split; [exact Ht|].
    apply (Hreset Samples.versionless_handshake
             (JObj {[ "build" := JNum 7 ]}) eq_refl eq_refl eq_refl).
    intros v Hv. vm_compute in Hv. discriminate.
Defined.

End BridgeVersion.

(** ** Further properties of the dispatch *)

Section DispatchFacts.
Import Bridge Tools Dispatch.

Lemma registry_handler (tools : Registry) :
  Registered tools →
  ∀ toolName toolDef,
    tools !! toolName = Some toolDef →
    (requiresPlugin toolDef = true → handler toolDef = PluginHandler toolName) ∧
    (requiresPlugin toolDef = false → ∃ run, handler toolDef = LocalHandler run) ∧
    name (tool toolDef) = toolName.
Proof.
  induction 1 as [|tools n d sch Hreg IH|tools n d sch run Hreg IH];
    intros toolName toolDef.
  - by rewrite lookup_empty.
  - unfold definePluginTool. rewrite lookup_insert_Some.
    intros [[<- <-]|[_ Hl]]; [|by apply IH]. simpl. split_and!; done.
  - unfold defineLocalTool. rewrite lookup_insert_Some.
    intros [[<- <-]|[_ Hl]]; [|by apply IH]. simpl. split_and!; eauto.
    done.
Qed.

(** X13.  In a registry built by [definePluginTool] and [defineLocalTool],
    every entry is filed under the name of its tool; an entry requires the
    plugin exactly when its handler is the remote one, and that handler
    sends the request under the tool's own name; defining a name again
    replaces the earlier definition. *)
Theorem registry_entries_are_consistent (tools : Registry) :
  Registered tools →
  (∀ toolName toolDef,
     tools !! toolName = Some toolDef →
     name (tool toolDef) = toolName ∧
     (requiresPlugin toolDef = true → handler toolDef = PluginHandler toolName) ∧
     (requiresPlugin toolDef = false → ∃ run, handler toolDef = LocalHandler run)) ∧
  (∀ toolName d1 s1 d2 s2 run,
     isPluginTool
       (defineLocalTool toolName d2 s2 run
          (definePluginTool toolName d1 s1 tools)) toolName = false ∧
     isPluginTool
       (definePluginTool toolName d1 s1
          (defineLocalTool toolName d2 s2 run tools)) toolName = true).
Proof.
  intros Hreg. split.
  - intros toolName toolDef Hdef.
    destruct (registry_handler tools Hreg toolName toolDef Hdef)
      as (Hp & Hl & Hn).
    done.
  - intros toolName d1 s1 d2 s2 run.
    unfold isPluginTool, defineLocalTool, definePluginTool.
    by rewrite !lookup_insert_eq.
Qed.

Lemma sample_tools_registered : Registered sample_tools.
Proof. apply Registered_local, Registered_plugin, Registered_empty. Qed.

Lemma registry_entries_are_consistent_witness :
  ∃ toolDef, sample_tools !! "get_children" = Some toolDef ∧
             name (tool toolDef) = "get_children" ∧
             handler toolDef = PluginHandler "get_children".
Proof.
  destruct (sample_tools !! "get_children") as [toolDef|] eqn:Hdef;
    [|vm_compute in Hdef; discriminate].
  destruct (registry_entries_are_consistent sample_tools
              sample_tools_registered) as [Hcons _].
  destruct (Hcons "get_children" toolDef Hdef) as (Hname & Hplugin & _).
  exists toolDef. split_and!; [done | exact Hname |].
  apply Hplugin. vm_compute in Hdef. by injection Hdef as <-.
Defined.

(** X14.  A local tool is served whether or not the plugin is connected:
    its handler is called once with the arguments (an empty object when the
    request has none), its result or its error becomes the reply, and the
    bridge issues no request: table, timers, promises and ids are
    untouched. *)
Theorem local_tool_served_without_plugin
  (tools : Registry) env context toolName args toolDef run :
  tools !! toolName = Some toolDef →
  requiresPlugin toolDef = false →
  handler toolDef = LocalHandler run →
  let a := default (JObj ∅) args in
  let st := emit (ToolHandler toolName a) (bridge context) in
  callTool tools env context toolName args =
    (st, Done (replyOf (run {| bridge := st; docs := docs context |} a))) ∧
  pendingRequests st = pendingRequests (bridge context) ∧
  timers st = timers (bridge context) ∧
  promises st = promises (bridge context) ∧
  issuedIds st = issuedIds (bridge context) ∧
  connection st = connection (bridge context).
Proof.
  intros Hdef Hreq Hh. unfold callTool, isPluginTool, handleToolCall.
  rewrite Hdef, Hreq. simpl. unfold callHandler. by rewrite Hh.
Qed.

Lemma local_tool_served_without_plugin_witness :
  (callTool sample_tools sample_env disconnected_context
     "get_connection_status" None).2 =
  Done (Content (Some (JObj {[ "connected" := JBool false;
                               "uptime_ms" := JNum 0 ]}))).
Proof.
  destruct (local_tool_served_without_plugin sample_tools sample_env
              disconnected_context "get_connection_status" None
              {| tool := {| name := "get_connection_status";
                            description :=
                              "Get plugin bridge connection status.";
                            inputSchema :=
                              JObj {[ "type" := JStr "object";
                                      "properties" := JObj ∅ ]} |};
                 handler := LocalHandler (connectionStatus 1000);
                 requiresPlugin := false |}
              (connectionStatus 1000)) as [-> _].
  - vm_compute. reflexivity.
  - reflexivity.
  - reflexivity.
  - vm_compute. reflexivity.
Defined.

(** The state and the promise of a remote tool called on a connection. *)
Lemma callTool_remote (tools : Registry) env context toolName args toolDef :
  tools !! toolName = Some toolDef →
  requiresPlugin toolDef = true →
  handler toolDef = PluginHandler toolName →
  isConnected (bridge context) = true →
  callTool tools env context toolName args =
    let r := sendRequest toolName (default (JObj ∅) args) (env_uuid env)
               (env_now env) (env_sendError env)
               (emit (ToolHandler toolName (default (JObj ∅) args))
                     (bridge context)) in
    (r.2, Awaiting r.1 (λ s, replyOf (pluginContinuation s))).
Proof.
  intros Hdef Hreq Hh Hcon. unfold callTool, isPluginTool, handleToolCall.
  rewrite Hdef, Hreq, Hcon. simpl. unfold callHandler. rewrite Hh.
  by destruct (sendRequest _ _ _ _ _ _).
Qed.

Lemma isConnected_Some st c : connection st = Some c → isConnected st = true.
Proof. unfold isConnected. by intros ->. Qed.

(** X15.  A remote tool called on a connection makes exactly one request:
    the handler is recorded, one frame goes out on the installed socket with
    the tool's name as method and the arguments as parameters (an empty
    object when the request has none), the table gains one entry, and the
    caller has no reply until that request is settled. *)
Theorem remote_tool_issues_one_request
  (tools : Registry) env context toolName args toolDef c :
  reachable (bridge context) → Registered tools →
  tools !! toolName = Some toolDef → requiresPlugin toolDef = true →
  connection (bridge context) = Some c →
  env_uuid env ∉ issuedIds (bridge context) →
  env_sendError env = None →
  let r := callTool tools env context toolName args in
  let a := default (JObj ∅) args in
  trace r.1 =
    trace (bridge context) ++
      [ToolHandler toolName a;
       SetTimeout (nextTimer (bridge context)) REQUEST_TIMEOUT_MS;
       WsSend (ws c)
         (Request {| id := env_uuid env; type := "request";
                     timestamp := env_now env; method := Some toolName;
                     params := Some a; result := None; error := None |})] ∧
  jmap_size (pendingRequests r.1)
    = S (jmap_size (pendingRequests (bridge context))) ∧
  received r.2 r.1 = None.
Proof.
  intros Hreach Hreg Hdef Hreq Hc Hfresh Hsend.
  destruct (registry_handler tools Hreg toolName toolDef Hdef) as [Hplugin _].
  cbv zeta.
  rewrite (callTool_remote tools env context toolName args toolDef Hdef Hreq
             (Hplugin Hreq) (isConnected_Some _ _ Hc)).
  cbv zeta. cbn [fst snd]. rewrite Hsend.
  set (a := default (JObj ∅) args).
  set (st0 := emit (ToolHandler toolName a) (bridge context)).
  assert (inv st0) as Hinv0.
  { apply reachable_inv.
    apply (reachable_step (bridge context) (HandlerCalled toolName a) Hreach I). }
  destruct (sendRequest_sent_fields toolName a (env_uuid env) (env_now env)
              c st0 Hinv0 Hfresh Hc)
    as (E1 & _ & _ & _ & Etab & _ & Epro & _ & _ & _ & Etr).
  rewrite Etr, Etab. simpl. rewrite E1, Epro. split_and!.
  - by rewrite <- app_assoc.
  - unfold jmap_size. rewrite length_app. simpl. lia.
  - simpl. change (promises st0) with (promises (bridge context)).
    rewrite (nextPromise_unsettled _ (reachable_inv _ Hreach)). done.
Qed.

Lemma remote_tool_issues_one_request_witness :
  jmap_size
    (pendingRequests
       (callTool sample_tools sample_env connected_context "get_children"
          (Some get_children_args)).1) = 1 ∧
  received
    (callTool sample_tools sample_env connected_context "get_children"
       (Some get_children_args)).2
    (callTool sample_tools sample_env connected_context "get_children"
       (Some get_children_args)).1 = None.
Proof.
  destruct (remote_tool_issues_one_request sample_tools sample_env
              connected_context "get_children" (Some get_children_args)
              {| tool := {| name := "get_children";
                            description :=
                              "Get immediate children of an instance.";
                            inputSchema := get_children_schema |};
                 handler := PluginHandler "get_children";
                 requiresPlugin := true |}
              {| ws := 1; pluginVersion := JStr "unknown"; connectedAt := 100 |}
              run_connected_reachable sample_tools_registered)
    as (_ & Hsize & Hnone).
  - vm_compute. reflexivity.
  - reflexivity.
  - reflexivity.
  - simpl. apply not_elem_of_nil.
  - reflexivity.
  - split; [exact Hsize | exact Hnone].
Defined.



(** X17.  When a remote tool is called on a connection and [ws.send]
    throws, the caller has its reply at once: the error of [send] under
    [OPERATION_FAILED]; the table and the armed timers are as before the
    call. *)
Theorem remote_tool_send_failure
  (tools : Registry) env context toolName args toolDef c e :
  reachable (bridge context) → Registered tools →
  tools !! toolName = Some toolDef → requiresPlugin toolDef = true →
  connection (bridge context) = Some c →
  env_uuid env ∉ issuedIds (bridge context) →
  env_sendError env = Some e →
  let r := callTool tools env context toolName args in
  received r.2 r.1 = Some (ErrorReply "OPERATION_FAILED" (error_message e)) ∧
  pendingRequests r.1 = pendingRequests (bridge context) ∧
  timers r.1 = timers (bridge context).
Proof.
  intros Hreach Hreg Hdef Hreq Hc Hfresh Hsend.
  destruct (registry_handler tools Hreg toolName toolDef Hdef) as [Hplugin _].
  cbv zeta.
  rewrite (callTool_remote tools env context toolName args toolDef Hdef Hreq
             (Hplugin Hreq) (isConnected_Some _ _ Hc)).
  cbv zeta. cbn [fst snd received]. rewrite Hsend.
  set (a := default (JObj ∅) args).
  set (st0 := emit (ToolHandler toolName a) (bridge context)).
  assert (inv st0) as Hinv0.
  { apply reachable_inv.
    apply (reachable_step (bridge context) (HandlerCalled toolName a) Hreach I). }
  destruct (sendRequest_failed_fields toolName a (env_uuid env) (env_now env)
              e c st0 Hinv0 Hfresh Hc)
    as (-> & _ & _ & _ & -> & -> & -> & _).
  by rewrite lookup_insert_eq.
Qed.

Lemma remote_tool_send_failure_witness :
  let env := {| env_uuid := "id-1"; env_now := 200;
                env_sendError := Some (mkError "socket closed") |} in
  received
    (callTool sample_tools env connected_context "get_children" None).2
    (callTool sample_tools env connected_context "get_children" None).1
  = Some (ErrorReply "OPERATION_FAILED" "socket closed").
Proof.
  apply (remote_tool_send_failure sample_tools
           {| env_uuid := "id-1"; env_now := 200;
              env_sendError := Some (mkError "socket closed") |}
           connected_context "get_children" None
           {| tool := {| name := "get_children";
                         description :=
                           "Get immediate children of an instance.";
                         inputSchema := get_children_schema |};
              handler := PluginHandler "get_children";
              requiresPlugin := true |}
           {| ws := 1; pluginVersion := JStr "unknown"; connectedAt := 100 |}
           (mkError "socket closed")
           run_connected_reachable sample_tools_registered).
  - vm_compute. reflexivity.
  - reflexivity.
  - reflexivity.
  - simpl. apply not_elem_of_nil.
  - reflexivity.
Defined.

End DispatchFacts.

(** ** Further properties of the documentation lookups *)

Section DocsLookups.
Import Docs Search.

Lemma findMember_Some kind memberName classData m :
  findMember kind memberName classData = Some m →
  In m (Members classData) ∧ MemberType m = kind ∧ m_Name m = memberName.
Proof.
  unfold findMember. intros [Hin Hp]%List.find_some.
  apply andb_true_iff in Hp as [Hk Hn]. split_and!; [done | |].
  - by apply bool_decide_eq_true in Hk.
  - by apply String.eqb_eq.
Qed.

(** X18.  What a member lookup returns is built from a member of the dump:
    a property, method or event of the asked name, declared by the class
    asked for or by a class reached from it through [Superclass]. *)
Theorem member_lookup_returns_declared_member cache :
  (∀ fuel className propertyName d,
     getPropertyDocs fuel cache className propertyName = Some (Some d) →
     p_name d = propertyName ∧
     ∃ owner classData m,
       findClass cache owner = Some classData ∧
       In m (Members classData) ∧ MemberType m = Property ∧
       d = propertyDoc
             (getMemberDoc (classDocOf cache owner) propertyName Property) m) ∧
  (∀ fuel className methodName d,
     getMethodDocs fuel cache className methodName = Some (Some d) →
     f_name d = methodName ∧
     ∃ owner classData m,
       findClass cache owner = Some classData ∧
       In m (Members classData) ∧ MemberType m = Function ∧
       d = methodDoc
             (getMemberDoc (classDocOf cache owner) methodName Function) m) ∧
  (∀ fuel className eventName d,
     getEventDocs fuel cache className eventName = Some (Some d) →
     e_name d = eventName ∧
     ∃ owner classData m,
       findClass cache owner = Some classData ∧
       In m (Members classData) ∧ MemberType m = Event ∧
       d = eventDoc
             (getMemberDoc (classDocOf cache owner) eventName Event) m).
Proof.
  split_and!.
  - induction fuel as [|fuel IH]; intros className propertyName d; simpl;
      [done|].
    destruct (findClass cache className) as [classData|] eqn:Hf; [|done].
    destruct (findMember Property propertyName classData) as [m|] eqn:Hm.
    + intros [= <-].
      destruct (findMember_Some _ _ _ _ Hm) as (Hin & Hk & Hn).
      split; [done|]. by exists className, classData, m.
    + destruct (hasParent classData); [apply IH | done].
  - induction fuel as [|fuel IH]; intros className methodName d; simpl;
      [done|].
    destruct (findClass cache className) as [classData|] eqn:Hf; [|done].
    destruct (findMember Function methodName classData) as [m|] eqn:Hm.
    + intros [= <-].
      destruct (findMember_Some _ _ _ _ Hm) as (Hin & Hk & Hn).
      split; [done|]. by exists className, classData, m.
    + destruct (hasParent classData); [apply IH | done].
  - induction fuel as [|fuel IH]; intros className eventName d; simpl;
      [done|].
    destruct (findClass cache className) as [classData|] eqn:Hf; [|done].
    destruct (findMember Event eventName classData) as [m|] eqn:Hm.
    + intros [= <-].
      destruct (findMember_Some _ _ _ _ Hm) as (Hin & Hk & Hn).
      split; [done|]. by exists className, classData, m.
    + destruct (hasParent classData); [apply IH | done].
Qed.

Lemma member_lookup_returns_declared_member_witness :
  p_name (propertyDoc None (sampleProperty "Name" "string")) = "Name".
Proof.
  destruct (member_lookup_returns_declared_member sample_cache)
    as (Hprop & _ & _).
  apply (Hprop 3 "Part" "Name"). reflexivity.
Defined.

(** X19.  Lookups that need no superclass return at once on any dump, a
    cyclic one included: a class lookup without inherited members never
    recurses, and it returns [null] exactly when no class bears the name; a
    member lookup returns at once when the class declares the member
    itself. *)
Theorem lookups_without_superclass_return_at_once cache className :
  (∀ fuel, getClassDocs (S fuel) cache className false
           = getClassDocs 1 cache className false) ∧
  getClassDocs 1 cache className false ≠ None ∧
  (getClassDocs 1 cache className false = Some None
   ↔ findClass cache className = None) ∧
  (∀ classData memberName m fuel,
     findClass cache className = Some classData →
     (findMember Property memberName classData = Some m →
      getPropertyDocs (S fuel) cache className memberName
      = Some (Some (propertyDoc
                      (getMemberDoc (classDocOf cache className)
                                    memberName Property) m))) ∧
     (findMember Function memberName classData = Some m →
      getMethodDocs (S fuel) cache className memberName
      = Some (Some (methodDoc
                      (getMemberDoc (classDocOf cache className)
                                    memberName Function) m))) ∧
     (findMember Event memberName classData = Some m →
      getEventDocs (S fuel) cache className memberName
      = Some (Some (eventDoc
                      (getMemberDoc (classDocOf cache className)
                                    memberName Event) m)))).
Proof.
  split_and!.
  - intros fuel. simpl. by destruct (findClass cache className).
  - simpl. by destruct (findClass cache className).
  - simpl. destruct (findClass cache className); split; done.
  - intros classData memberName m fuel Hf. simpl. rewrite Hf.
    split_and!; by intros ->.
Qed.

Lemma lookups_without_superclass_return_at_once_witness :
  getClassDocs 5 cyclic_cache "A" false = getClassDocs 1 cyclic_cache "A" false ∧
  getPropertyDocs 1 sample_cache "Part" "Shape"
  = Some (Some (propertyDoc None (sampleProperty "Shape" "PartType"))).
Proof.
  destruct (lookups_without_superclass_return_at_once cyclic_cache "A")
    as (Hsame & _).
  destruct (lookups_without_superclass_return_at_once sample_cache "Part")
    as (_ & _ & _ & Hown).
  split; [apply (Hsame 4)|].
  destruct (Hown {| c_Name := "Part"; Superclass := "BasePart"; c_Tags := None;
                    Members := [sampleProperty "Shape" "PartType"] |}
              "Shape" (sampleProperty "Shape" "PartType") 0 eq_refl)
    as (Hp & _).
  apply Hp. reflexivity.
Defined.

(** X20.  Asking for inherited members only appends: a class lookup with
    inherited members returns the same name, superclass, description and
    tags as the lookup without them, and its properties, methods and events
    begin with those the class declares; every member after them carries
    "Inherited" as its last tag. *)
Theorem inherited_members_are_appended fuel cache className d :
  getClassDocs fuel cache className true = Some (Some d) →
  ∃ d0 ps ms es,
    getClassDocs 1 cache className false = Some (Some d0) ∧
    k_name d = k_name d0 ∧ k_superclass d = k_superclass d0 ∧
    k_description d = k_description d0 ∧ k_tags d = k_tags d0 ∧
    k_properties d = k_properties d0 ++ ps ∧
    k_methods d = k_methods d0 ++ ms ∧
    k_events d = k_events d0 ++ es ∧
    (∀ p, p ∈ ps → ∃ tags, p_tags p = Some (tags ++ ["Inherited"])) ∧
    (∀ m, m ∈ ms → ∃ tags, f_tags m = Some (tags ++ ["Inherited"])) ∧
    (∀ e, e ∈ es → ∃ tags, e_tags e = Some (tags ++ ["Inherited"])).
Proof.
  destruct fuel as [|fuel]; [done|]. simpl.
  destruct (findClass cache className) as [classData|] eqn:Hf; [|done].
  assert (∀ (A : Type), ∀ x : A, x ∈ @nil A → False) as Hnil
    by (intros A x H; by apply elem_of_nil in H).
  destruct (hasParent classData).
  - destruct (getClassDocs fuel cache (Superclass classData) true)
      as [[parentDocs|]|]; [| |done].
    + intros [= <-]. simpl.
      eexists _, (inheritedProperty <$> k_properties parentDocs),
        (inheritedMethod <$> k_methods parentDocs),
        (inheritedEvent <$> k_events parentDocs).
      split; [done|]. simpl. split_and!; try done.
      * intros p (q & -> & _)%list_elem_of_fmap. simpl. eauto.
      * intros m (q & -> & _)%list_elem_of_fmap. simpl. eauto.
      * intros e (q & -> & _)%list_elem_of_fmap. simpl. eauto.
    + intros [= <-]. simpl. eexists _, [], [], []. split; [done|]. simpl.
      rewrite !app_nil_r. split_and!; try done; intros x Hx; by destruct (Hnil _ _ Hx).
  - intros [= <-]. simpl. eexists _, [], [], []. split; [done|]. simpl.
    rewrite !app_nil_r. split_and!; try done; intros x Hx; by destruct (Hnil _ _ Hx).
Qed.

Lemma inherited_members_are_appended_witness :
  ∃ d d0 ps,
    getClassDocs 3 sample_cache "Part" true = Some (Some d) ∧
    getClassDocs 1 sample_cache "Part" false = Some (Some d0) ∧
    k_properties d = k_properties d0 ++ ps ∧ length ps = 2.
Proof.
  destruct (getClassDocs 3 sample_cache "Part" true) as [[d|]|] eqn:Hd;
    [|vm_compute in Hd; discriminate..].
  destruct (inherited_members_are_appended 3 sample_cache "Part" d Hd)
    as (d0 & ps & ms & es & Hd0 & _ & _ & _ & _ & Hps & _).
  exists d, d0, ps. split_and!; [done | done | done |].
  assert (length (k_properties d) = 3) as Hlen
    by (vm_compute in Hd; injection Hd as <-; reflexivity).
  assert (length (k_properties d0) = 1) as Hlen0
    by (vm_compute in Hd0; injection Hd0 as <-; reflexivity).
  rewrite Hps, length_app, Hlen0 in Hlen. lia.
Defined.

(** X21.  A property is called writable exactly when its dump entry has no
    [Security], or a [Security] string that is empty or "None", or a
    [Security] object whose [Write] is absent, empty or "None": what is
    missing counts as "None". *)
Theorem writable_iff_no_write_security memberDoc m :
  writable (propertyDoc memberDoc m) = true ↔
  match m_Security m with
  | None => True
  | Some (SecurityString s) => s = EmptyString ∨ s = "None"
  | Some (SecurityObject _ w) =>
      w = None ∨ w = Some EmptyString ∨ w = Some "None"
  end.
Proof.
  unfold writable, propertyDoc, parsePropertySecurity. simpl.
  destruct (m_Security m) as [[s|r w]|]; simpl.
  - unfold str_or. destruct (String.eqb s EmptyString) eqn:He.
    + apply String.eqb_eq in He. subst. simpl. tauto.
    + rewrite String.eqb_eq. apply String.eqb_neq in He. tauto.
  - destruct w as [w|]; simpl.
    + unfold str_or. destruct (String.eqb w EmptyString) eqn:He.
      * apply String.eqb_eq in He. subst. simpl. tauto.
      * rewrite String.eqb_eq. apply String.eqb_neq in He.
        split; [intros ->; tauto|]. intros [?|[[=]|[=]]]; done.
    + tauto.
  - tauto.
Qed.

End DocsLookups.

Section DocsSearch.
Import Docs Search.
Context (toLowerCase : string → string) (sort : list string → list string).

Lemma enumItem_find D itemName (items : list APIDumpEnumItem) :
  List.find (λ it, String.eqb (ei_name it) itemName)
    ((λ item, enumItemDoc (itemDocOf D (i_Name item)) item) <$> items)
  = enumItemDoc (itemDocOf D itemName)
      <$> List.find (λ i, String.eqb (i_Name i) itemName) items.
Proof.
  induction items as [|a items IH]; [done|]. simpl.
  destruct (String.eqb (i_Name a) itemName) eqn:He; [|done].
  apply String.eqb_eq in He. by rewrite He.
Qed.

(** X22.  The lookup of an enum item agrees with the lookup of its enum: it
    returns the first item of that name in the enum's documentation, and
    [null] when the dump has no such enum or the enum no such item. *)
Theorem enum_item_lookup_agrees_with_enum cache enumName itemName :
  getEnumItemDocs cache enumName itemName =
    getEnumDocs cache enumName ≫= λ enumDoc,
      List.find (λ it, String.eqb (ei_name it) itemName) (eo_items enumDoc).
Proof.
  unfold getEnumItemDocs, getEnumDocs.
  destruct (findEnum cache enumName) as [enumData|]; [|done]. simpl.
  rewrite enumItem_find.
  by destruct (List.find _ (Items enumData)).
Qed.

Lemma slice0_length {A} (limit : Z) (l : list A) :
  (0 ≤ limit)%Z → length (slice0 limit l) ≤ Z.to_nat limit.
Proof.
  intros Hl. unfold slice0.
  destruct (limit <? 0)%Z eqn:E; [apply Z.ltb_lt in E; lia|].
  rewrite length_take. lia.
Qed.

(** The loops of [searchProperties], started with fewer results than the
    bound [n] at which they return. *)
Lemma scanMembers_spec lowerQuery className limit members :
  let n := Z.to_nat (Z.max limit 1) in
  ∀ results, length results < n →
    match scanMembers toLowerCase lowerQuery className limit members results
    with
    | inl r =>
        r = take n (results ++
                      memberMatches toLowerCase lowerQuery className members) ∧
        n ≤ length (results ++
                      memberMatches toLowerCase lowerQuery className members)
    | inr r =>
        r = results ++ memberMatches toLowerCase lowerQuery className members ∧
        length r < n
    end.
Proof.
  intros n. unfold memberMatches.
  induction members as [|member members IH]; intros results Hlen; simpl.
  - by rewrite app_nil_r.
  - destruct (MemberType member); try (by apply IH).
    destruct (matches toLowerCase lowerQuery (m_Name member)); [|by apply IH].
    set (hit := {| h_class := className; h_property := m_Name member;
                   h_type := Name (ValueType member) |}).
    destruct (Z.of_nat (length (results ++ [hit])) >=? limit)%Z eqn:E.
    + rewrite length_app in E. simpl in E.
      assert (length results + 1 = n) as Hn
        by (apply Z.geb_le in E; unfold n in *; lia).
      match goal with
      | |- context [hit :: list_omap ?A ?B ?f members] =>
          set (found := list_omap A B f members)
      end.
      replace (results ++ hit :: found)
        with ((results ++ [hit]) ++ found) by (by rewrite <- app_assoc).
      assert (length (results ++ [hit]) = n) as Hn'
        by (rewrite length_app; simpl; lia).
      rewrite take_app_le by lia. rewrite take_ge by lia.
      split; [done|]. rewrite length_app. lia.
    + rewrite length_app in E. simpl in E.
      assert (length (results ++ [hit]) < n) as Hn.
      { rewrite length_app. simpl.
        assert (¬ (limit ≤ Z.of_nat (length results + 1))%Z)
          by (intros ?; assert ((Z.of_nat (length results + 1) >=? limit)%Z
                                = true) by (by apply Z.geb_le); congruence).
        unfold n in *. lia. }
      specialize (IH _ Hn). rewrite <- app_assoc in IH. exact IH.
Qed.

Lemma scanClasses_spec lowerQuery limit classes :
  let n := Z.to_nat (Z.max limit 1) in
  ∀ results, length results < n →
    scanClasses toLowerCase lowerQuery limit classes results
    = take n (results ++ propertyMatches toLowerCase lowerQuery classes).
Proof.
  intros n. induction classes as [|classData classes IH];
    intros results Hlen; simpl.
  - rewrite app_nil_r. symmetry. apply take_ge. lia.
  - pose proof (scanMembers_spec lowerQuery (c_Name classData) limit
                  (Members classData) results Hlen) as Hm.
    cbv zeta in Hm. fold n in Hm.
    destruct (scanMembers toLowerCase lowerQuery (c_Name classData) limit
                (Members classData) results) as [r|r].
    + destruct Hm as [-> Hge]. rewrite (assoc_L (++)).
      symmetry. by apply take_app_le.
    + destruct Hm as [-> Hlt]. rewrite (IH _ Hlt). by rewrite (assoc_L (++)).
Qed.

(** X23.  [searchProperties] returns the first matching properties in the
    order of the dump, up to [limit] of them; when [limit] is zero or
    negative it still returns the first match. *)
Theorem searchProperties_returns_first_matches cache query limit :
  searchProperties toLowerCase cache query limit =
    take (Z.to_nat (Z.max limit 1))
      (propertyMatches toLowerCase (toLowerCase query)
         (Classes (apiDump (base cache)))).
Proof.
  unfold searchProperties. rewrite scanClasses_spec; [done|]. simpl. lia.
Qed.

(** X24.  For a limit that is not negative, [searchAll] returns at most
    [limit] classes and at most [limit] enums, but up to one property when
    [limit] is zero; each property returned is a property of a class of the
    dump whose lower-cased name contains the lower-cased query. *)
Theorem searchAll_respects_limit cache query limit :
  (0 ≤ limit)%Z →
  let r := searchAll toLowerCase sort cache query limit in
  length (r_classes r) ≤ Z.to_nat limit ∧
  length (r_enums r) ≤ Z.to_nat limit ∧
  length (r_properties r) ≤ Z.to_nat (Z.max limit 1) ∧
  ∀ h, h ∈ r_properties r →
    ∃ classData m,
      In classData (Classes (apiDump (base cache))) ∧
      In m (Members classData) ∧ MemberType m = Property ∧
      h_class h = c_Name classData ∧ h_property h = m_Name m ∧
      h_type h = Name (ValueType m) ∧
      mentions (toLowerCase query) (toLowerCase (m_Name m)) = true.
Proof.
  intros Hl. simpl. split_and!.
  - by apply slice0_length.
  - by apply slice0_length.
  - unfold searchProperties. rewrite scanClasses_spec by (simpl; lia).
    rewrite length_take. lia.
  - intros h. unfold searchProperties.
    rewrite scanClasses_spec by (simpl; lia). simpl.
    intros Hin%subseteq_take. revert Hin. unfold propertyMatches.
    rewrite list_elem_of_bind. intros (classData & Hh & Hc).
    unfold memberMatches in Hh.
    apply list_elem_of_omap in Hh as (m & Hm & Hh).
    exists classData, m.
    destruct (MemberType m) eqn:Hk; try done.
    destruct (matches toLowerCase (toLowerCase query) (m_Name m)) eqn:Hmatch;
      [|done].
    injection Hh as <-. simpl.
    split_and!; try done; by apply list_elem_of_In.
Qed.

End DocsSearch.

Section DocsSearchSamples.
Import Docs Search.

Lemma searchAll_respects_limit_witness :
  let r := searchAll asciiLower byteSort sample_enums "a" 0 in
  length (r_classes r) ≤ 0 ∧ length (r_enums r) ≤ 0 ∧
  length (r_properties r) ≤ 1.
Proof.
  destruct (searchAll_respects_limit asciiLower byteSort sample_enums "a" 0)
    as (Hc & He & Hp & _); [lia|].
  split_and!; [exact Hc | exact He | exact Hp].
Defined.

Example search_with_limit_zero :
  searchAll asciiLower byteSort sample_enums "a" 0 =
    {| r_classes := []; r_enums := [];
       r_properties := [ {| h_class := "Instance"; h_property := "Name";
                            h_type := "string" |} ] |}.
Proof. vm_compute. reflexivity. Qed.

Example search_sorted_and_limited :
  searchAll asciiLower byteSort sample_enums "PART" 2 =
    {| r_classes := ["BasePart"; "Part"]; r_enums := ["PartType"];
       r_properties := [] |} ∧
  searchProperties asciiLower sample_enums "a" 2 =
    [ {| h_class := "Instance"; h_property := "Name"; h_type := "string" |};
      {| h_class := "BasePart"; h_property := "Anchored"; h_type := "bool" |} ] ∧
  searchClasses asciiLower byteSort sample_enums "part" (-1) = ["BasePart"].
Proof. split_and!; vm_compute; reflexivity. Qed.

Example enum_item_found :
  getEnumItemDocs sample_enums "Material" "Neon" =
    Some {| ei_name := "Neon"; ei_value := 288; ei_description := None;
            ei_learn_more_link := None; ei_code_sample := None |} ∧
  getEnumItemDocs sample_enums "Material" "Wood" = None ∧
  getEnumItemDocs sample_enums "Missing" "Neon" = None.
Proof. split_and!; reflexivity. Qed.

End DocsSearchSamples.

Section BridgeTimers.
Import Bridge.

(** X25.  A response disarms the timeout of its request: when the runtime
    comes to that timer afterwards nothing happens, and the promise stays
    resolved with the response. *)
Theorem timeout_after_response_is_void st s m pending :
  reachable st → type m = "response" →
  jmap_get (id m) (pendingRequests st) = Some pending →
  let st' := websocket_message s (Some m) st in
  fireTimer (timeout pending) st' = st' ∧
  promises (fireTimer (timeout pending) st') !! promise pending
    = Some (Resolved m).
Proof.
  intros Hinv%reachable_inv Hty Hget. cbv zeta. unfold websocket_message.
  rewrite handleMessage_response by done. rewrite Hget.
  destruct (response_fields m st pending Hinv Hget)
    as (_ & _ & _ & _ & Etim & Epro & _).
  assert (fireTimer (timeout pending)
            (resolve (promise pending) m
               (pendingDelete (id m) (clearTimeout (timeout pending) st)))
          = resolve (promise pending) m
              (pendingDelete (id m) (clearTimeout (timeout pending) st)))
    as ->.
  { unfold fireTimer. by rewrite Etim, lookup_delete_eq. }
  split; [done|]. rewrite Epro. apply lookup_insert_eq.
Qed.

Lemma timeout_after_response_is_void_witness :
  fireTimer 0 (websocket_message 1 (Some sample_response) run_two_pending)
  = websocket_message 1 (Some sample_response) run_two_pending.
Proof.
  apply (timeout_after_response_is_void run_two_pending 1 sample_response
           {| promise := 0; timeout := 0 |}
           run_two_pending_reachable eq_refl eq_refl).
Defined.

(** X26.  Timers and entries go together: in every run the armed timers are
    exactly the timers of the entries of the table, one each, so there are
    as many armed timers as pending requests; and the entries have distinct
    ids, distinct promises and distinct timers. *)
Theorem armed_timers_match_table st :
  reachable st →
  (∀ t cb, timers st !! t = Some cb →
     jmap_get (cb_id cb) (pendingRequests st)
     = Some {| promise := cb_promise cb; timeout := t |}) ∧
  (∀ k e, jmap_get k (pendingRequests st) = Some e →
     is_Some (timers st !! timeout e)) ∧
  size (timers st) = jmap_size (pendingRequests st) ∧
  NoDup (pendingRequests st).*1 ∧
  NoDup ((λ x, promise x.2) <$> pendingRequests st) ∧
  NoDup ((λ x, timeout x.2) <$> pendingRequests st).
Proof.
  intros Hinv%reachable_inv.
  pose proof (inv_keys _ Hinv) as Hkeys.
  assert (NoDup (pendingRequests st)) as Hnd by (by eapply NoDup_fmap_1).
  assert (NoDup ((λ x, timeout x.2) <$> pendingRequests st)) as Hndt.
  { apply NoDup_fmap_2_strong; [|done].
    intros [k1 e1] [k2 e2] H1 H2 Heq. simpl in Heq.
    destruct (inv_entry _ Hinv _ _ H1) as (cb1 & Hcb1 & _ & Hk1).
    destruct (inv_entry _ Hinv _ _ H2) as (cb2 & Hcb2 & _ & Hk2).
    rewrite Heq in Hcb1. assert (k1 = k2) as -> by congruence.
    by rewrite (jmap_entry_unique _ _ _ _ Hkeys H1 H2). }
  split_and!; try done.
  - intros t cb Hcb. apply jmap_elem_get; [done | by apply inv_timer].
  - intros k e Hget%jmap_get_Some_elem.
    destruct (inv_entry _ Hinv _ _ Hget) as (cb & Hcb & _). by exists cb.
  - unfold jmap_size.
    rewrite <- (length_fmap (λ x, timeout x.2) (pendingRequests st)).
    rewrite <- size_dom, <- (size_list_to_set (C := gset nat)) by done.
    f_equal. apply set_eq. intros t.
    rewrite elem_of_dom, elem_of_list_to_set, list_elem_of_fmap. split.
    + intros [cb Hcb]. eexists. split; [|by apply (inv_timer _ Hinv)]. done.
    + intros ([k e] & -> & Hin).
      destruct (inv_entry _ Hinv _ _ Hin) as (cb & Hcb & _). by exists cb.
  - apply NoDup_fmap_2_strong; [|done].
    intros [k1 e1] [k2 e2] H1 H2 Heq. simpl in Heq.
    assert (k1 = k2) as -> by (by eapply inv_promise_inj).
    by rewrite (jmap_entry_unique _ _ _ _ Hkeys H1 H2).
Qed.

Lemma armed_timers_match_table_witness :
  size (timers run_two_pending) = 2.
Proof.
  destruct (armed_timers_match_table run_two_pending
              run_two_pending_reachable) as (_ & _ & Hsize & _).
  exact Hsize.
Defined.

End BridgeTimers.

Section DocsMembers.
Import Docs.

Lemma omap_kind_names {A} kind (f : APIDumpMember → A) (nameOf : A → string)
  (g : APIDumpMember → option A) (members : list APIDumpMember) :
  (∀ m, g m = if decide (MemberType m = kind) then Some (f m) else None) →
  (∀ m, nameOf (f m) = m_Name m) →
  nameOf <$> omap g members
  = m_Name <$> filter (λ m, MemberType m = kind) members.
Proof.
  intros Hg Hname. induction members as [|m members IH]; [done|].
  rewrite filter_cons. cbn [omap list_omap]. rewrite Hg.
  destruct (decide (MemberType m = kind)); [|exact IH].
  rewrite !fmap_cons. f_equal; [apply Hname | exact IH].
Qed.

(** X27.  A class lookup reports the members the class declares, by kind
    and in the order of the dump: the properties, the functions and the
    events, each under its own name; members of kind [Callback] are
    reported nowhere. *)
Theorem class_lookup_sorts_members_by_kind cache className classData d :
  findClass cache className = Some classData →
  getClassDocs 1 cache className false = Some (Some d) →
  p_name <$> k_properties d
    = m_Name <$> filter (λ m, MemberType m = Property) (Members classData) ∧
  f_name <$> k_methods d
    = m_Name <$> filter (λ m, MemberType m = Function) (Members classData) ∧
  e_name <$> k_events d
    = m_Name <$> filter (λ m, MemberType m = Event) (Members classData) ∧
  length (k_properties d) + length (k_methods d) + length (k_events d)
    = length (filter (λ m, MemberType m ≠ Callback) (Members classData)).
Proof.
  intros Hf. simpl. rewrite Hf. intros [= <-]. simpl.
  assert (p_name <$> ownProperties (classDocOf cache className) classData
          = m_Name <$> filter (λ m, MemberType m = Property)
                              (Members classData)) as Hp.
  { apply (omap_kind_names Property
             (λ m, propertyDoc
                     (getMemberDoc (classDocOf cache className) (m_Name m)
                                   Property) m) p_name);
      [intros m; by destruct (MemberType m) | done]. }
  assert (f_name <$> ownMethods (classDocOf cache className) classData
          = m_Name <$> filter (λ m, MemberType m = Function)
                              (Members classData)) as Hm.
  { apply (omap_kind_names Function
             (λ m, methodDoc
                     (getMemberDoc (classDocOf cache className) (m_Name m)
                                   Function) m) f_name);
      [intros m; by destruct (MemberType m) | done]. }
  assert (e_name <$> ownEvents (classDocOf cache className) classData
          = m_Name <$> filter (λ m, MemberType m = Event)
                              (Members classData)) as He.
  { apply (omap_kind_names Event
             (λ m, eventDoc
                     (getMemberDoc (classDocOf cache className) (m_Name m)
                                   Event) m) e_name);
      [intros m; by destruct (MemberType m) | done]. }
  split_and!; try done.
  apply (f_equal length) in Hp. rewrite !length_fmap in Hp.
  apply (f_equal length) in Hm. rewrite !length_fmap in Hm.
  apply (f_equal length) in He. rewrite !length_fmap in He.
  rewrite Hp, Hm, He. clear.
  induction (Members classData) as [|m members IH]; [done|].
  rewrite !filter_cons.
  destruct (MemberType m); repeat case_decide; simpl in *; try done; lia.
Qed.

Lemma class_lookup_sorts_members_by_kind_witness :
  ∃ d, getClassDocs 1 sample_cache "Instance" false = Some (Some d) ∧
       p_name <$> k_properties d = ["Name"] ∧
       f_name <$> k_methods d = ["Clone"] ∧
       e_name <$> k_events d = ["Changed"].
Proof.
  destruct (getClassDocs 1 sample_cache "Instance" false) as [[d|]|] eqn:Hd;
    [|vm_compute in Hd; discriminate..].
  exists d. split; [done|].
  destruct (class_lookup_sorts_members_by_kind sample_cache "Instance"
              {| c_Name := "Instance"; Superclass := ROOT; c_Tags := None;
                 Members := [sampleProperty "Name" "string";
                             sampleFunction "Clone" "Instance";
                             sampleEvent "Changed"] |}
              d eq_refl Hd) as (Hp & Hm & He & _).
  split_and!; [exact Hp | exact Hm | exact He].
Defined.

End DocsMembers.
